(** * Gorilla time-series codec: a shallow embedding of [c_src/gorilla_nif.cpp]

    The development follows the source file top to bottom: fixed-width
    integers, CRC-32, the MSB-first [BitWriter] and [BitReader], the
    delta-of-delta timestamp codec, the XOR value codec, the inner and the
    outer header, the preprocessing pass, and the two entry points
    [nif_gorilla_encode] and [nif_gorilla_decode].

    Conventions.
    - A [uint64_t], [uint32_t], [uint8_t] is a [Z] reduced modulo the width;
      an [int64_t], [int32_t] is a [Z] wrapped into the signed range.
    - A [double] is carried as its 64-bit IEEE-754 pattern: on a
      little-endian host [float_to_bits] and [bits_to_float] are [memcpy].
      The floating-point arithmetic of the preprocessing pass is kept
      abstract (Section variables).
    - A [std::vector<uint8_t>] is a [list Z].
    - An exception is an [Err] result (entry points) or [None] (the reader,
      whose only exception is "read past end"). *)

From Stdlib Require Import ZArith List Bool Lia Arith.
Import ListNotations.
Local Open Scope Z_scope.

(* ------------------------------------------------------------------ *)
(** ** Fixed-width integers *)
(* ------------------------------------------------------------------ *)

Definition u8 (z : Z) : Z := z mod 2 ^ 8.
Definition u32 (z : Z) : Z := z mod 2 ^ 32.
Definition u64 (z : Z) : Z := z mod 2 ^ 64.
Definition i32 (z : Z) : Z := (z + 2 ^ 31) mod 2 ^ 32 - 2 ^ 31.
Definition i64 (z : Z) : Z := (z + 2 ^ 63) mod 2 ^ 64 - 2 ^ 63.

Definition UINT64_MAX : Z := 2 ^ 64 - 1.

(* ------------------------------------------------------------------ *)
(** ** CRC32 (ISO 3309 lookup table) *)
(* ------------------------------------------------------------------ *)

Fixpoint crc32_entry_loop (j : nat) (c : Z) : Z :=
  match j with
  | O => c
  | S j' =>
      crc32_entry_loop j'
        (if Z.land c 1 =? 0 then Z.shiftr c 1
         else Z.lxor 0xEDB88320 (Z.shiftr c 1))
  end.

Definition do_init_crc32_table : list Z :=
  map (fun i => crc32_entry_loop 8 (Z.of_nat i)) (seq 0 256).

Definition crc32_table : list Z := Eval vm_compute in do_init_crc32_table.

Definition crc32 (data : list Z) : Z :=
  let c :=
    fold_left
      (fun c b =>
         Z.lxor (nth (Z.to_nat (Z.land (Z.lxor c b) 0xFF)) crc32_table 0)
                (Z.shiftr c 8))
      data 0xFFFFFFFF in
  Z.lxor c 0xFFFFFFFF.

(* ------------------------------------------------------------------ *)
(** ** Doubles as bit patterns *)
(* ------------------------------------------------------------------ *)

Definition float_to_bits (v : Z) : Z := v.
Definition bits_to_float (bits : Z) : Z := bits.

(* ------------------------------------------------------------------ *)
(** ** BitWriter: MSB-first bit accumulator *)
(* ------------------------------------------------------------------ *)

Record BitWriter := mkBitWriter {
  out_ : list Z;   (* committed bytes *)
  buf_ : Z;        (* uint64_t accumulator *)
  bits_ : Z        (* number of pending bits held in [buf_] *)
}.

Definition BitWriter_new : BitWriter := mkBitWriter [] 0 0.

(** [while (bits_ >= 8) { bits_ -= 8; out_.push_back((buf_ >> bits_) & 0xFF); }]
    The loop runs [bits_ / 8] times. *)
Fixpoint flush_loop (fuel : nat) (w : BitWriter) : BitWriter :=
  match fuel with
  | O => w
  | S fuel' =>
      if 8 <=? bits_ w then
        let bits' := bits_ w - 8 in
        flush_loop fuel'
          (mkBitWriter
             (out_ w ++ [u8 (Z.land (Z.shiftr (buf_ w) bits') 0xFF)])
             (buf_ w) bits')
      else w
  end.

Definition flush (w : BitWriter) : BitWriter :=
  flush_loop (Z.to_nat (bits_ w / 8)) w.

(** The path of [write] taken when [0 < nbits <= 32]. *)
Definition write_small (w : BitWriter) (value nbits : Z) : BitWriter :=
  let mask := u64 (Z.shiftl 1 nbits) - 1 in
  flush
    (mkBitWriter (out_ w)
       (Z.lor (u64 (Z.shiftl (buf_ w) nbits)) (Z.land value mask))
       (bits_ w + nbits)).

(** [write]: the recursion of the source splits off 32 bits at a time, so
    [nbits / 32] unfoldings are enough. *)
Fixpoint write_rec (fuel : nat) (w : BitWriter) (value nbits : Z)
  : BitWriter :=
  if nbits <=? 0 then w
  else if 32 <? nbits then
    match fuel with
    | O => w
    | S fuel' =>
        let hi_bits := nbits - 32 in
        write_rec fuel'
          (write_rec fuel' w (Z.shiftr value 32) hi_bits)
          (Z.land value 0xFFFFFFFF) 32
    end
  else write_small w value nbits.

Definition write (w : BitWriter) (value nbits : Z) : BitWriter :=
  write_rec (Z.to_nat (nbits / 32)) w value nbits.

Definition write_signed (w : BitWriter) (value nbits : Z) : BitWriter :=
  let mask :=
    if 64 <=? nbits then UINT64_MAX else u64 (Z.shiftl 1 nbits) - 1 in
  write w (Z.land (u64 value) mask) nbits.

Definition total_bits (w : BitWriter) : Z :=
  Z.of_nat (length (out_ w)) * 8 + bits_ w.

Definition to_bytes_padded (w : BitWriter) : list Z :=
  if 0 <? bits_ w
  then out_ w ++ [u8 (u64 (Z.shiftl (buf_ w) (8 - bits_ w)))]
  else out_ w.

(** [to_bytes] also reports the number of trailing sub-byte bits. *)
Definition to_bytes (w : BitWriter) : list Z * Z :=
  (to_bytes_padded w, bits_ w).

(* ------------------------------------------------------------------ *)
(** ** BitReader: MSB-first bit reader *)
(* ------------------------------------------------------------------ *)

Record BitReader := mkBitReader {
  data_ : list Z;
  total_bits_ : Z;
  pos_ : Z
}.

(** The reader's only exception, "read past end", is [None]. *)
Notation "' pat <- c1 ;; c2" :=
  (match c1 with Some pat => c2 | None => None end)
  (at level 61, pat pattern, c1 at next level, right associativity).

Definition read_bit (r : BitReader) : option (Z * BitReader) :=
  if total_bits_ r <=? pos_ r then None
  else
    let byte_idx := pos_ r / 8 in
    let bit_idx := 7 - pos_ r mod 8 in
    Some (Z.land (Z.shiftr (nth (Z.to_nat byte_idx) (data_ r) 0) bit_idx) 1,
          mkBitReader (data_ r) (total_bits_ r) (pos_ r + 1)).

Fixpoint read_loop (n : nat) (r : BitReader) (result : Z)
  : option (Z * BitReader) :=
  match n with
  | O => Some (result, r)
  | S n' =>
      '(bit, r') <- read_bit r ;;
      read_loop n' r' (Z.lor (u64 (Z.shiftl result 1)) bit)
  end.

Definition read (r : BitReader) (nbits : Z) : option (Z * BitReader) :=
  read_loop (Z.to_nat nbits) r 0.

Definition read_signed (r : BitReader) (nbits : Z)
  : option (Z * BitReader) :=
  '(raw, r') <- read r nbits ;;
  if 64 <=? nbits then Some (i64 raw, r')
  else
    let raw' :=
      if Z.land raw (u64 (Z.shiftl 1 (nbits - 1))) =? 0 then raw
      else Z.lor raw (u64 (Z.lnot (u64 (Z.shiftl 1 nbits) - 1))) in
    Some (i64 raw', r').

(** [for (size_t i = 0; i < n; i++) reader.read_bit();] *)
Fixpoint skip_bits (n : nat) (r : BitReader) : option BitReader :=
  match n with
  | O => Some r
  | S n' => '(_, r') <- read_bit r ;; skip_bits n' r'
  end.

(* ------------------------------------------------------------------ *)
(** ** Delta-of-delta timestamp encoding *)
(* ------------------------------------------------------------------ *)

Definition encode_first_delta (w : BitWriter) (delta : Z) : BitWriter :=
  if delta =? 0 then write w 0 1
  else if (-63 <=? delta) && (delta <=? 64) then
    write_signed (write w 0x2 2) delta 7
  else if (-255 <=? delta) && (delta <=? 256) then
    write_signed (write w 0x6 3) delta 9
  else if (-2047 <=? delta) && (delta <=? 2048) then
    write_signed (write w 0xE 4) delta 12
  else
    write_signed (write w 0xF 4) delta 32.

Definition encode_delta_of_delta (w : BitWriter) (dod : Z) : BitWriter :=
  if dod =? 0 then write w 0 1
  else if (-63 <=? dod) && (dod <=? 64) then
    write_signed (write w 0x2 2) dod 7
  else if (-255 <=? dod) && (dod <=? 256) then
    write_signed (write w 0x6 3) dod 9
  else if (-2047 <=? dod) && (dod <=? 2048) then
    write_signed (write w 0xE 4) dod 12
  else
    write_signed (write w 0xF 4) dod 32.

Record TimestampEncodeResult := mkTimestampEncodeResult {
  ts_writer : BitWriter;
  ts_first_timestamp : Z;
  ts_first_delta : Z;
  ts_count : Z
}.

(** The loop [for (i = 2; i < size; i++)]: [prev_ts] is [timestamps[i-1]],
    [rest] is [timestamps[i..]]. *)
Fixpoint encode_timestamps_loop (w : BitWriter) (prev_ts prev_delta : Z)
    (rest : list Z) : BitWriter :=
  match rest with
  | [] => w
  | t :: rest' =>
      let current_delta := i64 (t - prev_ts) in
      let dod := i64 (current_delta - prev_delta) in
      encode_timestamps_loop (encode_delta_of_delta w dod) t current_delta
        rest'
  end.

Definition encode_timestamps (timestamps : list Z) : TimestampEncodeResult :=
  let count := Z.of_nat (length timestamps) in
  match timestamps with
  | [] => mkTimestampEncodeResult BitWriter_new 0 0 count
  | t0 :: rest =>
      let w := write BitWriter_new (u64 t0) 64 in
      match rest with
      | [] => mkTimestampEncodeResult w t0 0 count
      | t1 :: rest' =>
          let first_delta := i64 (t1 - t0) in
          let w := encode_first_delta w first_delta in
          mkTimestampEncodeResult
            (encode_timestamps_loop w t1 first_delta rest')
            t0 first_delta count
      end
  end.

(* ------------------------------------------------------------------ *)
(** ** XOR value compression *)
(* ------------------------------------------------------------------ *)

Definition bitmask (n : Z) : Z :=
  if 64 <=? n then UINT64_MAX else u64 (Z.shiftl 1 n) - 1.

(** The portable branch of the source; the compiler intrinsics of the other
    branches compute the same count. *)
Definition count_leading_zeros_64 (v : Z) : Z :=
  if v =? 0 then 64
  else
    let '(n, v) :=
      if v <=? 0x00000000FFFFFFFF then (32, u64 (Z.shiftl v 32)) else (0, v) in
    let '(n, v) :=
      if v <=? 0x0000FFFFFFFFFFFF then (n + 16, u64 (Z.shiftl v 16)) else (n, v) in
    let '(n, v) :=
      if v <=? 0x00FFFFFFFFFFFFFF then (n + 8, u64 (Z.shiftl v 8)) else (n, v) in
    let '(n, v) :=
      if v <=? 0x0FFFFFFFFFFFFFFF then (n + 4, u64 (Z.shiftl v 4)) else (n, v) in
    let '(n, v) :=
      if v <=? 0x3FFFFFFFFFFFFFFF then (n + 2, u64 (Z.shiftl v 2)) else (n, v) in
    if v <=? 0x7FFFFFFFFFFFFFFF then n + 1 else n.

Definition count_trailing_zeros_64 (v : Z) : Z :=
  if v =? 0 then 64
  else
    let '(n, v) :=
      if Z.land v 0x00000000FFFFFFFF =? 0 then (32, Z.shiftr v 32) else (0, v) in
    let '(n, v) :=
      if Z.land v 0x000000000000FFFF =? 0 then (n + 16, Z.shiftr v 16) else (n, v) in
    let '(n, v) :=
      if Z.land v 0x00000000000000FF =? 0 then (n + 8, Z.shiftr v 8) else (n, v) in
    let '(n, v) :=
      if Z.land v 0x000000000000000F =? 0 then (n + 4, Z.shiftr v 4) else (n, v) in
    let '(n, v) :=
      if Z.land v 0x0000000000000003 =? 0 then (n + 2, Z.shiftr v 2) else (n, v) in
    if Z.land v 0x0000000000000001 =? 0 then n + 1 else n.

(** State of the loop of [encode_values]. *)
Record XorState := mkXorState {
  xs_writer : BitWriter;
  xs_prev_bits : Z;
  xs_prev_leading : Z;
  xs_prev_trailing : Z
}.

(** Which arm of the loop body runs for the next value. *)
Inductive XorBranch := Identical | ReuseWindow | NewWindow.

Definition xor_branch (st : XorState) (curr_bits : Z) : XorBranch :=
  let xor_val := Z.lxor curr_bits (xs_prev_bits st) in
  if xor_val =? 0 then Identical
  else
    let leading := count_leading_zeros_64 xor_val in
    let trailing := count_trailing_zeros_64 xor_val in
    if (xs_prev_leading st <=? leading)
       && (xs_prev_trailing st <=? trailing)
       && (0 <? 64 - xs_prev_leading st - xs_prev_trailing st)
    then ReuseWindow
    else NewWindow.

Definition encode_value_step (st : XorState) (value : Z) : XorState :=
  let curr_bits := float_to_bits value in
  let xor_val := Z.lxor curr_bits (xs_prev_bits st) in
  let prev_leading := xs_prev_leading st in
  let prev_trailing := xs_prev_trailing st in
  match xor_branch st curr_bits with
  | Identical =>
      mkXorState (write (xs_writer st) 0 1) curr_bits prev_leading
        prev_trailing
  | ReuseWindow =>
      let prev_meaningful := 64 - prev_leading - prev_trailing in
      let meaningful_value :=
        Z.land (Z.shiftr xor_val prev_trailing) (bitmask prev_meaningful) in
      let w := write (xs_writer st) 0x2 2 in
      let w := write w meaningful_value prev_meaningful in
      mkXorState w curr_bits prev_leading prev_trailing
  | NewWindow =>
      let leading := count_leading_zeros_64 xor_val in
      let trailing := count_trailing_zeros_64 xor_val in
      let meaningful := 64 - leading - trailing in
      let adj_leading := Z.min leading 31 in
      let adj_meaningful := Z.max 1 (Z.min 64 meaningful) in
      let meaningful_value :=
        Z.land (Z.shiftr xor_val trailing) (bitmask adj_meaningful) in
      let w := write (xs_writer st) 0x3 2 in
      let w := write w adj_leading 5 in
      let w := write w (adj_meaningful - 1) 6 in
      let w := write w meaningful_value adj_meaningful in
      mkXorState w curr_bits adj_leading trailing
  end.

Record ValueEncodeResult := mkValueEncodeResult {
  val_writer : BitWriter;
  val_first_value : Z;
  val_count : Z
}.

(** The state on entry to the loop, after the first value went out
    verbatim. *)
Definition xor_init (first_value : Z) : XorState :=
  let first_bits := float_to_bits first_value in
  mkXorState (write BitWriter_new first_bits 64) first_bits 0 0.

Definition encode_values (values : list Z) : ValueEncodeResult :=
  let count := Z.of_nat (length values) in
  match values with
  | [] => mkValueEncodeResult BitWriter_new 0 count
  | v0 :: rest =>
      mkValueEncodeResult
        (xs_writer (fold_left encode_value_step rest (xor_init v0)))
        v0 count
  end.

(* ------------------------------------------------------------------ *)
(** ** Inner header (32 bytes) *)
(* ------------------------------------------------------------------ *)

Definition build_inner_header
    (count first_timestamp first_value_bits first_delta ts_bit_len
       val_bit_len : Z) : list Z :=
  let w := BitWriter_new in
  let w := write w count 32 in
  let w := write w (u64 first_timestamp) 64 in
  let w := write w first_value_bits 64 in
  let w := write_signed w first_delta 32 in
  let w := write w ts_bit_len 32 in
  let w := write w val_bit_len 32 in
  fst (to_bytes w).

(* ------------------------------------------------------------------ *)
(** ** Outer metadata header (80 or 84 bytes) *)
(* ------------------------------------------------------------------ *)

Definition GORILLA_MAGIC : Z := 0x474F52494C4C41.
Definition GORILLA_VERSION : Z := 1.

Definition build_outer_header
    (count compressed_size checksum first_timestamp first_delta
       first_value_bits ts_bit_len val_bit_len total_bits_field
       compression_ratio creation_time flags scale_decimals : Z)
    (v2 : bool) : list Z :=
  let header_size := if v2 then 84 else 80 in
  let original_size := u32 (count * 16) in
  let w := BitWriter_new in
  let w := write w GORILLA_MAGIC 64 in
  let w := write w GORILLA_VERSION 16 in
  let w := write w header_size 16 in
  let w := write w count 32 in
  let w := write w compressed_size 32 in
  let w := write w original_size 32 in
  let w := write w checksum 32 in
  let w := write w (u64 first_timestamp) 64 in
  let w := write_signed w first_delta 32 in
  let w := write w first_value_bits 64 in
  let w := write w ts_bit_len 32 in
  let w := write w val_bit_len 32 in
  let w := write w total_bits_field 32 in
  let w := write w (float_to_bits compression_ratio) 64 in
  let w := write w (u64 creation_time) 64 in
  let w := write w flags 32 in
  let w := if v2 then write w scale_decimals 32 else w in
  fst (to_bytes w).

(* ------------------------------------------------------------------ *)
(** ** Options, results *)
(* ------------------------------------------------------------------ *)

(** The value under [scale_decimals]: an integer, or any other term
    (the atom [auto]). *)
Inductive ScaleOpt := ScaleInt (n : Z) | ScaleAuto.

(** The options map; [None] is an absent key. *)
Record Options := mkOptions {
  victoria_metrics : option bool;
  is_counter : option bool;
  scale_decimals : option ScaleOpt
}.

Definition default_options : Options := mkOptions None None None.

Inductive decode_error :=
| DataTooSmall            (* "data too small for header" *)
| InvalidMagic            (* "invalid magic number" *)
| UnsupportedVersion      (* "unsupported version" *)
| InvalidHeaderSize       (* "invalid header size" *)
| DataSmallerThanHeader   (* "data smaller than header" *)
| CompressedBeyondInput   (* "compressed data extends beyond input" *)
| PackedTooSmall          (* "packed data too small for inner header" *)
| ReadPastEnd.            (* "BitReader: read past end" *)

Inductive result (A : Type) :=
| Ok (a : A)
| Err (e : decode_error).
Arguments Ok {A} a.
Arguments Err {A} e.

Definition lift_reader {A} (o : option A) : result A :=
  match o with Some a => Ok a | None => Err ReadPastEnd end.

Notation "' pat <~ c1 ;; c2" :=
  (match c1 with Ok pat => c2 | Err e => Err e end)
  (at level 61, pat pattern, c1 at next level, right associativity).

(* ------------------------------------------------------------------ *)
(** ** Decode helpers *)
(* ------------------------------------------------------------------ *)

Definition decode_first_delta (reader : BitReader)
  : option (Z * BitReader) :=
  '(bit, reader) <- read_bit reader ;;
  if bit =? 0 then Some (0, reader) else
  '(bit, reader) <- read_bit reader ;;
  if bit =? 0 then read_signed reader 7 else
  '(bit, reader) <- read_bit reader ;;
  if bit =? 0 then read_signed reader 9 else
  '(bit, reader) <- read_bit reader ;;
  if bit =? 0 then read_signed reader 12 else
  read_signed reader 32.

Definition decode_delta_of_delta (reader : BitReader)
  : option (Z * BitReader) :=
  '(bit, reader) <- read_bit reader ;;
  if bit =? 0 then Some (0, reader) else
  '(bit, reader) <- read_bit reader ;;
  if bit =? 0 then read_signed reader 7 else
  '(bit, reader) <- read_bit reader ;;
  if bit =? 0 then read_signed reader 9 else
  '(bit, reader) <- read_bit reader ;;
  if bit =? 0 then read_signed reader 12 else
  read_signed reader 32.

(** The loop [for (i = 2; i < count; i++)], [n] iterations left. *)
Fixpoint decode_timestamps_loop (n : nat) (reader : BitReader)
    (timestamps : list Z) (prev_delta : Z)
  : option (list Z * BitReader) :=
  match n with
  | O => Some (timestamps, reader)
  | S n' =>
      '(dod, reader) <- decode_delta_of_delta reader ;;
      let current_delta := i64 (prev_delta + dod) in
      let ts := i64 (last timestamps 0 + current_delta) in
      decode_timestamps_loop n' reader (timestamps ++ [ts]) current_delta
  end.

Definition decode_timestamps (reader : BitReader) (count : Z)
  : option (list Z * BitReader) :=
  if count =? 0 then Some ([], reader) else
  '(raw, reader) <- read reader 64 ;;
  let first_ts := i64 raw in
  if count =? 1 then Some ([first_ts], reader) else
  '(first_delta, reader) <- decode_first_delta reader ;;
  let second_ts := i64 (first_ts + first_delta) in
  decode_timestamps_loop (Z.to_nat (count - 2)) reader
    [first_ts; second_ts] first_delta.

(** The loop [for (i = 1; i < count; i++)], [n] iterations left.  A shift
    of a 64-bit word by a count outside 0..63 is undefined in the source;
    the model takes [Z.shiftl] reduced to 64 bits there. *)
Fixpoint decode_values_loop (n : nat) (reader : BitReader)
    (values : list Z) (prev_bits prev_leading prev_trailing : Z)
  : option (list Z * BitReader) :=
  match n with
  | O => Some (values, reader)
  | S n' =>
      '(bit, reader) <- read_bit reader ;;
      if bit =? 0 then
        decode_values_loop n' reader (values ++ [bits_to_float prev_bits])
          prev_bits prev_leading prev_trailing
      else
        '(bit, reader) <- read_bit reader ;;
        if bit =? 0 then
          let meaningful_length := 64 - prev_leading - prev_trailing in
          '(meaningful_value, reader) <- read reader meaningful_length ;;
          let xor_val := u64 (Z.shiftl meaningful_value prev_trailing) in
          let new_bits := Z.lxor prev_bits xor_val in
          decode_values_loop n' reader (values ++ [bits_to_float new_bits])
            new_bits prev_leading prev_trailing
        else
          '(leading, reader) <- read reader 5 ;;
          '(len1, reader) <- read reader 6 ;;
          let meaningful_length := len1 + 1 in
          let trailing := 64 - leading - meaningful_length in
          '(meaningful_value, reader) <- read reader meaningful_length ;;
          let xor_val := u64 (Z.shiftl meaningful_value trailing) in
          let new_bits := Z.lxor prev_bits xor_val in
          decode_values_loop n' reader (values ++ [bits_to_float new_bits])
            new_bits leading trailing
  end.

Definition decode_values (reader : BitReader) (count : Z)
  : option (list Z * BitReader) :=
  if count =? 0 then Some ([], reader) else
  '(first_bits, reader) <- read reader 64 ;;
  if count =? 1 then Some ([bits_to_float first_bits], reader) else
  decode_values_loop (Z.to_nat (count - 1)) reader
    [bits_to_float first_bits] first_bits 0 0.

(* ------------------------------------------------------------------ *)
(** ** Preprocessing and the two entry points *)
(* ------------------------------------------------------------------ *)

Section Codec.

(** IEEE-754 arithmetic of the source, on 64-bit patterns. *)
Variable fp_sub : Z -> Z -> Z.      (* [a - b] *)
Variable fp_add : Z -> Z -> Z.      (* [a + b] *)
(** [static_cast<double>(static_cast<int64_t>(std::round(v * scale)))]
    for the integer [scale]. *)
Variable fp_scale_round : Z -> Z -> Z.
(** [v / std::pow(10.0, scale_decimals)]. *)
Variable fp_div_pow10 : Z -> Z -> Z.
(** [static_cast<double>(a) / static_cast<double>(b)] for two [uint32_t]. *)
Variable fp_ratio : Z -> Z -> Z.
(** Digits after the '.' in the ["%.10g"] rendering of a value, trailing
    zeros trimmed; 0 when the rendering has no '.'. *)
Variable decimal_places : Z -> Z.

Definition detect_scale (values : list Z) : Z :=
  let max_decimals :=
    fold_left
      (fun max_decimals v =>
         let len := decimal_places v in
         if max_decimals <? len then len else max_decimals)
      values 0 in
  Z.min max_decimals 6.

Fixpoint pow10i_loop (n : nat) (r : Z) : Z :=
  match n with
  | O => r
  | S n' => pow10i_loop n' (i64 (r * 10))
  end.

Definition pow10i (n : Z) : Z := pow10i_loop (Z.to_nat n) 1.

Definition scale_values (values : list Z) (n : Z) : list Z :=
  if n =? 0 then values
  else
    let scale := pow10i n in
    map (fun v => fp_scale_round v scale) values.

(** [prev] is [values[i-1]]. *)
Fixpoint delta_encode_counter_loop (prev : Z) (rest : list Z) : list Z :=
  match rest with
  | [] => []
  | v :: rest' => fp_sub v prev :: delta_encode_counter_loop v rest'
  end.

Definition delta_encode_counter (values : list Z) : list Z :=
  match values with
  | [] => values
  | v0 :: rest => v0 :: delta_encode_counter_loop v0 rest
  end.

(** [back] is [result.back()]. *)
Fixpoint delta_decode_counter_loop (back : Z) (rest : list Z) : list Z :=
  match rest with
  | [] => []
  | v :: rest' =>
      let s := fp_add back v in
      s :: delta_decode_counter_loop s rest'
  end.

Definition delta_decode_counter (values : list Z) : list Z :=
  match values with
  | [] => values
  | v0 :: rest => v0 :: delta_decode_counter_loop v0 rest
  end.

(** Copies the first [bit_len] bits of [bytes] into [packed]: the full
    bytes, then the remaining bits of the last one. *)
Definition append_bits (packed : BitWriter) (bytes : list Z) (bit_len : Z)
  : BitWriter :=
  if 0 <? bit_len then
    let full_bytes := bit_len / 8 in
    let remaining := bit_len mod 8 in
    let packed :=
      fold_left (fun p i => write p (nth i bytes 0) 8)
        (seq 0 (Z.to_nat full_bytes)) packed in
    if 0 <? remaining then
      write packed
        (Z.shiftr (nth (Z.to_nat full_bytes) bytes 0) (8 - remaining))
        remaining
    else packed
  else packed.

(** Option parsing and VM preprocessing of [nif_gorilla_encode]: the
    flags, the scale field, the values handed to the codec, and whether
    the 84-byte header is used. *)
Definition preprocess (opts : Options) (values : list Z)
  : Z * Z * list Z * bool :=
  let vm_enabled :=
    match victoria_metrics opts with Some b => b | None => false end in
  let is_counter_ :=
    match is_counter opts with Some b => b | None => false end in
  let scale_n :=
    match scale_decimals opts with
    | Some (ScaleInt sval) => i32 sval
    | _ => -1   (* auto *)
    end in
  let '(flags, scale_decimals_, values) :=
    if vm_enabled then
      let flags := Z.lor 0 0x1 in
      let '(flags, values) :=
        if is_counter_
        then (Z.lor flags 0x2, delta_encode_counter values)
        else (flags, values) in
      let scale_n :=
        if scale_n <? 0 then detect_scale values else scale_n in
      (flags, u32 scale_n, scale_values values scale_n)
    else (0, 0, values) in
  let v2 := vm_enabled || (is_counter_ && (0 <=? scale_decimals_)) in
  (flags, scale_decimals_, values, v2).

(** The packed block of [nif_gorilla_encode]: inner header, timestamp
    bits, value bits, zero padding to a byte boundary. *)
Definition pack_payload (inner_header : list Z) (ts_w val_w : BitWriter)
  : BitWriter :=
  let ts_bit_len := total_bits ts_w in
  let val_bit_len := total_bits val_w in
  let ts_bytes := fst (to_bytes ts_w) in
  let val_bytes := fst (to_bytes val_w) in
  let packed := BitWriter_new in
  let packed := fold_left (fun p b => write p b 8) inner_header packed in
  let packed := append_bits packed ts_bytes ts_bit_len in
  let packed := append_bits packed val_bytes val_bit_len in
  let total := total_bits packed in
  let pad_bits := (8 - total mod 8) mod 8 in
  if 0 <? pad_bits then write packed 0 pad_bits else packed.

(** [data]: the list of [{timestamp, value}] tuples, a timestamp an
    [int64_t], a value the pattern of a double.  [creation_time] stands
    for [time(nullptr)]. *)
Definition nif_gorilla_encode (data : list (Z * Z)) (opts : Options)
    (creation_time : Z) : list Z :=
  let list_len := length data in
  if (list_len =? 0)%nat then []
  else
    let timestamps := map fst data in
    let values := map snd data in
    let '(flags, scale_decimals_, values, v2) := preprocess opts values in
    (* the two sub-streams *)
    let ts_result := encode_timestamps timestamps in
    let ts_bit_len := total_bits (ts_writer ts_result) in
    let val_result := encode_values values in
    let val_bit_len := total_bits (val_writer val_result) in
    (* inner header *)
    let first_value_bits := float_to_bits (val_first_value val_result) in
    let inner_header :=
      build_inner_header
        (u32 (Z.of_nat (length timestamps)))
        (ts_first_timestamp ts_result)
        first_value_bits
        (i32 (ts_first_delta ts_result))
        (u32 ts_bit_len)
        (u32 val_bit_len) in
    let packed :=
      pack_payload inner_header (ts_writer ts_result)
        (val_writer val_result) in
    let total := total_bits packed in
    let packed_data := fst (to_bytes packed) in
    let checksum := crc32 packed_data in
    (* outer header *)
    let compressed_size := u32 (Z.of_nat (length packed_data)) in
    let count := u32 (Z.of_nat (length timestamps)) in
    let original_size := u32 (count * 16) in
    let compression_ratio :=
      if 0 <? original_size then fp_ratio compressed_size original_size
      else 0 in
    let outer_header :=
      build_outer_header count compressed_size checksum
        (ts_first_timestamp ts_result)
        (i32 (ts_first_delta ts_result))
        first_value_bits
        (u32 ts_bit_len) (u32 val_bit_len) (u32 total)
        compression_ratio creation_time flags scale_decimals_ v2 in
    outer_header ++ packed_data.

(** The part of [nif_gorilla_decode] after the outer header: inner
    header, the two sub-streams, postprocessing. *)
Definition decode_packed (packed_data : list Z)
    (packed_size count flags scale_decimals_ : Z)
  : result (list (Z * Z)) :=
  if count =? 0 then Ok []
  else if packed_size <? 32 then Err PackedTooSmall
  else
    lift_reader (
      let inner := mkBitReader packed_data (packed_size * 8) 0 in
      '(inner_count, inner) <- read inner 32 ;;
      '(_, inner) <- read inner 64 ;;
      '(_, inner) <- read inner 64 ;;
      '(_, inner) <- read_signed inner 32 ;;
      '(ts_bit_len, inner) <- read inner 32 ;;
      let ts_bit_len := u32 ts_bit_len in
      '(_, inner) <- read inner 32 ;;
      let data_start_bits := 256 in
      let ts_start := data_start_bits in
      let val_start := ts_start + ts_bit_len in
      let ts_reader := mkBitReader packed_data (packed_size * 8) 0 in
      'ts_reader <- skip_bits (Z.to_nat data_start_bits) ts_reader ;;
      '(timestamps, _) <- decode_timestamps ts_reader count ;;
      let val_reader := mkBitReader packed_data (packed_size * 8) 0 in
      'val_reader <- skip_bits (Z.to_nat val_start) val_reader ;;
      '(values, _) <- decode_values val_reader count ;;
      (* VM postprocessing *)
      let vm_enabled := negb (Z.land flags 0x1 =? 0) in
      let is_counter_ := negb (Z.land flags 0x2 =? 0) in
      let values :=
        if vm_enabled then
          let values :=
            if 0 <? scale_decimals_
            then map (fp_div_pow10 scale_decimals_) values
            else values in
          if is_counter_ then delta_decode_counter values else values
        else values in
      Some (combine timestamps values)).

Definition nif_gorilla_decode (data : list Z) : result (list (Z * Z)) :=
  if (length data =? 0)%nat then Ok []
  else
    let len := Z.of_nat (length data) in
    if len <? 80 then Err DataTooSmall
    else
      let hdr := mkBitReader data (len * 8) 0 in
      '(magic, hdr) <~ lift_reader (read hdr 64) ;;
      if negb (magic =? GORILLA_MAGIC) then Err InvalidMagic else
      '(version, hdr) <~ lift_reader (read hdr 16) ;;
      if GORILLA_VERSION <? version then Err UnsupportedVersion else
      '(header_size, hdr) <~ lift_reader (read hdr 16) ;;
      if negb (header_size =? 80) && negb (header_size =? 84)
      then Err InvalidHeaderSize else
      if len <? header_size then Err DataSmallerThanHeader else
      '(count, hdr) <~ lift_reader (read hdr 32) ;;
      let count := u32 count in
      '(compressed_size, hdr) <~ lift_reader (read hdr 32) ;;
      let compressed_size := u32 compressed_size in
      '(_, hdr) <~ lift_reader (read hdr 32) ;;         (* original_size *)
      '(expected_crc, hdr) <~ lift_reader (read hdr 32) ;;
      let expected_crc := u32 expected_crc in
      '(_, hdr) <~ lift_reader (read hdr 64) ;;         (* first_timestamp *)
      '(_, hdr) <~ lift_reader (read_signed hdr 32) ;;  (* first_delta *)
      '(_, hdr) <~ lift_reader (read hdr 64) ;;         (* first_value_bits *)
      '(_, hdr) <~ lift_reader (read hdr 32) ;;         (* ts_bit_len *)
      '(_, hdr) <~ lift_reader (read hdr 32) ;;         (* val_bit_len *)
      '(_, hdr) <~ lift_reader (read hdr 32) ;;         (* total_bits *)
      '(_, hdr) <~ lift_reader (read hdr 64) ;;         (* compression_ratio *)
      '(_, hdr) <~ lift_reader (read hdr 64) ;;         (* creation_time *)
      '(flags, hdr) <~ lift_reader (read hdr 32) ;;
      let flags := u32 flags in
      '(scale_decimals_, hdr) <~
        (if header_size =? 84
         then '(s, hdr) <~ lift_reader (read hdr 32) ;; Ok (u32 s, hdr)
         else Ok (0, hdr)) ;;
      let packed_data := skipn (Z.to_nat header_size) data in
      let packed_size := compressed_size in
      if len <? header_size + packed_size then Err CompressedBeyondInput
      else
        let actual_crc := crc32 (firstn (Z.to_nat packed_size) packed_data) in
        (* a checksum mismatch is allowed: both arms continue alike *)
        if negb (actual_crc =? expected_crc)
        then decode_packed packed_data packed_size count flags scale_decimals_
        else decode_packed packed_data packed_size count flags scale_decimals_.

End Codec.

(* ------------------------------------------------------------------ *)
(** ** The bit-level view of writers, byte vectors and readers *)
(* ------------------------------------------------------------------ *)

(** The low [n] bits of [v], most significant first. *)
Fixpoint bits_of (n : nat) (v : Z) : list bool :=
  match n with
  | O => []
  | S k => Z.testbit v (Z.of_nat k) :: bits_of k v
  end.

Definition bytes_bits (bytes : list Z) : list bool :=
  flat_map (bits_of 8) bytes.

(** Every bit a writer holds: the committed bytes, then the pending bits. *)
Definition wbits (w : BitWriter) : list bool :=
  bytes_bits (out_ w) ++ bits_of (Z.to_nat (bits_ w)) (buf_ w).

Definition writer_ok (w : BitWriter) : Prop := 0 <= bits_ w < 8.

(** The unsigned number a bit list spells, most significant bit first. *)
Definition bits_val (l : list bool) : Z :=
  fold_left (fun a b => 2 * a + Z.b2z b) l 0.

(** The bits a reader has not consumed yet. *)
Definition rbits (r : BitReader) : list bool :=
  skipn (Z.to_nat (pos_ r)) (bytes_bits (data_ r)).

Definition reader_ok (r : BitReader) : Prop :=
  total_bits_ r = 8 * Z.of_nat (length (data_ r))
  /\ 0 <= pos_ r <= total_bits_ r.

Definition Reads (r : BitReader) (l : list bool) : Prop :=
  reader_ok r /\ rbits r = l.

(** Operations on a writer, for stating its invariant. *)
Inductive WriterOp :=
| OpWrite (value nbits : Z)
| OpWriteSigned (value nbits : Z)
| OpFlush.

Definition apply_op (w : BitWriter) (op : WriterOp) : BitWriter :=
  match op with
  | OpWrite v n => write w v n
  | OpWriteSigned v n => write_signed w v n
  | OpFlush => flush w
  end.

Definition run_ops (ops : list WriterOp) : BitWriter :=
  fold_left apply_op ops BitWriter_new.

(** Number of bits the operations asked to append. *)
Definition op_bits (op : WriterOp) : Z :=
  match op with
  | OpWrite _ n | OpWriteSigned _ n => Z.max 0 n
  | OpFlush => 0
  end.

Definition ops_bits (ops : list WriterOp) : Z :=
  fold_right (fun op acc => op_bits op + acc) 0 ops.

(** The variable-length scheme as the specification's table gives it:
    prefix bits, then the payload, the low bits of the two's-complement
    pattern of [d]. *)
Definition bucket_code (d : Z) : list bool :=
  if d =? 0 then [false]
  else if (-63 <=? d) && (d <=? 64) then
    [true; false] ++ bits_of 7 d
  else if (-255 <=? d) && (d <=? 256) then
    [true; true; false] ++ bits_of 9 d
  else if (-2047 <=? d) && (d <=? 2048) then
    [true; true; true; false] ++ bits_of 12 d
  else
    [true; true; true; true] ++ bits_of 32 d.

(** The reader [r] moved [n] bits further. *)
Definition advance (r : BitReader) (n : Z) : BitReader :=
  mkBitReader (data_ r) (total_bits_ r) (pos_ r + n).

(** ** Quantities the round-trip statement speaks about *)

Definition in_i64 (z : Z) : Prop := - 2 ^ 63 <= z < 2 ^ 63.
Definition in_u64 (z : Z) : Prop := 0 <= z < 2 ^ 64.

(** A code survives the variable-length scheme when its bucket's payload
    width holds it: it lies in the signed 32-bit range and is not the upper
    bound of one of the three short buckets. *)
Definition code_fits (d : Z) : bool :=
  (- 2 ^ 31 <=? d) && (d <? 2 ^ 31)
  && negb (d =? 64) && negb (d =? 256) && negb (d =? 2048).

(** The delta-of-delta values [encode_timestamps] hands to the
    variable-length scheme in its loop. *)
Fixpoint dod_codes (prev_ts prev_delta : Z) (rest : list Z) : list Z :=
  match rest with
  | [] => []
  | t :: rest' =>
      let current_delta := i64 (t - prev_ts) in
      i64 (current_delta - prev_delta) :: dod_codes t current_delta rest'
  end.

(** The first delta, then every delta-of-delta. *)
Definition timestamp_codes (timestamps : list Z) : list Z :=
  match timestamps with
  | t0 :: t1 :: rest =>
      let first_delta := i64 (t1 - t0) in
      first_delta :: dod_codes t1 first_delta rest
  | _ => []
  end.

(** What the value codec emits for a value after the first when the window
    is (0, 0): one 0 bit for a repeat, else the control bits 10 and the
    whole 64-bit XOR. *)
Definition xor_code (prev_bits curr_bits : Z) : list bool :=
  let xor_val := Z.lxor curr_bits prev_bits in
  if xor_val =? 0 then [false]
  else [true; false] ++ bits_of 64 xor_val.

Fixpoint xor_codes (prev_bits : Z) (values : list Z) : list bool :=
  match values with
  | [] => []
  | v :: rest => xor_code prev_bits v ++ xor_codes v rest
  end.


(** Bits of the packed block before padding: the inner header and the two
    sub-streams of a sample list encoded without preprocessing. *)
Definition payload_bits (data : list (Z * Z)) : Z :=
  256
  + total_bits (ts_writer (encode_timestamps (map fst data)))
  + total_bits (val_writer (encode_values (map snd data))).

(** A sample as the host hands it over: an [int64_t] timestamp and the
    64-bit pattern of a double. *)
Definition valid_sample (s : Z * Z) : Prop := in_i64 (fst s) /\ in_u64 (snd s).

(** [Holds w l]: the writer is well formed and holds exactly the bits [l]. *)
Definition Holds (w : BitWriter) (l : list bool) : Prop :=
  writer_ok w /\ wbits w = l.

(** The bit layout of the inner header. *)
Definition inner_header_bits
    (count first_timestamp first_value_bits first_delta ts_bit_len
       val_bit_len : Z) : list bool :=
  bits_of 32 count ++ bits_of 64 first_timestamp
  ++ bits_of 64 first_value_bits ++ bits_of 32 first_delta
  ++ bits_of 32 ts_bit_len ++ bits_of 32 val_bit_len.

(** The bit layout of the outer header. *)
Definition outer_header_bits
    (count compressed_size checksum first_timestamp first_delta
       first_value_bits ts_bit_len val_bit_len total_bits_field
       compression_ratio creation_time flags scale_decimals_ : Z)
    (v2 : bool) : list bool :=
  bits_of 64 GORILLA_MAGIC ++ bits_of 16 GORILLA_VERSION
  ++ bits_of 16 (if v2 then 84 else 80)
  ++ bits_of 32 count ++ bits_of 32 compressed_size
  ++ bits_of 32 (u32 (count * 16)) ++ bits_of 32 checksum
  ++ bits_of 64 first_timestamp ++ bits_of 32 first_delta
  ++ bits_of 64 first_value_bits ++ bits_of 32 ts_bit_len
  ++ bits_of 32 val_bit_len ++ bits_of 32 total_bits_field
  ++ bits_of 64 compression_ratio ++ bits_of 64 creation_time
  ++ bits_of 32 flags
  ++ (if v2 then bits_of 32 scale_decimals_ else []).

(** ** Header fields of an arbitrary buffer *)

(** The unsigned big-endian number in the [n] bits at bit offset [pos]. *)
Definition field (data : list Z) (pos n : Z) : Z :=
  bits_val (firstn (Z.to_nat n) (skipn (Z.to_nat pos) (bytes_bits data))).

(** Two buffers of one length that agree on every byte outside the byte
    range [lo, hi). *)
Definition same_outside (lo hi : nat) (b b' : list Z) : Prop :=
  length b = length b'
  /\ forall i, (i < lo \/ hi <= i)%nat -> nth i b 0 = nth i b' 0.

(** The structural errors of outer-header validation. *)
Definition is_header_error {A} (r : result A) : bool :=
  match r with
  | Err DataTooSmall | Err InvalidMagic | Err UnsupportedVersion
  | Err InvalidHeaderSize | Err DataSmallerThanHeader
  | Err CompressedBeyondInput => true
  | _ => false
  end.

Section Outline.

Variables fp_add fp_div_pow10 : Z -> Z -> Z.

(** [nif_gorilla_decode] with each header read replaced by the field it
    returns; the fields read and dropped do not appear. *)
Definition decode_outline (data : list Z) : result (list (Z * Z)) :=
  if (length data =? 0)%nat then Ok []
  else
    let len := Z.of_nat (length data) in
    if len <? 80 then Err DataTooSmall
    else if negb (field data 0 64 =? GORILLA_MAGIC) then Err InvalidMagic
    else if GORILLA_VERSION <? field data 64 16 then Err UnsupportedVersion
    else
      let header_size := field data 80 16 in
      if negb (header_size =? 80) && negb (header_size =? 84)
      then Err InvalidHeaderSize
      else if len <? header_size then Err DataSmallerThanHeader
      else
        let count := field data 96 32 in
        let compressed_size := field data 128 32 in
        let flags := field data 608 32 in
        let scale_decimals_ :=
          if header_size =? 84 then field data 640 32 else 0 in
        if len <? header_size + compressed_size
        then Err CompressedBeyondInput
        else
          decode_packed fp_add fp_div_pow10
            (skipn (Z.to_nat header_size) data)
            compressed_size count flags scale_decimals_.

End Outline.

(** [same_outside], as a test. *)
Definition differs_only_in (lo hi : nat) (b b' : list Z) : bool :=
  (length b =? length b')%nat
  && forallb
       (fun i => ((lo <=? i)%nat && (i <? hi)%nat) || (nth i b 0 =? nth i b' 0))
       (seq 0 (length b)).

(** ** Concrete runs

    Under default options, and on buffers without postprocessing flags, no
    floating-point operation decides the outcome; the runs below stub
    them. *)
Definition no_fp2 : Z -> Z -> Z := fun _ _ => 0.
Definition no_fp1 : Z -> Z := fun _ => 0.

Abbreviation run_encode :=
  (nif_gorilla_encode no_fp2 no_fp2 no_fp2 no_fp1).

Abbreviation run_decode := (nif_gorilla_decode no_fp2 no_fp2).

(** Options with only [is_counter] set. *)
Definition counter_only_options : Options :=
  mkOptions None (Some true) None.

(** The value of a boolean option key, [false] when absent. *)
Definition opt_flag (o : option bool) : bool :=
  match o with Some b => b | None => false end.

(** A four-sample series (values 1.0, 1.5, 1.5, 3.25) and its encoding. *)
Definition sample_series : list (Z * Z) :=
  [(1000, 0x3FF0000000000000); (2000, 0x3FF8000000000000);
   (3000, 0x3FF8000000000000); (4000, 0x400A000000000000)].

Definition sample_buffer : list Z :=
  run_encode sample_series default_options 1700000000.

(** Overwrites the checksum field (bytes 24..27). *)
Definition corrupt_checksum (b : list Z) : list Z :=
  firstn 24 b ++ [0; 0; 0; 0] ++ skipn 28 b.

(** Overwrites the outer-header copy of the first timestamp
    (bytes 28..35) with 9. *)
Definition corrupt_first_timestamp (b : list Z) : list Z :=
  firstn 28 b ++ [0; 0; 0; 0; 0; 0; 0; 9] ++ skipn 36 b.

(** Overwrites the first byte of the magic. *)
Definition corrupt_magic (b : list Z) : list Z := 1 :: skipn 1 b.


(* ------------------------------------------------------------------ *)
(** ** More of the source, and what its properties speak about *)
(* ------------------------------------------------------------------ *)

(** [byte_swap_64], and the two conversions as they are compiled on a
    big-endian host ([IS_BIG_ENDIAN] = 1). *)
Definition byte_swap_64 (v : Z) : Z :=
  Z.lor (u64 (Z.shiftl (Z.land v 0x00000000000000FF) 56))
  (Z.lor (u64 (Z.shiftl (Z.land v 0x000000000000FF00) 40))
  (Z.lor (u64 (Z.shiftl (Z.land v 0x0000000000FF0000) 24))
  (Z.lor (u64 (Z.shiftl (Z.land v 0x00000000FF000000) 8))
  (Z.lor (Z.shiftr (Z.land v 0x000000FF00000000) 8)
  (Z.lor (Z.shiftr (Z.land v 0x0000FF0000000000) 24)
  (Z.lor (Z.shiftr (Z.land v 0x00FF000000000000) 40)
         (Z.shiftr (Z.land v 0xFF00000000000000) 56))))))).

Definition float_to_bits_be (v : Z) : Z := byte_swap_64 v.
Definition bits_to_float_be (bits : Z) : Z := byte_swap_64 bits.

(** [BitReader::position] and [BitReader::remaining]. *)
Definition position (r : BitReader) : Z := pos_ r.

Definition remaining (r : BitReader) : Z :=
  if pos_ r <? total_bits_ r then total_bits_ r - pos_ r else 0.

(** A reader over the byte vector of a writer, at bit offset [pos]. *)
Definition reader_at (bytes : list Z) (pos : Z) : BitReader :=
  mkBitReader bytes (Z.of_nat (length bytes) * 8) pos.

(** The reader [r] over its bytes followed by [extra] bytes; a reader that
    stays within its own bytes; and the outcome [o'] of a read on the
    extended reader matching the outcome [o] on the plain one. *)
Definition extend (extra : list Z) (r : BitReader) : BitReader :=
  mkBitReader (data_ r ++ extra) (total_bits_ r) (pos_ r).

Definition within (r : BitReader) : Prop :=
  0 <= pos_ r /\ total_bits_ r <= 8 * Z.of_nat (length (data_ r)).

Definition ext_rel {A} (extra : list Z) (o' o : option (A * BitReader))
  : Prop :=
  match o with
  | Some (v, r1) => o' = Some (v, extend extra r1) /\ within r1
  | None => o' = None
  end.

(** The value of an [n]-bit two's-complement field holding the low bits
    of [d]. *)
Definition sign_wrap (n d : Z) : Z :=
  (d + 2 ^ (n - 1)) mod 2 ^ n - 2 ^ (n - 1).

(** Number of value changes in a series that starts after [prev_bits]. *)
Fixpoint changes (prev_bits : Z) (values : list Z) : Z :=
  match values with
  | [] => 0
  | v :: rest => (if Z.lxor v prev_bits =? 0 then 0 else 1) + changes v rest
  end.

(** An arithmetic progression of [n] timestamps. *)
Definition progression (t0 step : Z) (n : nat) : list Z :=
  map (fun k => t0 + step * Z.of_nat k) (seq 0 n).

Section Postprocess.

Variables fp_add fp_div_pow10 : Z -> Z -> Z.

(** The VM postprocessing of [nif_gorilla_decode], as it stands inside
    [decode_packed]. *)
Definition postprocess (flags scale_decimals_ : Z) (values : list Z)
  : list Z :=
  let vm_enabled := negb (Z.land flags 0x1 =? 0) in
  let is_counter_ := negb (Z.land flags 0x2 =? 0) in
  if vm_enabled then
    let values :=
      if 0 <? scale_decimals_
      then map (fp_div_pow10 scale_decimals_) values
      else values in
    if is_counter_ then delta_decode_counter fp_add values else values
  else values.

End Postprocess.

Section CounterDeltas.

Variables fp_sub fp_add : Z -> Z -> Z.

(** Every difference of two neighbours, added back to the first of them,
    gives the second one exactly. *)
Fixpoint deltas_exact_from (prev : Z) (rest : list Z) : bool :=
  match rest with
  | [] => true
  | v :: rest' =>
      (fp_add prev (fp_sub v prev) =? v) && deltas_exact_from v rest'
  end.

Definition deltas_exact (values : list Z) : bool :=
  match values with
  | [] => true
  | v0 :: rest => deltas_exact_from v0 rest
  end.

End CounterDeltas.

(** The four results of [preprocess]. *)
Definition pre_flags (p : Z * Z * list Z * bool) : Z := fst (fst (fst p)).
Definition pre_scale (p : Z * Z * list Z * bool) : Z := snd (fst (fst p)).
Definition pre_values (p : Z * Z * list Z * bool) : list Z := snd (fst p).
Definition pre_v2 (p : Z * Z * list Z * bool) : bool := snd p.

(** What the variable-length decoder returns for the code of [d]: the
    payload of [d]'s bucket read back as a two's-complement number. *)
Definition decoded_code (d : Z) : Z :=
  if d =? 0 then 0
  else if (-63 <=? d) && (d <=? 64) then sign_wrap 7 d
  else if (-255 <=? d) && (d <=? 256) then sign_wrap 9 d
  else if (-2047 <=? d) && (d <=? 2048) then sign_wrap 12 d
  else sign_wrap 32 d.

(** Options with [victoria_metrics], [is_counter] and a scale of 2. *)
Definition vm_counter_options : Options :=
  mkOptions (Some true) (Some true) (Some (ScaleInt 2)).


(* ------------------------------------------------------------------ *)
(** * Proofs *)
(* ------------------------------------------------------------------ *)

(** ** Bit lists *)

Lemma bits_of_length n v : length (bits_of n v) = n.
Proof. induction n; simpl; congruence. Qed.

Lemma bits_of_ext n v v' :
  (forall i, 0 <= i < Z.of_nat n -> Z.testbit v i = Z.testbit v' i) ->
  bits_of n v = bits_of n v'.
Proof.
  induction n as [|n IH]; intros H; simpl; [reflexivity|].
  f_equal; [apply H; lia | apply IH; intros i Hi; apply H; lia].
Qed.

Lemma bits_of_app a b v :
  bits_of (a + b) v = bits_of a (Z.shiftr v (Z.of_nat b)) ++ bits_of b v.
Proof.
  induction a as [|a IH]; simpl; [reflexivity|].
  rewrite IH. f_equal.
  rewrite Z.shiftr_spec by lia. f_equal. lia.
Qed.

Lemma bytes_bits_app l1 l2 :
  bytes_bits (l1 ++ l2) = bytes_bits l1 ++ bytes_bits l2.
Proof. unfold bytes_bits. apply flat_map_app. Qed.

Lemma bytes_bits_single b : bytes_bits [b] = bits_of 8 b.
Proof. unfold bytes_bits. cbn [flat_map]. apply app_nil_r. Qed.

Lemma bytes_bits_cons b l : bytes_bits (b :: l) = bits_of 8 b ++ bytes_bits l.
Proof. reflexivity. Qed.

Lemma bytes_bits_length l :
  length (bytes_bits l) = (8 * length l)%nat.
Proof.
  induction l as [|b l IH]; [reflexivity|].
  change (bytes_bits (b :: l)) with (bits_of 8 b ++ bytes_bits l).
  rewrite length_app, bits_of_length, IH. simpl length. lia.
Qed.

Lemma u64_testbit z i : 0 <= i < 64 -> Z.testbit (u64 z) i = Z.testbit z i.
Proof. intros. unfold u64. apply Z.mod_pow2_bits_low. lia. Qed.

Lemma u8_testbit z i : 0 <= i < 8 -> Z.testbit (u8 z) i = Z.testbit z i.
Proof. intros. unfold u8. apply Z.mod_pow2_bits_low. lia. Qed.

Lemma mask_ones n : 0 <= n < 64 -> u64 (Z.shiftl 1 n) - 1 = Z.ones n.
Proof.
  intros Hn. unfold u64. rewrite Z.shiftl_1_l, Z.ones_equiv.
  rewrite Z.mod_small; [lia|].
  split; [apply Z.pow_nonneg; lia | apply Z.pow_lt_mono_r; lia].
Qed.

(** ** BitWriter *)

Lemma flush_loop_spec fuel : forall w,
  0 <= bits_ w -> bits_ w / 8 <= Z.of_nat fuel ->
  let w' := flush_loop fuel w in
  wbits w' = wbits w /\ writer_ok w' /\ total_bits w' = total_bits w
  /\ buf_ w' = buf_ w.
Proof.
  induction fuel as [|fuel IH]; intros w H0 Hf; simpl.
  - unfold writer_ok. repeat split; try lia.
    apply Z.nle_gt; intro.
    assert (1 <= bits_ w / 8) by (apply Z.div_le_lower_bound; lia). lia.
  - destruct (8 <=? bits_ w) eqn:E.
    + apply Z.leb_le in E.
      set (w1 := mkBitWriter _ _ _).
      destruct (IH w1) as (A & B & C & D).
      * cbn [bits_ w1]. lia.
      * cbn [bits_ w1]. replace (bits_ w) with ((bits_ w - 8) + 1 * 8) in Hf by lia.
        rewrite Z.div_add in Hf by lia. lia.
      * rewrite A, C, D. split; [|split; [exact B|split; [|reflexivity]]].
        -- unfold wbits, w1; cbn [out_ buf_ bits_].
           rewrite bytes_bits_app, <- app_assoc. f_equal.
           replace (Z.to_nat (bits_ w)) with (8 + Z.to_nat (bits_ w - 8))%nat by lia.
           rewrite bits_of_app. f_equal.
           ++ rewrite bytes_bits_single.
              apply bits_of_ext. intros i Hi.
              rewrite u8_testbit by lia.
              rewrite Z.land_spec. change 255 with (Z.ones 8).
              rewrite Z.ones_spec_low by lia. rewrite andb_true_r.
              rewrite Z2Nat.id by lia. reflexivity.
        -- unfold total_bits, w1; cbn [out_ buf_ bits_].
           rewrite length_app. simpl length. lia.
    + apply Z.leb_gt in E. unfold writer_ok. repeat split; lia.
Qed.

Lemma flush_spec w :
  0 <= bits_ w ->
  wbits (flush w) = wbits w /\ writer_ok (flush w)
  /\ total_bits (flush w) = total_bits w /\ buf_ (flush w) = buf_ w.
Proof.
  intros H. unfold flush. apply flush_loop_spec; [lia|].
  rewrite Z2Nat.id; [lia|]. apply Z.div_pos; lia.
Qed.

Lemma write_small_spec w v n :
  writer_ok w -> 0 < n <= 32 ->
  wbits (write_small w v n) = wbits w ++ bits_of (Z.to_nat n) v
  /\ writer_ok (write_small w v n).
Proof.
  intros Hw Hn. unfold writer_ok in Hw. unfold write_small.
  set (w1 := mkBitWriter _ _ _).
  destruct (flush_spec w1) as (A & B & _); [unfold w1; cbn [bits_]; lia|].
  split; [|exact B]. rewrite A. unfold wbits, w1; cbn [out_ buf_ bits_].
  rewrite <- app_assoc. f_equal.
  replace (Z.to_nat (bits_ w + n)) with (Z.to_nat (bits_ w) + Z.to_nat n)%nat by lia.
  rewrite bits_of_app. rewrite mask_ones by lia. f_equal.
  - apply bits_of_ext. intros i Hi. rewrite Z2Nat.id by lia.
    rewrite Z.shiftr_spec, Z.lor_spec, Z.land_spec by lia.
    rewrite Z.ones_spec_high by lia. rewrite andb_false_r, orb_false_r.
    rewrite u64_testbit by lia. rewrite Z.shiftl_spec by lia.
    f_equal. lia.
  - apply bits_of_ext. intros i Hi.
    rewrite Z.lor_spec, Z.land_spec.
    rewrite Z.ones_spec_low by lia. rewrite andb_true_r.
    rewrite u64_testbit by lia. rewrite Z.shiftl_spec by lia.
    rewrite Z.testbit_neg_r by lia. reflexivity.
Qed.

Lemma write_small_total w v n :
  writer_ok w -> 0 < n ->
  total_bits (write_small w v n) = total_bits w + n
  /\ writer_ok (write_small w v n).
Proof.
  intros Hw Hn. unfold writer_ok in Hw. unfold write_small.
  set (w1 := mkBitWriter _ _ _).
  destruct (flush_spec w1) as (_ & B & C & _); [unfold w1; cbn [bits_]; lia|].
  split; [|exact B]. rewrite C. unfold total_bits, w1; cbn [out_ buf_ bits_]. lia.
Qed.

Lemma write_rec_32 fuel w v : write_rec fuel w v 32 = write_small w v 32.
Proof. destruct fuel; reflexivity. Qed.

Lemma write_unfold w v n :
  write w v n =
  if n <=? 0 then w
  else if 32 <? n then
    write (write w (Z.shiftr v 32) (n - 32)) (Z.land v 0xFFFFFFFF) 32
  else write_small w v n.
Proof.
  unfold write at 1.
  destruct (n <=? 0) eqn:E0.
  { destruct (Z.to_nat (n / 32)); cbn [write_rec]; rewrite E0; reflexivity. }
  destruct (32 <? n) eqn:E1.
  - pose proof (proj1 (Z.leb_gt _ _) E0) as G0.
    pose proof (proj1 (Z.ltb_lt _ _) E1) as G1.
    assert (Hq : n / 32 = (n - 32) / 32 + 1).
    { replace n with ((n - 32) + 1 * 32) at 1 by lia.
      rewrite Z.div_add by lia. reflexivity. }
    assert (0 <= (n - 32) / 32) by (apply Z.div_pos; lia).
    replace (Z.to_nat (n / 32)) with (S (Z.to_nat ((n - 32) / 32))) by lia.
    cbn [write_rec]. rewrite E0, E1.
    unfold write. rewrite !write_rec_32. reflexivity.
  - destruct (Z.to_nat (n / 32)); cbn [write_rec]; rewrite E0, E1; reflexivity.
Qed.

Lemma write_spec w v n :
  writer_ok w -> 0 <= n <= 64 ->
  wbits (write w v n) = wbits w ++ bits_of (Z.to_nat n) v
  /\ writer_ok (write w v n).
Proof.
  intros Hw Hn. rewrite write_unfold.
  destruct (n <=? 0) eqn:E0.
  { apply Z.leb_le in E0. replace n with 0 by lia. cbn [Z.to_nat bits_of].
    rewrite app_nil_r. auto. }
  apply Z.leb_gt in E0.
  destruct (32 <? n) eqn:E1.
  - apply Z.ltb_lt in E1.
    rewrite (write_unfold w).
    replace (n - 32 <=? 0) with false by (symmetry; apply Z.leb_gt; lia).
    replace (32 <? n - 32) with false by (symmetry; apply Z.ltb_ge; lia).
    destruct (write_small_spec w (Z.shiftr v 32) (n - 32) Hw) as (A & B); [lia|].
    rewrite write_unfold. cbv beta iota delta [Z.leb Z.ltb Z.compare Pos.compare Pos.compare_cont CompOpp].
    destruct (write_small_spec (write_small w (Z.shiftr v 32) (n - 32))
                (Z.land v 4294967295) 32 B) as (C & D); [lia|].
    split; [|exact D]. rewrite C, A, <- app_assoc. f_equal.
    replace (Z.to_nat n) with (Z.to_nat (n - 32) + 32)%nat by lia.
    rewrite bits_of_app. f_equal.
    apply bits_of_ext. intros i Hi.
    rewrite Z.land_spec. change 4294967295 with (Z.ones 32).
    rewrite Z.ones_spec_low by lia. apply andb_true_r.
  - apply Z.ltb_ge in E1. apply write_small_spec; [assumption | lia].
Qed.

Lemma write_rec_total fuel : forall w v n,
  writer_ok w -> n / 32 <= Z.of_nat fuel ->
  total_bits (write_rec fuel w v n) = total_bits w + Z.max 0 n
  /\ writer_ok (write_rec fuel w v n).
Proof.
  induction fuel as [|fuel IH]; intros w v n Hw Hf.
  - cbn [write_rec].
    destruct (n <=? 0) eqn:E0; [apply Z.leb_le in E0; split; [lia|assumption]|].
    apply Z.leb_gt in E0.
    destruct (32 <? n) eqn:E1.
    + apply Z.ltb_lt in E1.
      assert (1 <= n / 32) by (apply Z.div_le_lower_bound; lia). lia.
    + replace (Z.max 0 n) with n by lia. apply write_small_total; [assumption|lia].
  - cbn [write_rec].
    destruct (n <=? 0) eqn:E0; [apply Z.leb_le in E0; split; [lia|assumption]|].
    apply Z.leb_gt in E0.
    destruct (32 <? n) eqn:E1.
    + apply Z.ltb_lt in E1.
      assert (Hq : n / 32 = (n - 32) / 32 + 1).
      { replace n with ((n - 32) + 1 * 32) at 1 by lia.
        rewrite Z.div_add by lia. reflexivity. }
      destruct (IH w (Z.shiftr v 32) (n - 32) Hw) as (A & B); [lia|].
      rewrite write_rec_32.
      destruct (write_small_total (write_rec fuel w (Z.shiftr v 32) (n - 32))
                  (Z.land v 4294967295) 32 B) as (C & D); [lia|].
      split; [|exact D]. rewrite C, A. lia.
    + replace (Z.max 0 n) with n by lia. apply write_small_total; [assumption|lia].
Qed.

Lemma write_total w v n :
  writer_ok w ->
  total_bits (write w v n) = total_bits w + Z.max 0 n
  /\ writer_ok (write w v n).
Proof.
  intros Hw. unfold write. apply write_rec_total; [assumption|].
  destruct (Z.le_gt_cases 0 (n / 32)); [rewrite Z2Nat.id by assumption|]; lia.
Qed.

Lemma write_signed_spec w v n :
  writer_ok w -> 0 <= n <= 64 ->
  wbits (write_signed w v n) = wbits w ++ bits_of (Z.to_nat n) v
  /\ writer_ok (write_signed w v n).
Proof.
  intros Hw Hn. unfold write_signed.
  destruct (write_spec w
              (Z.land (u64 v)
                 (if 64 <=? n then UINT64_MAX else u64 (Z.shiftl 1 n) - 1))
              n Hw Hn) as (A & B).
  split; [|exact B]. rewrite A. f_equal.
  apply bits_of_ext. intros i Hi. rewrite Z2Nat.id in Hi by lia.
  rewrite Z.land_spec, u64_testbit by lia.
  destruct (64 <=? n) eqn:E.
  - change UINT64_MAX with (Z.ones 64).
    rewrite Z.ones_spec_low by lia. apply andb_true_r.
  - apply Z.leb_gt in E. rewrite mask_ones by lia.
    rewrite Z.ones_spec_low by lia. apply andb_true_r.
Qed.

Lemma writer_ok_new : writer_ok BitWriter_new.
Proof. unfold writer_ok, BitWriter_new; cbn [bits_]. lia. Qed.

Lemma wbits_new : wbits BitWriter_new = [].
Proof. reflexivity. Qed.

Lemma total_bits_wbits w :
  writer_ok w -> total_bits w = Z.of_nat (length (wbits w)).
Proof.
  intros Hw. unfold writer_ok in Hw. unfold total_bits, wbits.
  rewrite length_app, bytes_bits_length, bits_of_length. lia.
Qed.

Lemma run_ops_invariant ops : forall w,
  writer_ok w ->
  let w' := fold_left apply_op ops w in
  writer_ok w' /\ total_bits w' = total_bits w + ops_bits ops.
Proof.
  induction ops as [|op ops IH]; intros w Hw; cbn [fold_left].
  - split; [assumption|]. cbn [ops_bits fold_right]. lia.
  - assert (H : writer_ok (apply_op w op)
                /\ total_bits (apply_op w op) = total_bits w + op_bits op).
    { destruct op as [v n|v n|]; cbn [apply_op op_bits].
      - destruct (write_total w v n Hw); auto.
      - unfold write_signed.
        match goal with |- context [write w ?x n] =>
          destruct (write_total w x n Hw) end; auto.
      - destruct (flush_spec w) as (_ & B & C & _);
          [unfold writer_ok in Hw; lia|]. split; [exact B|lia]. }
    destruct H as (Hok & Ht).
    destruct (IH _ Hok) as (A & B). split; [exact A|]. rewrite B, Ht.
    change (ops_bits (op :: ops)) with (op_bits op + ops_bits ops). lia.
Qed.


(** ** Bit lists as numbers *)

Lemma bits_val_acc l : forall acc,
  fold_left (fun a b => 2 * a + Z.b2z b) l acc
  = acc * 2 ^ Z.of_nat (length l) + bits_val l.
Proof.
  unfold bits_val.
  induction l as [|b l IH]; intros acc; cbn [fold_left length].
  - rewrite Z.pow_0_r. lia.
  - rewrite IH, (IH (2 * 0 + Z.b2z b)).
    rewrite Nat2Z.inj_succ, Z.pow_succ_r by lia. ring.
Qed.

Lemma bits_val_cons b l :
  bits_val (b :: l) = Z.b2z b * 2 ^ Z.of_nat (length l) + bits_val l.
Proof.
  unfold bits_val at 1. cbn [fold_left]. rewrite bits_val_acc. ring.
Qed.

Lemma bits_val_bits_of n v : bits_val (bits_of n v) = v mod 2 ^ Z.of_nat n.
Proof.
  induction n as [|n IH]; cbn [bits_of].
  - rewrite Z.pow_0_r, Z.mod_1_r. reflexivity.
  - rewrite bits_val_cons, bits_of_length, IH.
    rewrite Nat2Z.inj_succ, Z.pow_succ_r by lia.
    rewrite (Z.mul_comm 2), Z.rem_mul_r by (try apply Z.pow_nonzero; lia).
    rewrite Z.testbit_spec' by lia. ring.
Qed.

Lemma bits_val_range l : 0 <= bits_val l < 2 ^ Z.of_nat (length l).
Proof.
  induction l as [|b l IH].
  - cbn. lia.
  - rewrite bits_val_cons. cbn [length].
    rewrite Nat2Z.inj_succ, Z.pow_succ_r by lia.
    destruct b; cbn [Z.b2z]; lia.
Qed.

Lemma lor_double_bit a b : Z.lor (2 * a) (Z.b2z b) = 2 * a + Z.b2z b.
Proof.
  destruct b; cbn [Z.b2z]; [|rewrite Z.lor_0_r; lia].
  apply Z.bits_inj'. intros n Hn.
  rewrite Z.lor_spec.
  destruct (Z.eq_dec n 0) as [->|Hne].
  - rewrite Z.testbit_odd_0, Z.testbit_even_0. reflexivity.
  - change (Z.testbit 1 n) with (Z.testbit (Z.ones 1) n).
    rewrite Z.ones_spec_high by lia. rewrite orb_false_r.
    replace n with (Z.succ (n - 1)) by lia.
    rewrite Z.testbit_odd_succ, Z.testbit_even_succ by lia. reflexivity.
Qed.

Lemma land_shiftr_1 x k :
  0 <= k -> Z.land (Z.shiftr x k) 1 = Z.b2z (Z.testbit x k).
Proof.
  intros Hk. change 1 with (Z.ones 1). rewrite Z.land_ones by lia.
  change (2 ^ 1) with 2. rewrite <- Z.bit0_mod.
  rewrite Z.shiftr_spec by lia. reflexivity.
Qed.

(** ** BitReader *)

Lemma nth_bits_of n v : forall i,
  (i < n)%nat ->
  nth i (bits_of n v) false = Z.testbit v (Z.of_nat n - 1 - Z.of_nat i).
Proof.
  induction n as [|n IH]; intros i Hi; [lia|].
  cbn [bits_of]. destruct i as [|i]; cbn [nth].
  - f_equal. lia.
  - rewrite IH by lia. f_equal. lia.
Qed.

Lemma nth_bytes_bits data : forall i,
  (i < 8 * length data)%nat ->
  nth i (bytes_bits data) false
  = Z.testbit (nth (i / 8) data 0) (7 - Z.of_nat (i mod 8)).
Proof.
  induction data as [|b data IH]; intros i Hi; [cbn in Hi; lia|].
  rewrite bytes_bits_cons.
  destruct (Nat.lt_ge_cases i 8) as [Hlt|Hge].
  - rewrite app_nth1 by (rewrite bits_of_length; exact Hlt).
    rewrite nth_bits_of by exact Hlt.
    rewrite Nat.div_small, Nat.mod_small by exact Hlt.
    cbn [nth]. f_equal; lia.
  - rewrite app_nth2 by (rewrite bits_of_length; exact Hge).
    rewrite bits_of_length.
    cbn [length] in Hi. rewrite IH by lia.
    replace i with ((i - 8) + 1 * 8)%nat at 3 4 by lia.
    rewrite Nat.div_add, Nat.Div0.mod_add by lia.
    replace ((i - 8) / 8 + 1)%nat with (S ((i - 8) / 8)) by lia.
    reflexivity.
Qed.

Lemma skipn_cons_nth {A} (l : list A) : forall n x t d,
  skipn n l = x :: t ->
  (n < length l)%nat /\ nth n l d = x /\ skipn (S n) l = t.
Proof.
  induction l as [|a l IH]; intros n x t d H.
  - destruct n; discriminate H.
  - destruct n as [|n].
    + cbn in H. inversion H; subst. cbn. repeat split; lia.
    + cbn [skipn] in H. destruct (IH n x t d H) as (A1 & A2 & A3).
      cbn [length nth]. repeat split; [lia|assumption|assumption].
Qed.

Lemma read_bit_spec r b l :
  reader_ok r -> rbits r = b :: l ->
  read_bit r = Some (Z.b2z b, advance r 1) /\ Reads (advance r 1) l.
Proof.
  intros (Ht & Hp) Hb. unfold rbits in Hb.
  destruct (skipn_cons_nth _ _ _ _ false Hb) as (Hlen & Hnth & Hskip).
  rewrite bytes_bits_length in Hlen.
  unfold read_bit.
  replace (total_bits_ r <=? pos_ r) with false
    by (symmetry; apply Z.leb_gt; lia).
  split.
  - f_equal. f_equal.
    rewrite land_shiftr_1 by (pose proof (Z.mod_pos_bound (pos_ r) 8); lia).
    f_equal. rewrite <- Hnth.
    rewrite nth_bytes_bits by exact Hlen.
    f_equal.
    + f_equal.
      apply Nat2Z.inj. rewrite Nat2Z.inj_div, !Z2Nat.id; try lia.
      apply Z.div_pos; lia.
    + rewrite Nat2Z.inj_mod, Z2Nat.id by lia. reflexivity.
  - split.
    + unfold reader_ok, advance; cbn [data_ total_bits_ pos_]. lia.
    + unfold rbits, advance; cbn [data_ total_bits_ pos_].
      replace (Z.to_nat (pos_ r + 1)) with (S (Z.to_nat (pos_ r))) by lia.
      exact Hskip.
Qed.

Lemma advance_advance r a b : advance (advance r a) b = advance r (a + b).
Proof. unfold advance; cbn [data_ total_bits_ pos_]. f_equal. lia. Qed.

Lemma read_loop_spec n : forall r acc l rest,
  reader_ok r -> rbits r = l ++ rest -> length l = n ->
  Z.of_nat n <= 64 -> 0 <= acc < 2 ^ (64 - Z.of_nat n) ->
  read_loop n r acc
  = Some (acc * 2 ^ Z.of_nat n + bits_val l, advance r (Z.of_nat n))
  /\ Reads (advance r (Z.of_nat n)) rest.
Proof.
  induction n as [|n IH]; intros r acc l rest Hok Hb Hl Hn Ha.
  - destruct l; [|discriminate]. cbn [read_loop].
    replace (advance r (Z.of_nat 0)) with r
      by (destruct r; unfold advance; cbn; f_equal; lia).
    split; [|split; assumption].
    f_equal. f_equal. cbn. lia.
  - destruct l as [|b l]; [discriminate|]. cbn [length] in Hl.
    cbn [read_loop]. cbn [app] in Hb.
    destruct (read_bit_spec r b (l ++ rest) Hok Hb) as (E & Hok' & Hb').
    rewrite E.
    assert (Hp : 2 ^ (64 - Z.of_nat n) = 2 * 2 ^ (64 - Z.of_nat (S n))).
    { rewrite <- Z.pow_succ_r by lia. f_equal. lia. }
    assert (Hle : 2 ^ (64 - Z.of_nat n) <= 2 ^ 64)
      by (apply Z.pow_le_mono_r; lia).
    assert (Hu : u64 (Z.shiftl acc 1) = 2 * acc).
    { unfold u64. rewrite Z.shiftl_mul_pow2 by lia. change (2 ^ 1) with 2.
      rewrite Z.mod_small; lia. }
    rewrite Hu, lor_double_bit.
    destruct (IH (advance r 1) (2 * acc + Z.b2z b) l rest Hok' Hb')
      as (E2 & HR).
    + lia.
    + lia.
    + destruct b; cbn [Z.b2z]; lia.
    + rewrite advance_advance in E2, HR.
      replace (1 + Z.of_nat n) with (Z.of_nat (S n)) in E2, HR by lia.
      split; [|exact HR]. rewrite E2. f_equal. f_equal.
      rewrite bits_val_cons. replace (length l) with n by lia.
      rewrite Nat2Z.inj_succ, Z.pow_succ_r by lia. ring.
Qed.

Lemma read_spec r n l rest :
  reader_ok r -> rbits r = l ++ rest -> Z.of_nat (length l) = n -> n <= 64 ->
  read r n = Some (bits_val l, advance r n) /\ Reads (advance r n) rest.
Proof.
  intros Hok Hb Hl Hn. unfold read.
  destruct (read_loop_spec (Z.to_nat n) r 0 l rest Hok Hb) as (E & HR);
    try lia; [split; [lia|apply Z.pow_pos_nonneg; lia] ..|].
  rewrite Z2Nat.id in E, HR by lia. split; [|exact HR].
  rewrite E. reflexivity.
Qed.

Lemma read_Reads r n v rest :
  Reads r (bits_of (Z.to_nat n) v ++ rest) -> 0 <= n <= 64 ->
  exists r', read r n = Some (v mod 2 ^ n, r') /\ Reads r' rest.
Proof.
  intros (Hok & Hb) Hn.
  destruct (read_spec r n _ rest Hok Hb) as (E & HR).
  - rewrite bits_of_length. lia.
  - lia.
  - exists (advance r n). split; [|exact HR].
    rewrite E, bits_val_bits_of, Z2Nat.id by lia. reflexivity.
Qed.

Lemma read_bit_Reads r b rest :
  Reads r (b :: rest) ->
  exists r', read_bit r = Some (Z.b2z b, r') /\ Reads r' rest.
Proof.
  intros (Hok & Hb). exists (advance r 1). apply read_bit_spec; assumption.
Qed.

Lemma skip_bits_Reads n : forall r l rest,
  Reads r (l ++ rest) -> length l = n ->
  exists r', skip_bits n r = Some r' /\ Reads r' rest.
Proof.
  induction n as [|n IH]; intros r l rest HR Hl.
  - destruct l; [|discriminate]. exists r. split; [reflexivity|exact HR].
  - destruct l as [|b l]; [discriminate|]. cbn [length] in Hl.
    cbn [skip_bits]. cbn [app] in HR.
    destruct (read_bit_Reads r b (l ++ rest) HR) as (r1 & E & HR1).
    rewrite E. apply (IH r1 l rest HR1). lia.
Qed.


(** ** Wrap-around arithmetic *)

Lemma i64_small z : in_i64 z -> i64 z = z.
Proof. unfold in_i64, i64. intros H. rewrite Z.mod_small; lia. Qed.

Lemma i64_range z : in_i64 (i64 z).
Proof.
  unfold in_i64, i64. pose proof (Z.mod_pos_bound (z + 2 ^ 63) (2 ^ 64)). lia.
Qed.

Lemma i64_add_r a b : i64 (a + i64 b) = i64 (a + b).
Proof.
  unfold i64. f_equal.
  replace (a + ((b + 2 ^ 63) mod 2 ^ 64 - 2 ^ 63) + 2 ^ 63)
    with (a + (b + 2 ^ 63) mod 2 ^ 64) by lia.
  rewrite Zplus_mod_idemp_r. f_equal. lia.
Qed.

Lemma i64_add_2_64 z : i64 (z + 2 ^ 64) = i64 z.
Proof.
  unfold i64. f_equal.
  replace (z + 2 ^ 64 + 2 ^ 63) with (z + 2 ^ 63 + 1 * 2 ^ 64) by lia.
  apply Z_mod_plus_full.
Qed.

Lemma u64_small z : in_u64 z -> u64 z = z.
Proof. unfold in_u64, u64. intros H. apply Z.mod_small. lia. Qed.

Lemma i64_u64 z : i64 (u64 z) = i64 z.
Proof.
  unfold i64, u64. f_equal. rewrite Zplus_mod_idemp_l. reflexivity.
Qed.

(** ** Signed payloads *)

Lemma testbit_high_false a n :
  0 <= a < 2 ^ n -> forall i, n <= i -> Z.testbit a i = false.
Proof.
  intros Ha i Hi.
  destruct (Z.le_gt_cases 0 n) as [Hn|Hn].
  - rewrite <- (Z.mod_small a (2 ^ n)) by lia.
    apply Z.mod_pow2_bits_high. lia.
  - rewrite Z.pow_neg_r in Ha by lia. lia.
Qed.

Lemma lor_disjoint_add a b : Z.land a b = 0 -> Z.lor a b = a + b.
Proof.
  intros H. rewrite <- Z.lxor_lor by exact H.
  symmetry. apply Z.add_nocarry_lxor. exact H.
Qed.

Lemma sign_extend_mask n :
  0 <= n < 64 ->
  u64 (Z.lnot (u64 (Z.shiftl 1 n) - 1)) = 2 ^ 64 - 2 ^ n.
Proof.
  intros Hn. rewrite mask_ones by lia.
  rewrite Z.ones_equiv. unfold Z.lnot, u64.
  replace (Z.pred (- Z.pred (2 ^ n))) with (- 2 ^ n) by lia.
  assert (0 < 2 ^ n < 2 ^ 64).
  { split; [apply Z.pow_pos_nonneg; lia | apply Z.pow_lt_mono_r; lia]. }
  replace (- 2 ^ n) with (2 ^ 64 - 2 ^ n + (-1) * 2 ^ 64) by lia.
  rewrite Z_mod_plus_full. apply Z.mod_small. lia.
Qed.

Lemma sign_bit_mask n : 1 <= n < 64 -> u64 (Z.shiftl 1 (n - 1)) = 2 ^ (n - 1).
Proof.
  intros Hn. unfold u64. rewrite Z.shiftl_1_l.
  apply Z.mod_small.
  split; [apply Z.pow_nonneg; lia | apply Z.pow_lt_mono_r; lia].
Qed.

Lemma land_pow2_zero a n :
  0 <= n -> (Z.land a (2 ^ n) =? 0) = negb (Z.testbit a n).
Proof.
  intros Hn. destruct (Z.testbit a n) eqn:E; cbn [negb].
  - apply Z.eqb_neq. intros H0.
    assert (Z.testbit (Z.land a (2 ^ n)) n = false)
      by (rewrite H0; apply Z.testbit_0_l).
    rewrite Z.land_spec, E, Z.pow2_bits_true in H by lia. discriminate.
  - apply Z.eqb_eq. apply Z.bits_inj'. intros i Hi.
    rewrite Z.land_spec, Z.testbit_0_l.
    destruct (Z.eq_dec n i) as [<-|Hne].
    + rewrite E. reflexivity.
    + rewrite (Z.pow2_bits_false n i) by lia. apply andb_false_r.
Qed.

Lemma read_signed_Reads r n d rest :
  Reads r (bits_of (Z.to_nat n) d ++ rest) ->
  1 <= n < 64 -> - 2 ^ (n - 1) <= d < 2 ^ (n - 1) ->
  exists r', read_signed r n = Some (d, r') /\ Reads r' rest.
Proof.
  intros HR Hn Hd.
  destruct (read_Reads r n d rest HR) as (r' & E & HR'); [lia|].
  exists r'. split; [|exact HR'].
  unfold read_signed. rewrite E.
  replace (64 <=? n) with false by (symmetry; apply Z.leb_gt; lia).
  rewrite sign_bit_mask, sign_extend_mask by lia.
  rewrite land_pow2_zero by lia.
  assert (Hp : 2 ^ n = 2 * 2 ^ (n - 1)).
  { rewrite <- Z.pow_succ_r by lia. f_equal. lia. }
  assert (Hp0 : 0 < 2 ^ (n - 1)) by (apply Z.pow_pos_nonneg; lia).
  assert (Hp63 : 2 ^ n <= 2 ^ 63) by (apply Z.pow_le_mono_r; lia).
  destruct (Z.le_gt_cases 0 d) as [Hpos|Hneg].
  - rewrite (Z.mod_small d) by lia.
    rewrite (testbit_high_false d (n - 1)) by lia.
    cbn [negb]. rewrite i64_small by (unfold in_i64; lia). reflexivity.
  - assert (Hm : d mod 2 ^ n = d + 2 ^ n).
    { replace d with (d + 2 ^ n + (-1) * 2 ^ n) at 1 by lia.
      rewrite Z_mod_plus_full. apply Z.mod_small. lia. }
    rewrite Hm.
    assert (Hb : Z.testbit (d + 2 ^ n) (n - 1) = true).
    { apply Z.testbit_true; [lia|].
      replace ((d + 2 ^ n) / 2 ^ (n - 1)) with 1; [reflexivity|].
      apply Z.div_unique with (r := d + 2 ^ (n - 1)); lia. }
    rewrite Hb. cbn [negb].
    rewrite lor_disjoint_add.
    + replace (d + 2 ^ n + (2 ^ 64 - 2 ^ n)) with (d + 2 ^ 64) by lia.
      rewrite i64_add_2_64, i64_small by (unfold in_i64; lia). reflexivity.
    + apply Z.bits_inj'. intros i Hi.
      rewrite Z.land_spec, Z.testbit_0_l.
      destruct (Z.lt_ge_cases i n) as [Hlt|Hge].
      * replace (2 ^ 64 - 2 ^ n) with (Z.shiftl (Z.ones (64 - n)) n).
        -- rewrite Z.shiftl_spec_low by lia. apply andb_false_r.
        -- rewrite Z.shiftl_mul_pow2, Z.ones_equiv by lia.
           replace (2 ^ 64) with (2 ^ (64 - n) * 2 ^ n)
             by (rewrite <- Z.pow_add_r by lia; f_equal; lia).
           lia.
      * rewrite (testbit_high_false (d + 2 ^ n) n) by lia. reflexivity.
Qed.


(** ** Timestamp codec *)

Lemma encode_first_delta_spec w d :
  writer_ok w ->
  wbits (encode_first_delta w d) = wbits w ++ bucket_code d
  /\ writer_ok (encode_first_delta w d).
Proof.
  intros Hw. unfold encode_first_delta, bucket_code.
  destruct (d =? 0).
  { destruct (write_spec w 0 1 Hw) as (A & B); [lia|]. split; [|exact B].
    rewrite A. reflexivity. }
  destruct ((-63 <=? d) && (d <=? 64)).
  { destruct (write_spec w 2 2 Hw) as (A & B); [lia|].
    destruct (write_signed_spec (write w 2 2) d 7 B) as (C & D); [lia|].
    split; [|exact D]. rewrite C, A, <- app_assoc. reflexivity. }
  destruct ((-255 <=? d) && (d <=? 256)).
  { destruct (write_spec w 6 3 Hw) as (A & B); [lia|].
    destruct (write_signed_spec (write w 6 3) d 9 B) as (C & D); [lia|].
    split; [|exact D]. rewrite C, A, <- app_assoc. reflexivity. }
  destruct ((-2047 <=? d) && (d <=? 2048)).
  { destruct (write_spec w 14 4 Hw) as (A & B); [lia|].
    destruct (write_signed_spec (write w 14 4) d 12 B) as (C & D); [lia|].
    split; [|exact D]. rewrite C, A, <- app_assoc. reflexivity. }
  destruct (write_spec w 15 4 Hw) as (A & B); [lia|].
  destruct (write_signed_spec (write w 15 4) d 32 B) as (C & D); [lia|].
  split; [|exact D]. rewrite C, A, <- app_assoc. reflexivity.
Qed.

Lemma encode_delta_of_delta_eq w d :
  encode_delta_of_delta w d = encode_first_delta w d.
Proof. reflexivity. Qed.

Lemma decode_delta_of_delta_eq r :
  decode_delta_of_delta r = decode_first_delta r.
Proof. reflexivity. Qed.

(** Consumes one known bit in a goal about a reader. *)
Ltac read_one HR :=
  match type of HR with
  | Reads ?r (?b :: ?l) =>
      let r' := fresh "r" in
      let E := fresh "E" in
      let HR' := fresh "HR" in
      destruct (read_bit_Reads r b l HR) as (r' & E & HR');
      rewrite E; clear E HR; cbn [Z.b2z Z.eqb]; rename HR' into HR
  end.

Lemma code_fits_range d :
  code_fits d = true ->
  - 2 ^ 31 <= d < 2 ^ 31 /\ d <> 64 /\ d <> 256 /\ d <> 2048.
Proof.
  unfold code_fits. rewrite !andb_true_iff, !negb_true_iff.
  intros ((((A & B) & C) & D) & E).
  apply Z.leb_le in A. apply Z.ltb_lt in B.
  apply Z.eqb_neq in C, D, E. auto.
Qed.

Lemma decode_first_delta_spec r d rest :
  Reads r (bucket_code d ++ rest) -> code_fits d = true ->
  exists r', decode_first_delta r = Some (d, r') /\ Reads r' rest.
Proof.
  intros HR Hf. apply code_fits_range in Hf. destruct Hf as (H32 & H7 & H9 & H12).
  unfold bucket_code in HR. unfold decode_first_delta.
  destruct (d =? 0) eqn:E0.
  { apply Z.eqb_eq in E0. subst d. cbn [app] in HR. read_one HR.
    eexists; split; [reflexivity|exact HR]. }
  destruct ((-63 <=? d) && (d <=? 64)) eqn:E1.
  { apply andb_true_iff in E1. destruct E1 as (L & U).
    apply Z.leb_le in L. apply Z.leb_le in U.
    cbn [app] in HR. read_one HR. read_one HR.
    apply (read_signed_Reads _ 7 d rest HR); lia. }
  destruct ((-255 <=? d) && (d <=? 256)) eqn:E2.
  { apply andb_true_iff in E2. destruct E2 as (L & U).
    apply Z.leb_le in L. apply Z.leb_le in U.
    cbn [app] in HR. read_one HR. read_one HR. read_one HR.
    apply (read_signed_Reads _ 9 d rest HR); lia. }
  destruct ((-2047 <=? d) && (d <=? 2048)) eqn:E3.
  { apply andb_true_iff in E3. destruct E3 as (L & U).
    apply Z.leb_le in L. apply Z.leb_le in U.
    cbn [app] in HR. read_one HR. read_one HR. read_one HR. read_one HR.
    apply (read_signed_Reads _ 12 d rest HR); lia. }
  cbn [app] in HR. read_one HR. read_one HR. read_one HR. read_one HR.
  apply (read_signed_Reads _ 32 d rest HR); lia.
Qed.

Lemma encode_timestamps_loop_spec rest : forall w prev_ts prev_delta,
  writer_ok w ->
  wbits (encode_timestamps_loop w prev_ts prev_delta rest)
  = wbits w ++ flat_map bucket_code (dod_codes prev_ts prev_delta rest)
  /\ writer_ok (encode_timestamps_loop w prev_ts prev_delta rest).
Proof.
  induction rest as [|t rest IH]; intros w prev_ts prev_delta Hw;
    cbn [encode_timestamps_loop dod_codes flat_map].
  - rewrite app_nil_r. auto.
  - rewrite encode_delta_of_delta_eq.
    destruct (encode_first_delta_spec w
                (i64 (i64 (t - prev_ts) - prev_delta)) Hw) as (A & B).
    destruct (IH _ t (i64 (t - prev_ts)) B) as (C & D).
    split; [|exact D]. rewrite C, A, <- app_assoc. reflexivity.
Qed.

(** The bits of the timestamp sub-stream. *)
Lemma encode_timestamps_spec ts :
  wbits (ts_writer (encode_timestamps ts))
  = match ts with
    | [] => []
    | t0 :: _ => bits_of 64 t0 ++ flat_map bucket_code (timestamp_codes ts)
    end
  /\ writer_ok (ts_writer (encode_timestamps ts)).
Proof.
  unfold encode_timestamps.
  destruct ts as [|t0 [|t1 rest]]; cbn [ts_writer timestamp_codes flat_map].
  - split; [reflexivity|apply writer_ok_new].
  - destruct (write_spec BitWriter_new (u64 t0) 64 writer_ok_new) as (A & B);
      [lia|].
    split; [|exact B]. rewrite A, wbits_new, app_nil_r. cbn [app].
    apply bits_of_ext. intros i Hi. apply u64_testbit. lia.
  - destruct (write_spec BitWriter_new (u64 t0) 64 writer_ok_new) as (A & B);
      [lia|].
    destruct (encode_first_delta_spec _ (i64 (t1 - t0)) B) as (C & D).
    destruct (encode_timestamps_loop_spec rest _ t1 (i64 (t1 - t0)) D)
      as (E & F).
    split; [|exact F]. rewrite E, C, A, wbits_new. cbn [app].
    rewrite <- app_assoc. f_equal.
    apply bits_of_ext. intros i Hi. apply u64_testbit. lia.
Qed.

Lemma decode_timestamps_loop_spec rest_ts :
  forall r acc prev_ts prev_delta rest,
  Reads r (flat_map bucket_code (dod_codes prev_ts prev_delta rest_ts) ++ rest) ->
  forallb code_fits (dod_codes prev_ts prev_delta rest_ts) = true ->
  last acc 0 = prev_ts ->
  Forall in_i64 rest_ts ->
  exists r',
    decode_timestamps_loop (length rest_ts) r acc prev_delta
    = Some (acc ++ rest_ts, r')
    /\ Reads r' rest.
Proof.
  induction rest_ts as [|t rest_ts IH];
    intros r acc prev_ts prev_delta rest HR Hf Hlast Hts;
    cbn [dod_codes flat_map forallb length decode_timestamps_loop] in *.
  - exists r. rewrite app_nil_r. auto.
  - apply andb_true_iff in Hf. destruct Hf as (Hf1 & Hf2).
    inversion Hts as [|? ? Ht Hts']; subst.
    rewrite <- app_assoc in HR.
    rewrite decode_delta_of_delta_eq.
    destruct (decode_first_delta_spec r _ _ HR Hf1) as (r1 & E & HR1).
    rewrite E.
    assert (Hcd : i64 (prev_delta + i64 (i64 (t - last acc 0) - prev_delta))
                  = i64 (t - last acc 0)).
    { rewrite i64_add_r.
      replace (prev_delta + (i64 (t - last acc 0) - prev_delta))
        with (0 + i64 (t - last acc 0)) by lia.
      rewrite i64_add_r. reflexivity. }
    rewrite Hcd.
    assert (Hts1 : i64 (last acc 0 + i64 (t - last acc 0)) = t).
    { rewrite i64_add_r.
      replace (last acc 0 + (t - last acc 0)) with t by lia.
      apply i64_small. exact Ht. }
    rewrite Hts1.
    destruct (IH r1 (acc ++ [t]) t (i64 (t - last acc 0)) rest HR1 Hf2)
      as (r2 & E2 & HR2).
    + apply last_last.
    + exact Hts'.
    + exists r2. rewrite E2, <- app_assoc. auto.
Qed.

Lemma decode_timestamps_spec ts r rest :
  Reads r (wbits (ts_writer (encode_timestamps ts)) ++ rest) ->
  Forall in_i64 ts ->
  forallb code_fits (timestamp_codes ts) = true ->
  exists r',
    decode_timestamps r (Z.of_nat (length ts)) = Some (ts, r')
    /\ Reads r' rest.
Proof.
  intros HR Hts Hf.
  rewrite (proj1 (encode_timestamps_spec ts)) in HR.
  unfold decode_timestamps.
  destruct ts as [|t0 ts1].
  { exists r. cbn. auto. }
  replace (Z.of_nat (length (t0 :: ts1)) =? 0) with false
    by (symmetry; apply Z.eqb_neq; cbn [length]; lia).
  rewrite <- app_assoc in HR.
  destruct (read_Reads r 64 t0 _ HR) as (r1 & E & HR1); [lia|].
  rewrite E.
  inversion Hts as [|? ? Ht0 Hts1]; subst.
  assert (H0 : i64 (t0 mod 2 ^ 64) = t0).
  { change (t0 mod 2 ^ 64) with (u64 t0). rewrite i64_u64.
    apply i64_small. exact Ht0. }
  rewrite H0.
  destruct ts1 as [|t1 rest_ts].
  { exists r1. cbn [length Z.of_nat Pos.of_succ_nat Z.eqb Pos.eqb].
    cbn [timestamp_codes flat_map app] in HR1. auto. }
  replace (Z.of_nat (length (t0 :: t1 :: rest_ts)) =? 1) with false
    by (symmetry; apply Z.eqb_neq; cbn [length]; lia).
  cbn [timestamp_codes flat_map forallb] in HR1, Hf.
  apply andb_true_iff in Hf. destruct Hf as (Hf1 & Hf2).
  rewrite <- app_assoc in HR1.
  destruct (decode_first_delta_spec r1 _ _ HR1 Hf1) as (r2 & E2 & HR2).
  rewrite E2.
  inversion Hts1 as [|? ? Ht1 Hts2]; subst.
  assert (H1 : i64 (t0 + i64 (t1 - t0)) = t1).
  { rewrite i64_add_r. replace (t0 + (t1 - t0)) with t1 by lia.
    apply i64_small. exact Ht1. }
  rewrite H1.
  replace (Z.to_nat (Z.of_nat (length (t0 :: t1 :: rest_ts)) - 2))
    with (length rest_ts) by (cbn [length]; lia).
  destruct (decode_timestamps_loop_spec rest_ts r2 [t0; t1] t1
              (i64 (t1 - t0)) rest HR2 Hf2 eq_refl Hts2)
    as (r3 & E3 & HR3).
  exists r3. rewrite E3. auto.
Qed.


(** ** Value codec *)

Lemma count_leading_zeros_64_nonneg v : 0 <= count_leading_zeros_64 v.
Proof.
  unfold count_leading_zeros_64.
  repeat match goal with
         | |- context [if ?c then _ else _] => destruct c
         end; lia.
Qed.

Lemma count_trailing_zeros_64_nonneg v : 0 <= count_trailing_zeros_64 v.
Proof.
  unfold count_trailing_zeros_64.
  repeat match goal with
         | |- context [if ?c then _ else _] => destruct c
         end; lia.
Qed.

(** With the window at (0, 0) the reuse test holds for every nonzero XOR. *)
Lemma xor_branch_window0 st curr :
  xs_prev_leading st = 0 -> xs_prev_trailing st = 0 ->
  xor_branch st curr
  = if Z.lxor curr (xs_prev_bits st) =? 0 then Identical else ReuseWindow.
Proof.
  intros Hl Ht. unfold xor_branch. rewrite Hl, Ht.
  destruct (Z.lxor curr (xs_prev_bits st) =? 0); [reflexivity|].
  pose proof (count_leading_zeros_64_nonneg (Z.lxor curr (xs_prev_bits st))).
  pose proof (count_trailing_zeros_64_nonneg (Z.lxor curr (xs_prev_bits st))).
  replace (0 <=? count_leading_zeros_64 _) with true
    by (symmetry; apply Z.leb_le; assumption).
  replace (0 <=? count_trailing_zeros_64 _) with true
    by (symmetry; apply Z.leb_le; assumption).
  reflexivity.
Qed.

Lemma encode_value_step_spec st v :
  writer_ok (xs_writer st) ->
  xs_prev_leading st = 0 -> xs_prev_trailing st = 0 ->
  let st' := encode_value_step st v in
  wbits (xs_writer st')
  = wbits (xs_writer st) ++ xor_code (xs_prev_bits st) v
  /\ writer_ok (xs_writer st')
  /\ xs_prev_bits st' = v
  /\ xs_prev_leading st' = 0 /\ xs_prev_trailing st' = 0.
Proof.
  intros Hw Hl Ht. unfold encode_value_step, xor_code, float_to_bits.
  rewrite xor_branch_window0 by assumption.
  destruct (Z.lxor v (xs_prev_bits st) =? 0);
    cbn [xs_writer xs_prev_bits xs_prev_leading xs_prev_trailing].
  - destruct (write_spec (xs_writer st) 0 1 Hw) as (A & B); [lia|].
    rewrite A. intuition.
  - rewrite Hl, Ht.
    destruct (write_spec (xs_writer st) 2 2 Hw) as (A & B); [lia|].
    match goal with |- context [write (write _ 2 2) ?x ?n] =>
      destruct (write_spec (write (xs_writer st) 2 2) x n B) as (C & D);
        [lia|]
    end.
    rewrite C, A, <- app_assoc.
    split; [|intuition]. f_equal. f_equal.
    apply bits_of_ext. intros i Hi.
    rewrite Z.land_spec, Z.shiftr_0_r.
    change (bitmask (64 - 0 - 0)) with (Z.ones 64).
    rewrite Z.ones_spec_low by lia. apply andb_true_r.
Qed.

Lemma xor_init_spec v0 :
  wbits (xs_writer (xor_init v0)) = bits_of 64 v0
  /\ writer_ok (xs_writer (xor_init v0))
  /\ xs_prev_bits (xor_init v0) = v0
  /\ xs_prev_leading (xor_init v0) = 0
  /\ xs_prev_trailing (xor_init v0) = 0.
Proof.
  unfold xor_init, float_to_bits.
  cbn [xs_writer xs_prev_bits xs_prev_leading xs_prev_trailing].
  destruct (write_spec BitWriter_new v0 64 writer_ok_new) as (A & B); [lia|].
  rewrite A, wbits_new. intuition.
Qed.

Lemma encode_values_fold_spec rest : forall st,
  writer_ok (xs_writer st) ->
  xs_prev_leading st = 0 -> xs_prev_trailing st = 0 ->
  let st' := fold_left encode_value_step rest st in
  wbits (xs_writer st')
  = wbits (xs_writer st) ++ xor_codes (xs_prev_bits st) rest
  /\ writer_ok (xs_writer st').
Proof.
  induction rest as [|v rest IH]; intros st Hw Hl Ht;
    cbn [fold_left xor_codes].
  - rewrite app_nil_r. auto.
  - destruct (encode_value_step_spec st v Hw Hl Ht) as (A & B & C & D & E).
    destruct (IH _ B D E) as (F & G).
    split; [|exact G]. rewrite F, A, C, <- app_assoc. reflexivity.
Qed.

(** The bits of the value sub-stream. *)
Lemma encode_values_spec vs :
  wbits (val_writer (encode_values vs))
  = match vs with
    | [] => []
    | v0 :: rest => bits_of 64 v0 ++ xor_codes v0 rest
    end
  /\ writer_ok (val_writer (encode_values vs)).
Proof.
  unfold encode_values. destruct vs as [|v0 rest]; cbn [val_writer].
  - split; [reflexivity|apply writer_ok_new].
  - destruct (xor_init_spec v0) as (A & B & C & D & E).
    destruct (encode_values_fold_spec rest _ B D E) as (F & G).
    split; [|exact G]. rewrite F, A, C. reflexivity.
Qed.

Lemma u64_fixpoint x :
  0 <= x -> (forall i, 64 <= i -> Z.testbit x i = false) -> in_u64 x.
Proof.
  intros H0 Hb. unfold in_u64. split; [exact H0|].
  assert (E : x mod 2 ^ 64 = x).
  { apply Z.bits_inj'. intros i Hi.
    destruct (Z.lt_ge_cases i 64).
    - apply Z.mod_pow2_bits_low. lia.
    - rewrite Z.mod_pow2_bits_high by lia. symmetry. apply Hb. lia. }
  rewrite <- E. apply Z.mod_pos_bound. lia.
Qed.

Lemma lxor_in_u64 a b : in_u64 a -> in_u64 b -> in_u64 (Z.lxor a b).
Proof.
  intros Ha Hb. apply u64_fixpoint.
  - apply Z.lxor_nonneg. unfold in_u64 in *. lia.
  - intros i Hi. rewrite Z.lxor_spec.
    rewrite (testbit_high_false a 64), (testbit_high_false b 64);
      unfold in_u64 in *; try lia. reflexivity.
Qed.

Lemma decode_values_loop_spec vs : forall r acc prev rest,
  Reads r (xor_codes prev vs ++ rest) ->
  in_u64 prev -> Forall in_u64 vs ->
  exists r',
    decode_values_loop (length vs) r acc prev 0 0 = Some (acc ++ vs, r')
    /\ Reads r' rest.
Proof.
  induction vs as [|v vs IH]; intros r acc prev rest HR Hp Hvs;
    cbn [xor_codes length decode_values_loop] in *.
  - exists r. rewrite app_nil_r. auto.
  - inversion Hvs as [|? ? Hv Hvs']; subst.
    rewrite <- app_assoc in HR. unfold xor_code in HR.
    unfold bits_to_float.
    destruct (Z.lxor v prev =? 0) eqn:E0.
    + apply Z.eqb_eq in E0. apply Z.lxor_eq in E0. subst v.
      cbn [app] in HR. read_one HR.
      destruct (IH r0 (acc ++ [prev]) prev rest HR Hp Hvs')
        as (r2 & E2 & HR2).
      exists r2. rewrite E2, <- app_assoc. auto.
    + cbn [app] in HR. read_one HR. read_one HR.
      destruct (read_Reads r1 64 (Z.lxor v prev) _ HR) as (r2 & E2 & HR2);
        [lia|].
      change (64 - 0 - 0) with 64. rewrite E2.
      assert (Hx : in_u64 (Z.lxor v prev)) by (apply lxor_in_u64; assumption).
      rewrite Z.shiftl_0_r.
      change (Z.lxor v prev mod 2 ^ 64) with (u64 (Z.lxor v prev)).
      rewrite !u64_small by (try rewrite u64_small; assumption).
      assert (Hn : Z.lxor prev (Z.lxor v prev) = v).
      { rewrite (Z.lxor_comm v prev), <- Z.lxor_assoc, Z.lxor_nilpotent.
        apply Z.lxor_0_l. }
      rewrite Hn.
      destruct (IH r2 (acc ++ [v]) v rest HR2 Hv Hvs') as (r3 & E3 & HR3).
      exists r3. rewrite E3, <- app_assoc. auto.
Qed.

Lemma decode_values_spec vs r rest :
  Reads r (wbits (val_writer (encode_values vs)) ++ rest) ->
  Forall in_u64 vs ->
  exists r',
    decode_values r (Z.of_nat (length vs)) = Some (vs, r') /\ Reads r' rest.
Proof.
  intros HR Hvs.
  rewrite (proj1 (encode_values_spec vs)) in HR.
  unfold decode_values, bits_to_float.
  destruct vs as [|v0 vs1].
  { exists r. cbn. auto. }
  replace (Z.of_nat (length (v0 :: vs1)) =? 0) with false
    by (symmetry; apply Z.eqb_neq; cbn [length]; lia).
  rewrite <- app_assoc in HR.
  destruct (read_Reads r 64 v0 _ HR) as (r1 & E & HR1); [lia|].
  rewrite E.
  inversion Hvs as [|? ? Hv0 Hvs1]; subst.
  change (v0 mod 2 ^ 64) with (u64 v0). rewrite u64_small by exact Hv0.
  destruct (decode_values_loop_spec vs1 r1 [v0] v0 rest HR1 Hv0 Hvs1)
    as (r2 & E2 & HR2).
  destruct vs1 as [|v1 vs2].
  { exists r1. cbn [length Z.of_nat Pos.of_succ_nat Z.eqb Pos.eqb].
    cbn [xor_codes app] in HR1. auto. }
  replace (Z.of_nat (length (v0 :: v1 :: vs2)) =? 1) with false
    by (symmetry; apply Z.eqb_neq; cbn [length]; lia).
  replace (Z.to_nat (Z.of_nat (length (v0 :: v1 :: vs2)) - 1))
    with (length (v1 :: vs2)) by (cbn [length]; lia).
  exists r2. rewrite E2. auto.
Qed.


(** ** Byte vectors of writers *)

Lemma bits_of_zero n : bits_of n 0 = repeat false n.
Proof.
  induction n as [|n IH]; cbn [bits_of repeat]; [reflexivity|].
  rewrite Z.testbit_0_l, IH. reflexivity.
Qed.

(** A writer whose bit count is a multiple of 8 has nothing pending. *)
Lemma to_bytes_aligned w :
  writer_ok w -> total_bits w mod 8 = 0 ->
  fst (to_bytes w) = out_ w
  /\ bytes_bits (fst (to_bytes w)) = wbits w
  /\ Z.of_nat (length (fst (to_bytes w))) * 8 = total_bits w.
Proof.
  intros Hw Hm. unfold writer_ok in Hw. unfold total_bits in *.
  assert (Hb : bits_ w = 0).
  { rewrite Z.add_comm, Z.mod_add in Hm by lia.
    rewrite Z.mod_small in Hm; lia. }
  unfold to_bytes, to_bytes_padded, wbits. cbn [fst].
  rewrite Hb. cbn [Z.ltb Z.compare Z.to_nat bits_of].
  rewrite app_nil_r. repeat split. lia.
Qed.

Lemma write_bytes_spec l : forall p,
  writer_ok p ->
  wbits (fold_left (fun p b => write p b 8) l p) = wbits p ++ bytes_bits l
  /\ writer_ok (fold_left (fun p b => write p b 8) l p).
Proof.
  induction l as [|b l IH]; intros p Hp; cbn [fold_left].
  - rewrite app_nil_r. auto.
  - destruct (write_spec p b 8 Hp) as (A & B); [lia|].
    destruct (IH _ B) as (C & D). split; [|exact D].
    rewrite C, A, bytes_bits_cons, <- app_assoc. reflexivity.
Qed.

Lemma fold_seq_nth {A} (f : A -> Z -> A) l : forall pre more a,
  fold_left (fun a i => f a (nth i (pre ++ l ++ more) 0))
    (seq (length pre) (length l)) a
  = fold_left f l a.
Proof.
  induction l as [|x l IH]; intros pre more a; cbn [length seq fold_left].
  - reflexivity.
  - change ((x :: l) ++ more) with (x :: (l ++ more)).
    rewrite nth_middle.
    replace (pre ++ x :: l ++ more) with ((pre ++ [x]) ++ l ++ more)
      by (rewrite <- app_assoc; reflexivity).
    replace (S (length pre)) with (length (pre ++ [x]))
      by (rewrite length_app; cbn [length]; lia).
    apply IH.
Qed.

(** [append_bits] copies exactly the bits of the writer it is given. *)
Lemma append_bits_spec p w :
  writer_ok p -> writer_ok w ->
  wbits (append_bits p (fst (to_bytes w)) (total_bits w)) = wbits p ++ wbits w
  /\ writer_ok (append_bits p (fst (to_bytes w)) (total_bits w)).
Proof.
  intros Hp Hw. unfold writer_ok in Hw.
  unfold append_bits, to_bytes, to_bytes_padded, total_bits. cbn [fst].
  set (n := length (out_ w)).
  assert (Hdiv : (Z.of_nat n * 8 + bits_ w) / 8 = Z.of_nat n).
  { rewrite Z.add_comm, Z.div_add by lia.
    rewrite Z.div_small by lia. lia. }
  assert (Hmod : (Z.of_nat n * 8 + bits_ w) mod 8 = bits_ w).
  { rewrite Z.add_comm, Z.mod_add by lia. apply Z.mod_small. lia. }
  destruct (0 <? Z.of_nat n * 8 + bits_ w) eqn:E0.
  - rewrite Hdiv, Hmod, Nat2Z.id.
    assert (Hcopy : forall more,
      fold_left (fun p0 i => write p0 (nth i (out_ w ++ more) 0) 8)
        (seq 0 n) p
      = fold_left (fun p0 b => write p0 b 8) (out_ w) p).
    { intros more. apply (fold_seq_nth (fun p0 b => write p0 b 8)
                            (out_ w) [] more p). }
    destruct (write_bytes_spec (out_ w) p Hp) as (A & B).
    destruct (0 <? bits_ w) eqn:E1.
    + apply Z.ltb_lt in E1. rewrite Hcopy.
      replace (nth n (out_ w ++ _) 0)
        with (u8 (u64 (Z.shiftl (buf_ w) (8 - bits_ w))))
        by (unfold n; rewrite nth_middle; reflexivity).
      match goal with |- context [write _ ?x (bits_ w)] =>
        destruct (write_spec (fold_left (fun p0 b => write p0 b 8) (out_ w) p)
                    x (bits_ w) B) as (C & D); [lia|]
      end.
      split; [|exact D]. rewrite C, A. unfold wbits at 3.
      rewrite <- app_assoc. f_equal. f_equal.
      apply bits_of_ext. intros i Hi.
      rewrite Z.shiftr_spec by lia.
      rewrite u8_testbit, u64_testbit by lia.
      rewrite Z.shiftl_spec by lia. f_equal. lia.
    + apply Z.ltb_ge in E1.
      pose proof (Hcopy []) as Hcopy0. rewrite app_nil_r in Hcopy0.
      rewrite Hcopy0. split; [|exact B]. rewrite A. unfold wbits at 3.
      replace (bits_ w) with 0 by lia. cbn [Z.to_nat bits_of].
      rewrite app_nil_r. reflexivity.
  - apply Z.ltb_ge in E0.
    assert (n = 0%nat) by lia. assert (bits_ w = 0) by lia.
    split; [|exact Hp]. unfold wbits at 3.
    destruct (out_ w); [|discriminate].
    replace (bits_ w) with 0 by lia. cbn [Z.to_nat bits_of bytes_bits flat_map app].
    rewrite app_nil_r. reflexivity.
Qed.

(** The packed block: header bytes, the two sub-streams, zero padding. *)
Lemma pack_payload_spec inner ts_w val_w :
  writer_ok ts_w -> writer_ok val_w ->
  let packed := pack_payload inner ts_w val_w in
  exists pad,
    wbits packed
    = bytes_bits inner ++ wbits ts_w ++ wbits val_w ++ repeat false pad
    /\ (pad < 8)%nat
    /\ writer_ok packed
    /\ total_bits packed mod 8 = 0.
Proof.
  intros Hts Hval. unfold pack_payload.
  destruct (write_bytes_spec inner BitWriter_new writer_ok_new) as (A & B).
  rewrite wbits_new in A. cbn [app] in A.
  destruct (append_bits_spec _ ts_w B Hts) as (C & D).
  destruct (append_bits_spec _ val_w D Hval) as (E & F).
  set (p := append_bits _ _ (total_bits val_w)) in *.
  assert (Hbits : wbits p = bytes_bits inner ++ wbits ts_w ++ wbits val_w).
  { rewrite E, C, A, <- app_assoc. reflexivity. }
  pose proof (Z.mod_pos_bound (total_bits p) 8 ltac:(lia)) as Hm.
  remember ((8 - total_bits p mod 8) mod 8) as pad_bits eqn:Hpb.
  assert (Hcases : (total_bits p mod 8 = 0 /\ pad_bits = 0)
                   \/ (total_bits p mod 8 <> 0
                       /\ pad_bits = 8 - total_bits p mod 8)).
  { destruct (Z.eq_dec (total_bits p mod 8) 0) as [Hz|Hnz];
      [left|right]; (split; [assumption|]); subst pad_bits.
    - rewrite Hz. reflexivity.
    - apply Z.mod_small. lia. }
  clear Hpb. exists (Z.to_nat pad_bits).
  destruct Hcases as [(Hz & ->)|(Hnz & Hpad)].
  - cbn [Z.ltb Z.compare Z.to_nat repeat]. rewrite Hbits, !app_nil_r.
    split; [reflexivity|split; [lia|split; [exact F|exact Hz]]].
  - replace (0 <? pad_bits) with true by (symmetry; apply Z.ltb_lt; lia).
    destruct (write_spec p 0 pad_bits F) as (G & H); [lia|].
    destruct (write_total p 0 pad_bits F) as (I & _).
    rewrite G, Hbits, bits_of_zero, <- !app_assoc.
    split; [reflexivity|split; [lia|split; [exact H|]]].
    rewrite I. replace (Z.max 0 pad_bits) with pad_bits by lia.
    rewrite Hpad, <- Zplus_mod_idemp_l.
    replace (total_bits p mod 8 + (8 - total_bits p mod 8)) with 8 by lia.
    reflexivity.
Qed.


(** ** Headers *)


Lemma Holds_new : Holds BitWriter_new [].
Proof. split; [apply writer_ok_new | apply wbits_new]. Qed.

Lemma Holds_write w l v n :
  Holds w l -> 0 <= n <= 64 ->
  Holds (write w v n) (l ++ bits_of (Z.to_nat n) v).
Proof.
  intros (Hw & Hl) Hn. destruct (write_spec w v n Hw Hn) as (A & B).
  split; [exact B|]. rewrite A, Hl. reflexivity.
Qed.

Lemma Holds_write_signed w l v n :
  Holds w l -> 0 <= n <= 64 ->
  Holds (write_signed w v n) (l ++ bits_of (Z.to_nat n) v).
Proof.
  intros (Hw & Hl) Hn. destruct (write_signed_spec w v n Hw Hn) as (A & B).
  split; [exact B|]. rewrite A, Hl. reflexivity.
Qed.

(** The [Holds] fact of a writer built by a chain of writes. *)
Ltac holds_of w :=
  lazymatch w with
  | BitWriter_new => constr:(Holds_new)
  | write ?w' ?v ?n =>
      let H := holds_of w' in
      constr:(Holds_write w' _ v n H ltac:(lia))
  | write_signed ?w' ?v ?n =>
      let H := holds_of w' in
      constr:(Holds_write_signed w' _ v n H ltac:(lia))
  end.

Ltac holds :=
  lazymatch goal with
  | |- Holds ?w _ =>
      let H := holds_of w in
      let H' := fresh in
      pose proof H as H';
      cbn [Z.to_nat Pos.to_nat Pos.iter_op Nat.add] in H';
      rewrite <- ?app_assoc in H'; cbn [app] in H';
      exact H'
  end.

Lemma Holds_to_bytes w l :
  Holds w l -> Z.of_nat (length l) mod 8 = 0 ->
  bytes_bits (fst (to_bytes w)) = l
  /\ Z.of_nat (length (fst (to_bytes w))) * 8 = Z.of_nat (length l).
Proof.
  intros (Hw & Hl) Hm.
  assert (Ht : total_bits w = Z.of_nat (length l))
    by (rewrite total_bits_wbits, Hl by assumption; reflexivity).
  destruct (to_bytes_aligned w Hw) as (_ & A & B); [rewrite Ht; exact Hm|].
  rewrite A, B, Hl, Ht. auto.
Qed.

Lemma bits_of_u64 v : bits_of 64 (u64 v) = bits_of 64 v.
Proof. apply bits_of_ext. intros i Hi. apply u64_testbit. lia. Qed.


Lemma inner_header_bits_length c ft fv fd tl vl :
  length (inner_header_bits c ft fv fd tl vl) = 256%nat.
Proof.
  unfold inner_header_bits. rewrite !length_app, !bits_of_length. reflexivity.
Qed.

Lemma build_inner_header_spec c ft fv fd tl vl :
  bytes_bits (build_inner_header c ft fv fd tl vl)
  = inner_header_bits c ft fv fd tl vl
  /\ length (build_inner_header c ft fv fd tl vl) = 32%nat.
Proof.
  unfold build_inner_header. cbv zeta.
  match goal with |- context [to_bytes ?w] =>
    assert (H : Holds w (inner_header_bits c ft fv fd tl vl))
  end.
  { unfold inner_header_bits. rewrite <- bits_of_u64 with (v := ft). holds. }
  destruct (Holds_to_bytes _ _ H) as (A & B).
  - rewrite inner_header_bits_length. reflexivity.
  - rewrite inner_header_bits_length in B. split; [exact A|lia].
Qed.


Lemma outer_header_bits_length c cs crc ft fd fv tl vl tb cr ct fl sc v2 :
  length (outer_header_bits c cs crc ft fd fv tl vl tb cr ct fl sc v2)
  = if v2 then 672%nat else 640%nat.
Proof.
  unfold outer_header_bits. rewrite !length_app, !bits_of_length.
  destruct v2; [rewrite bits_of_length|]; reflexivity.
Qed.

Lemma build_outer_header_spec c cs crc ft fd fv tl vl tb cr ct fl sc v2 :
  bytes_bits (build_outer_header c cs crc ft fd fv tl vl tb cr ct fl sc v2)
  = outer_header_bits c cs crc ft fd fv tl vl tb cr ct fl sc v2
  /\ length (build_outer_header c cs crc ft fd fv tl vl tb cr ct fl sc v2)
     = if v2 then 84%nat else 80%nat.
Proof.
  unfold build_outer_header, float_to_bits. cbv zeta.
  match goal with |- context [to_bytes ?w] =>
    assert (H : Holds w
                  (outer_header_bits c cs crc ft fd fv tl vl tb cr ct fl sc v2))
  end.
  { unfold outer_header_bits.
    rewrite <- bits_of_u64 with (v := ft).
    rewrite <- bits_of_u64 with (v := ct).
    destruct v2; [|rewrite app_nil_r]; holds. }
  destruct (Holds_to_bytes _ _ H) as (A & B).
  - rewrite outer_header_bits_length. destruct v2; reflexivity.
  - rewrite outer_header_bits_length in B. split; [exact A|].
    destruct v2; lia.
Qed.


(** ** Decoding what the encoder built *)

Lemma read_signed_any r n v rest :
  Reads r (bits_of (Z.to_nat n) v ++ rest) -> 0 <= n <= 64 ->
  exists x r', read_signed r n = Some (x, r') /\ Reads r' rest.
Proof.
  intros HR Hn. destruct (read_Reads r n v rest HR Hn) as (r' & E & HR').
  unfold read_signed. rewrite E.
  destruct (64 <=? n); eexists; exists r'; split; try reflexivity; exact HR'.
Qed.

Lemma Reads_start data l :
  bytes_bits data = l ->
  Reads (mkBitReader data (Z.of_nat (length data) * 8) 0) l.
Proof.
  intros H. split.
  - unfold reader_ok; cbn [data_ total_bits_ pos_]. lia.
  - unfold rbits; cbn [data_ pos_ Z.to_nat skipn]. exact H.
Qed.

(** Consumes the next header field in a goal about a reader. *)
Ltac read_field HR :=
  lazymatch type of HR with
  | Reads ?r (bits_of _ ?v ++ ?rest) =>
      lazymatch goal with
      | |- context [read r ?n] =>
          let r' := fresh "r" in
          let E := fresh "E" in
          let HR' := fresh "HR" in
          destruct (read_Reads r n v rest HR ltac:(lia)) as (r' & E & HR');
          rewrite E; clear E HR; rename HR' into HR;
          cbv beta iota zeta delta [lift_reader]
      | |- context [read_signed r ?n] =>
          let x := fresh "x" in
          let r' := fresh "r" in
          let E := fresh "E" in
          let HR' := fresh "HR" in
          destruct (read_signed_any r n v rest HR ltac:(lia))
            as (x & r' & E & HR');
          rewrite E; clear E HR; rename HR' into HR;
          cbv beta iota zeta delta [lift_reader]
      end
  end.

Lemma u32_small z : 0 <= z < 2 ^ 32 -> u32 z = z.
Proof. intros. unfold u32. apply Z.mod_small. assumption. Qed.

Lemma u32_mod z : 0 <= z < 2 ^ 32 -> u32 (z mod 2 ^ 32) = z.
Proof. intros. rewrite Z.mod_small by assumption. apply u32_small. assumption. Qed.

Section Decode.

Variables fp_add fp_div_pow10 : Z -> Z -> Z.

Local Abbreviation decode := (nif_gorilla_decode fp_add fp_div_pow10).
Local Abbreviation decode_body := (decode_packed fp_add fp_div_pow10).

(** Decoding a buffer that starts with a header built by
    [build_outer_header] reaches the packed block with the header's
    count, flags and scale. *)
Lemma decode_built_header c crc ft fd fv tl vl tb cr ct fl sc v2 packed :
  0 <= c < 2 ^ 32 -> Z.of_nat (length packed) < 2 ^ 32 ->
  0 <= fl < 2 ^ 32 -> 0 <= sc < 2 ^ 32 ->
  decode
    (build_outer_header c (Z.of_nat (length packed)) crc ft fd fv tl vl tb
       cr ct fl sc v2 ++ packed)
  = decode_body packed (Z.of_nat (length packed)) c fl
      (if v2 then sc else 0).
Proof.
  intros Hc Hcs Hfl Hsc.
  set (cs := Z.of_nat (length packed)) in *.
  assert (Hcs' : 0 <= cs < 2 ^ 32) by (unfold cs in *; lia).
  destruct (build_outer_header_spec c cs crc ft fd fv tl vl tb cr ct fl sc v2)
    as (Hbits & Hlen).
  set (hdr := build_outer_header c cs crc ft fd fv tl vl tb cr ct fl sc v2)
    in *.
  unfold nif_gorilla_decode.
  assert (Hl : Z.of_nat (length (hdr ++ packed))
               = (if v2 then 84 else 80) + cs).
  { rewrite length_app, Hlen. unfold cs. destruct v2; lia. }
  replace (length (hdr ++ packed) =? 0)%nat with false
    by (symmetry; apply Nat.eqb_neq; destruct v2; lia).
  rewrite Hl.
  replace ((if v2 then 84 else 80) + cs <? 80) with false
    by (symmetry; apply Z.ltb_ge; destruct v2; lia).
  assert (HR : Reads (mkBitReader (hdr ++ packed)
                        (((if v2 then 84 else 80) + cs) * 8) 0)
                 (outer_header_bits c cs crc ft fd fv tl vl tb cr ct fl sc v2
                  ++ bytes_bits packed)).
  { rewrite <- Hl. apply Reads_start. rewrite bytes_bits_app, Hbits.
    reflexivity. }
  unfold outer_header_bits in HR. rewrite <- !app_assoc in HR.
  read_field HR.
  change (GORILLA_MAGIC mod 2 ^ 64) with GORILLA_MAGIC.
  rewrite Z.eqb_refl. cbv beta iota delta [negb].
  read_field HR.
  change (GORILLA_VERSION <? GORILLA_VERSION mod 2 ^ 16) with false.
  cbv beta iota.
  read_field HR.
  assert (Hskip : skipn (if v2 then 84 else 80)%nat (hdr ++ packed) = packed).
  { rewrite skipn_app, <- Hlen, skipn_all, Nat.sub_diag. reflexivity. }
  destruct v2.
  - change (84 mod 2 ^ 16) with 84. cbv beta iota delta [negb andb Z.eqb Pos.eqb].
    replace (84 + cs <? 84) with false by (symmetry; apply Z.ltb_ge; lia).
    do 13 read_field HR. cbv beta iota in HR. read_field HR.
    rewrite (u32_mod c), (u32_mod cs), (u32_mod fl), (u32_mod sc)
      by assumption.
    change (Z.to_nat 84) with 84%nat. rewrite Hskip.
    replace (84 + cs <? 84 + cs) with false by (symmetry; apply Z.ltb_ge; lia).
    match goal with |- (if ?b then _ else _) = _ => destruct b end;
      reflexivity.
  - change (80 mod 2 ^ 16) with 80. cbv beta iota delta [negb andb Z.eqb Pos.eqb].
    replace (80 + cs <? 80) with false by (symmetry; apply Z.ltb_ge; lia).
    do 13 read_field HR.
    rewrite (u32_mod c), (u32_mod cs), (u32_mod fl) by assumption.
    change (Z.to_nat 80) with 80%nat. rewrite Hskip.
    replace (80 + cs <? 80 + cs) with false by (symmetry; apply Z.ltb_ge; lia).
    match goal with |- (if ?b then _ else _) = _ => destruct b end;
      reflexivity.
Qed.

End Decode.


(** ** Sizes of the sub-streams *)

Lemma flat_map_length_ge {A B} (f : A -> list B) l :
  (forall x, (1 <= length (f x))%nat) ->
  (length l <= length (flat_map f l))%nat.
Proof.
  intros Hf. induction l as [|x l IH]; cbn [flat_map length]; [lia|].
  rewrite length_app. specialize (Hf x). lia.
Qed.

Lemma bucket_code_length_ge d : (1 <= length (bucket_code d))%nat.
Proof.
  unfold bucket_code.
  repeat match goal with
         | |- context [if ?c then _ else _] => destruct c
         end; cbn [length app]; lia.
Qed.

Lemma dod_codes_length rest : forall prev_ts prev_delta,
  length (dod_codes prev_ts prev_delta rest) = length rest.
Proof.
  induction rest as [|t rest IH]; intros; cbn [dod_codes length];
    [reflexivity|]. rewrite IH. reflexivity.
Qed.

Lemma encode_timestamps_count ts :
  Z.of_nat (length ts) <= total_bits (ts_writer (encode_timestamps ts)).
Proof.
  destruct (encode_timestamps_spec ts) as (A & B).
  rewrite total_bits_wbits, A by exact B.
  destruct ts as [|t0 [|t1 rest]].
  - cbn. lia.
  - rewrite length_app, bits_of_length. cbn [length]. lia.
  - rewrite length_app, bits_of_length.
    pose proof (flat_map_length_ge bucket_code
                  (timestamp_codes (t0 :: t1 :: rest))
                  bucket_code_length_ge) as H.
    cbn [timestamp_codes length] in H. rewrite dod_codes_length in H.
    cbn [length timestamp_codes]. lia.
Qed.

Section RoundTrip.

Variables fp_sub fp_add fp_scale_round fp_div_pow10 fp_ratio : Z -> Z -> Z.
Variable decimal_places : Z -> Z.

Local Abbreviation encode :=
  (nif_gorilla_encode fp_sub fp_scale_round fp_ratio decimal_places).
Local Abbreviation decode := (nif_gorilla_decode fp_add fp_div_pow10).
Local Abbreviation decode_body := (decode_packed fp_add fp_div_pow10).

(** The packed block of a series decodes to the series when no
    postprocessing flag is set. *)
Lemma decode_packed_spec ts vs c ft fv fd vl :
  let ts_w := ts_writer (encode_timestamps ts) in
  let val_w := val_writer (encode_values vs) in
  let inner :=
    build_inner_header c ft fv fd (u32 (total_bits ts_w)) vl in
  let packed := fst (to_bytes (pack_payload inner ts_w val_w)) in
  ts <> [] -> length ts = length vs ->
  Forall in_i64 ts -> Forall in_u64 vs ->
  forallb code_fits (timestamp_codes ts) = true ->
  total_bits ts_w < 2 ^ 32 ->
  decode_body packed (Z.of_nat (length packed)) (Z.of_nat (length ts)) 0 0
  = Ok (combine ts vs)
  /\ Z.of_nat (length packed) * 8
     = 256 + total_bits ts_w + total_bits val_w
       + (8 - (total_bits ts_w + total_bits val_w) mod 8) mod 8.
Proof.
  intros ts_w val_w inner packed Hne Hlen Hts Hvs Hfit Hsz.
  destruct (encode_timestamps_spec ts) as (_ & Hts_ok).
  destruct (encode_values_spec vs) as (_ & Hval_ok).
  fold ts_w in Hts_ok. fold val_w in Hval_ok.
  destruct (build_inner_header_spec c ft fv fd (u32 (total_bits ts_w)) vl)
    as (Hinner & Hinner_len). fold inner in Hinner, Hinner_len.
  destruct (pack_payload_spec inner ts_w val_w Hts_ok Hval_ok)
    as (pad & Hbits & Hpad & Hok & Hmod).
  destruct (to_bytes_aligned _ Hok Hmod) as (_ & Hpacked & Hplen).
  fold packed in Hpacked, Hplen.
  rewrite Hbits, Hinner in Hpacked.
  assert (Htot : total_bits (pack_payload inner ts_w val_w)
                 = 256 + total_bits ts_w + total_bits val_w + Z.of_nat pad).
  { rewrite (total_bits_wbits _ Hok), Hbits, Hinner.
    rewrite !length_app, inner_header_bits_length, repeat_length.
    rewrite (total_bits_wbits _ Hts_ok), (total_bits_wbits _ Hval_ok). lia. }
  assert (Hts0 : 0 <= total_bits ts_w)
    by (rewrite (total_bits_wbits _ Hts_ok); lia).
  assert (Hval0 : 0 <= total_bits val_w)
    by (rewrite (total_bits_wbits _ Hval_ok); lia).
  split.
  2:{ rewrite Hplen, Htot. f_equal.
      rewrite Htot in Hmod.
      set (s := total_bits ts_w + total_bits val_w) in *.
      replace (256 + total_bits ts_w + total_bits val_w + Z.of_nat pad)
        with (s + Z.of_nat pad + 32 * 8) in Hmod by (unfold s; lia).
      rewrite Z.mod_add in Hmod by lia.
      pose proof (Z.mod_pos_bound s 8 ltac:(lia)) as Hs.
      rewrite <- Zplus_mod_idemp_l in Hmod.
      destruct (Z.eq_dec (s mod 8) 0) as [Hz|Hnz].
      - rewrite Hz in *. cbn [Z.add] in Hmod.
        rewrite Z.mod_small in Hmod by lia. rewrite Hmod. reflexivity.
      - rewrite (Z.mod_small (8 - s mod 8)) by lia.
        destruct (Z.lt_ge_cases (s mod 8 + Z.of_nat pad) 8) as [Hlt|Hge].
        + rewrite Z.mod_small in Hmod by lia. lia.
        + replace (s mod 8 + Z.of_nat pad)
            with (s mod 8 + Z.of_nat pad - 8 + 1 * 8) in Hmod by lia.
          rewrite Z.mod_add, Z.mod_small in Hmod by lia. lia. }
  unfold decode_packed.
  assert (Hcount : 0 < Z.of_nat (length ts))
    by (destruct ts; [congruence|cbn [length]; lia]).
  replace (Z.of_nat (length ts) =? 0) with false
    by (symmetry; apply Z.eqb_neq; lia).
  replace (Z.of_nat (length packed) <? 32) with false
    by (symmetry; apply Z.ltb_ge; lia).
  pose proof (Reads_start packed _ Hpacked) as HR0.
  set (r0 := mkBitReader packed (Z.of_nat (length packed) * 8) 0) in *.
  pose proof HR0 as HR. unfold inner_header_bits in HR.
  rewrite <- !app_assoc in HR.
  read_field HR. read_field HR. read_field HR. read_field HR.
  read_field HR. read_field HR.
  rewrite u32_mod
    by (unfold u32; apply Z.mod_pos_bound; lia).
  rewrite (u32_small (total_bits ts_w)) by lia.
  (* timestamps *)
  destruct (skip_bits_Reads 256 r0 _ _ HR0 (inner_header_bits_length _ _ _ _ _ _))
    as (rt & Et & HRt).
  change (Z.to_nat 256) with 256%nat. rewrite Et.
  destruct (decode_timestamps_spec ts rt _ HRt Hts Hfit) as (rt' & Et' & HRt').
  rewrite Et'.
  (* values *)
  pose proof HR0 as HRv. rewrite app_assoc in HRv.
  destruct (skip_bits_Reads (Z.to_nat (256 + total_bits ts_w)) r0 _ _ HRv)
    as (rv & Ev & HRv').
  { rewrite length_app, inner_header_bits_length.
    rewrite (total_bits_wbits _ Hts_ok). lia. }
  rewrite Ev.
  rewrite Hlen.
  destruct (decode_values_spec vs rv _ HRv' Hvs) as (rv' & Ev' & _).
  rewrite Ev'. reflexivity.
Qed.

(** Round trip under default options. *)
Lemma roundtrip_default data creation_time :
  Forall valid_sample data ->
  forallb code_fits (timestamp_codes (map fst data)) = true ->
  payload_bits data < 2 ^ 32 ->
  decode (encode data default_options creation_time) = Ok data.
Proof.
  intros Hvalid Hfit Hsz.
  destruct data as [|s0 data']; [reflexivity|].
  set (data := s0 :: data') in *.
  unfold nif_gorilla_encode.
  replace (length data =? 0)%nat with false by reflexivity.
  change (preprocess fp_sub fp_scale_round decimal_places default_options
            (map snd data))
    with (0, 0, map snd data, false).
  cbv beta iota zeta. unfold float_to_bits.
  set (ts := map fst data) in *. set (vs := map snd data) in *.
  set (ts_w := ts_writer (encode_timestamps ts)) in *.
  set (val_w := val_writer (encode_values vs)) in *.
  unfold payload_bits in Hsz. fold ts ts_w vs val_w in Hsz.
  assert (Hts : Forall in_i64 ts).
  { unfold ts. apply Forall_map. revert Hvalid. apply Forall_impl.
    intros s (A & _). exact A. }
  assert (Hvs : Forall in_u64 vs).
  { unfold vs. apply Forall_map. revert Hvalid. apply Forall_impl.
    intros s (_ & B). exact B. }
  assert (Hne : ts <> []) by (unfold ts, data; cbn [map]; congruence).
  assert (Hlen : length ts = length vs)
    by (unfold ts, vs; rewrite !length_map; reflexivity).
  pose proof (encode_timestamps_count ts) as Hcnt. fold ts_w in Hcnt.
  destruct (encode_values_spec vs) as (_ & Hval_ok). fold val_w in Hval_ok.
  assert (Hval0 : 0 <= total_bits val_w)
    by (rewrite (total_bits_wbits _ Hval_ok); lia).
  match goal with
  | |- context [pack_payload (build_inner_header ?c ?ft ?fv ?fd ?tl ?vl)] =>
      destruct (decode_packed_spec ts vs c ft fv fd vl Hne Hlen Hts Hvs Hfit)
        as (Hdec & Hplen); [fold ts_w; lia|]
  end.
  fold ts_w val_w in Hdec, Hplen.
  set (packed := fst (to_bytes (pack_payload _ ts_w val_w))) in *.
  pose proof (Z.mod_pos_bound (8 - (total_bits ts_w + total_bits val_w) mod 8)
                8 ltac:(lia)) as Hpad.
  assert (Hpk : Z.of_nat (length packed) < 2 ^ 32) by lia.
  rewrite (u32_small (Z.of_nat (length packed))) by lia.
  rewrite decode_built_header.
  - rewrite u32_small by lia. rewrite Hdec. f_equal.
    unfold ts, vs. clear. induction data as [|[t v] l IH]; cbn [map combine];
      [reflexivity|]. cbn [fst snd]. rewrite IH. reflexivity.
  - unfold u32. apply Z.mod_pos_bound. lia.
  - exact Hpk.
  - lia.
  - lia.
Qed.

End RoundTrip.


(** ** Header fields of an arbitrary buffer *)

Lemma read_at data total p n q :
  total = Z.of_nat (length data) * 8 -> 0 <= p -> 0 <= n <= 64 ->
  q = p + n -> q <= total ->
  read (mkBitReader data total p) n
  = Some (field data p n, mkBitReader data total q).
Proof.
  intros Ht Hp Hn -> Hle.
  set (r := mkBitReader data total p).
  assert (Hok : reader_ok r)
    by (unfold reader_ok, r; cbn [data_ total_bits_ pos_]; lia).
  assert (Hlen : (Z.to_nat n <= length (rbits r))%nat).
  { unfold rbits, r; cbn [data_ pos_].
    rewrite length_skipn, bytes_bits_length. lia. }
  destruct (read_spec r n (firstn (Z.to_nat n) (rbits r))
              (skipn (Z.to_nat n) (rbits r)) Hok) as (E & _).
  - symmetry. apply firstn_skipn.
  - rewrite length_firstn. lia.
  - lia.
  - rewrite E. reflexivity.
Qed.

Lemma read_signed_at data total p n q :
  total = Z.of_nat (length data) * 8 -> 0 <= p -> 0 <= n <= 64 ->
  q = p + n -> q <= total ->
  exists x,
    read_signed (mkBitReader data total p) n
    = Some (x, mkBitReader data total q).
Proof.
  intros Ht Hp Hn Hq Hle. unfold read_signed.
  rewrite (read_at data total p n q) by assumption.
  destruct (64 <=? n); eexists; reflexivity.
Qed.

Lemma field_range data p n : 0 <= n -> 0 <= field data p n < 2 ^ n.
Proof.
  intros Hn. unfold field.
  match goal with |- _ <= bits_val ?l < _ =>
    pose proof (bits_val_range l) as H;
    assert (Hl : (length l <= Z.to_nat n)%nat) by (rewrite length_firstn; lia)
  end.
  split; [lia|]. eapply Z.lt_le_trans; [apply H|].
  apply Z.pow_le_mono_r; lia.
Qed.

Lemma u32_field data p : u32 (field data p 32) = field data p 32.
Proof. apply u32_small. apply field_range. lia. Qed.

Section OutlineProofs.

Variables fp_add fp_div_pow10 : Z -> Z -> Z.

Local Abbreviation decode := (nif_gorilla_decode fp_add fp_div_pow10).
Local Abbreviation outline := (decode_outline fp_add fp_div_pow10).

Ltac hdr_read :=
  match goal with
  | |- context [read (mkBitReader ?d ?t ?p) ?n] =>
      let q := eval cbv in (p + n) in
      rewrite (read_at d t p n q) by lia;
      cbv beta iota zeta delta [lift_reader]
  end.

Ltac hdr_read_signed :=
  match goal with
  | |- context [read_signed (mkBitReader ?d ?t ?p) ?n] =>
      let x := fresh "x" in
      let E := fresh "E" in
      let q := eval cbv in (p + n) in
      destruct (read_signed_at d t p n q) as (x & E);
      [lia | lia | lia | lia | lia
      | rewrite E; clear E; cbv beta iota zeta delta [lift_reader]]
  end.

Lemma decode_outline_eq data : decode data = outline data.
Proof.
  unfold nif_gorilla_decode, decode_outline.
  destruct (length data =? 0)%nat; [reflexivity|].
  cbv zeta.
  destruct (Z.of_nat (length data) <? 80) eqn:E80; [reflexivity|].
  apply Z.ltb_ge in E80.
  hdr_read.
  destruct (negb (field data 0 64 =? GORILLA_MAGIC)); [reflexivity|].
  hdr_read.
  destruct (GORILLA_VERSION <? field data 64 16); [reflexivity|].
  hdr_read.
  destruct (negb (field data 80 16 =? 80) && negb (field data 80 16 =? 84))
    eqn:Ehs; [reflexivity|].
  destruct (Z.of_nat (length data) <? field data 80 16) eqn:Elen;
    [reflexivity|].
  apply Z.ltb_ge in Elen.
  do 5 hdr_read. hdr_read_signed. do 7 hdr_read.
  rewrite !u32_field.
  destruct (field data 80 16 =? 84) eqn:E84.
  - apply Z.eqb_eq in E84. hdr_read. rewrite u32_field.
    match goal with |- (if ?c then _ else _) = _ => destruct c end;
      [reflexivity|].
    match goal with |- (if ?c then _ else _) = _ => destruct c end;
      reflexivity.
  - cbv beta iota.
    match goal with |- (if ?c then _ else _) = _ => destruct c end;
      [reflexivity|].
    match goal with |- (if ?c then _ else _) = _ => destruct c end;
      reflexivity.
Qed.

Lemma decode_packed_no_header_error packed cs count flags sc :
  is_header_error (decode_packed fp_add fp_div_pow10 packed cs count flags sc)
  = false.
Proof.
  unfold decode_packed.
  destruct (count =? 0); [reflexivity|].
  destruct (cs <? 32); [reflexivity|].
  match goal with |- context [lift_reader ?o] => destruct o end;
    reflexivity.
Qed.

End OutlineProofs.

(** ** Buffers that agree outside a byte range *)

Lemma same_outside_widen lo hi lo' hi' b b' :
  (lo' <= lo)%nat -> (hi <= hi')%nat ->
  same_outside lo hi b b' -> same_outside lo' hi' b b'.
Proof.
  intros Hlo Hhi (Hlen & H). split; [exact Hlen|].
  intros i Hi. apply H. lia.
Qed.

Lemma same_outside_bits lo hi b b' :
  same_outside lo hi b b' ->
  forall j, (j < 8 * lo \/ 8 * hi <= j)%nat ->
  nth j (bytes_bits b) false = nth j (bytes_bits b') false.
Proof.
  intros (Hlen & H) j Hj.
  destruct (Nat.lt_ge_cases j (8 * length b)) as [Hlt|Hge].
  - rewrite !nth_bytes_bits by lia. f_equal. apply H.
    destruct Hj as [Hj|Hj].
    + left. apply Nat.Div0.div_lt_upper_bound. lia.
    + right. apply Nat.div_le_lower_bound; lia.
  - rewrite !nth_overflow by (rewrite bytes_bits_length; lia). reflexivity.
Qed.

Lemma same_outside_field lo hi b b' p n :
  same_outside lo hi b b' -> 0 <= p -> 0 <= n ->
  p + n <= 8 * Z.of_nat lo \/ 8 * Z.of_nat hi <= p ->
  field b p n = field b' p n.
Proof.
  intros Hs Hp Hn Hw. unfold field. f_equal.
  assert (Hl : length (bytes_bits b) = length (bytes_bits b'))
    by (rewrite !bytes_bits_length; destruct Hs as (-> & _); reflexivity).
  apply nth_ext with (d := false) (d' := false).
  - rewrite !length_firstn, !length_skipn, Hl. reflexivity.
  - intros i Hi. rewrite length_firstn in Hi.
    rewrite !nth_firstn.
    destruct (i <? Z.to_nat n)%nat eqn:E; [|reflexivity].
    apply Nat.ltb_lt in E.
    rewrite !nth_skipn. apply (same_outside_bits lo hi b b' Hs). lia.
Qed.

Lemma same_outside_skipn lo hi b b' k :
  same_outside lo hi b b' -> (hi <= k)%nat -> skipn k b = skipn k b'.
Proof.
  intros (Hlen & H) Hk.
  apply nth_ext with (d := 0) (d' := 0).
  - rewrite !length_skipn, Hlen. reflexivity.
  - intros i _. rewrite !nth_skipn. apply H. lia.
Qed.

Section Independence.

Variables fp_add fp_div_pow10 : Z -> Z -> Z.

Local Abbreviation decode := (nif_gorilla_decode fp_add fp_div_pow10).

(** The decoder looks at no byte of the outer header between offset 20
    and offset 76: original size, checksum, first timestamp, first delta,
    first value bits, the three bit lengths, ratio and creation time. *)
Lemma decode_same_outside b b' :
  same_outside 20 76 b b' -> decode b' = decode b.
Proof.
  intros Hs. rewrite !decode_outline_eq. unfold decode_outline.
  pose proof Hs as (Hlen & _). rewrite <- Hlen.
  rewrite <- !(same_outside_field 20 76 b b' _ _ Hs) by lia.
  destruct (length b =? 0)%nat; [reflexivity|]. cbv zeta.
  destruct (Z.of_nat (length b) <? 80); [reflexivity|].
  destruct (negb (field b 0 64 =? GORILLA_MAGIC)); [reflexivity|].
  destruct (GORILLA_VERSION <? field b 64 16); [reflexivity|].
  destruct (negb (field b 80 16 =? 80) && negb (field b 80 16 =? 84))
    eqn:Ehs; [reflexivity|].
  assert (Hk : (76 <= Z.to_nat (field b 80 16))%nat).
  { apply andb_false_iff in Ehs.
    destruct Ehs as [E|E]; apply negb_false_iff, Z.eqb_eq in E;
      rewrite E; lia. }
  rewrite <- (same_outside_skipn 20 76 b b' _ Hs Hk). reflexivity.
Qed.

End Independence.


(** ** More on buffers and sub-streams *)

Lemma differs_only_in_spec lo hi b b' :
  differs_only_in lo hi b b' = true -> same_outside lo hi b b'.
Proof.
  unfold differs_only_in. intros H. apply andb_true_iff in H.
  destruct H as (Hl & Hf). apply Nat.eqb_eq in Hl.
  split; [exact Hl|]. intros i Hi.
  destruct (Nat.lt_ge_cases i (length b)) as [Hlt|Hge].
  - rewrite forallb_forall in Hf.
    assert (Hin : In i (seq 0 (length b))) by (apply in_seq; lia).
    specialize (Hf i Hin). apply orb_true_iff in Hf.
    destruct Hf as [Hf|Hf].
    + apply andb_true_iff in Hf. destruct Hf as (A & B).
      apply Nat.leb_le in A. apply Nat.ltb_lt in B. lia.
    + apply Z.eqb_eq. exact Hf.
  - rewrite !nth_overflow by lia. reflexivity.
Qed.

(** The byte vector of a writer holds its bits, then zero padding. *)
Lemma to_bytes_padded_bits w :
  writer_ok w ->
  exists pad, bytes_bits (to_bytes_padded w) = wbits w ++ repeat false pad.
Proof.
  intros Hw. unfold writer_ok in Hw. unfold to_bytes_padded, wbits.
  destruct (0 <? bits_ w) eqn:E.
  - apply Z.ltb_lt in E. exists (Z.to_nat (8 - bits_ w)).
    rewrite bytes_bits_app, bytes_bits_single, <- app_assoc. f_equal.
    replace 8%nat with (Z.to_nat (bits_ w) + Z.to_nat (8 - bits_ w))%nat
      at 1 by lia.
    rewrite bits_of_app. f_equal.
    + apply bits_of_ext. intros i Hi.
      rewrite Z.shiftr_spec by lia.
      rewrite u8_testbit, u64_testbit by lia.
      rewrite Z.shiftl_spec by lia. f_equal. lia.
    + rewrite <- bits_of_zero. apply bits_of_ext. intros i Hi.
      rewrite u8_testbit, u64_testbit by lia.
      rewrite Z.shiftl_spec by lia.
      rewrite Z.testbit_neg_r by lia. symmetry. apply Z.testbit_0_l.
  - apply Z.ltb_ge in E. exists 0%nat.
    replace (bits_ w) with 0 by lia. cbn [Z.to_nat bits_of repeat].
    rewrite !app_nil_r. reflexivity.
Qed.

Lemma xor_codes_repeat v n : xor_codes v (repeat v n) = repeat false n.
Proof.
  induction n as [|n IH]; cbn [repeat xor_codes]; [reflexivity|].
  rewrite IH. unfold xor_code. rewrite Z.lxor_nilpotent. reflexivity.
Qed.

Lemma bucket_code_length_le d : (length (bucket_code d) <= 36)%nat.
Proof.
  unfold bucket_code.
  repeat match goal with
         | |- context [if ?c then _ else _] => destruct c
         end; cbn [length app]; rewrite ?bits_of_length; lia.
Qed.

Lemma xor_codes_length_le vs : forall prev,
  (length (xor_codes prev vs) <= 66 * length vs)%nat.
Proof.
  induction vs as [|v vs IH]; intros prev; cbn [xor_codes length]; [lia|].
  rewrite length_app. specialize (IH v).
  assert (length (xor_code prev v) <= 66)%nat.
  { unfold xor_code. destruct (_ =? 0); cbn [length app];
      rewrite ?bits_of_length; lia. }
  lia.
Qed.

Lemma flat_map_length_le {A B} (f : A -> list B) k l :
  (forall x, (length (f x) <= k)%nat) ->
  (length (flat_map f l) <= k * length l)%nat.
Proof.
  intros Hf. induction l as [|x l IH]; cbn [flat_map length]; [lia|].
  rewrite length_app. specialize (Hf x). lia.
Qed.

(** A list of at most 2^25 samples keeps the packed block below 2^32
    bits. *)
Lemma payload_bits_bound data :
  Z.of_nat (length data) <= 2 ^ 25 -> payload_bits data < 2 ^ 32.
Proof.
  intros Hn. unfold payload_bits.
  destruct (encode_timestamps_spec (map fst data)) as (A & B).
  destruct (encode_values_spec (map snd data)) as (C & D).
  rewrite (total_bits_wbits _ B), (total_bits_wbits _ D), A, C.
  destruct data as [|[t0 v0] data']; cbn [map fst snd length]; [lia|].
  rewrite !length_app, !bits_of_length.
  pose proof (xor_codes_length_le (map snd data') v0) as Hx.
  rewrite length_map in Hx.
  pose proof (flat_map_length_le bucket_code 36
                (timestamp_codes (t0 :: map fst data'))
                bucket_code_length_le) as Ht.
  assert (Hc : (length (timestamp_codes (t0 :: map fst data'))
                <= length data')%nat).
  { destruct data' as [|[t1 v1] data'']; cbn [map fst timestamp_codes length];
      [lia|]. rewrite dod_codes_length, length_map. lia. }
  cbn [length] in Hn. lia.
Qed.

Section HeaderSize.

Variables fp_sub fp_scale_round fp_ratio : Z -> Z -> Z.
Variable decimal_places : Z -> Z.

Local Abbreviation encode :=
  (nif_gorilla_encode fp_sub fp_scale_round fp_ratio decimal_places).

Lemma preprocess_v2 opts values :
  snd (preprocess fp_sub fp_scale_round decimal_places opts values)
  = opt_flag (victoria_metrics opts) || opt_flag (is_counter opts).
Proof.
  unfold preprocess, opt_flag.
  destruct (victoria_metrics opts) as [[|]|];
    destruct (is_counter opts) as [[|]|]; reflexivity.
Qed.

(** The header-size field of an encoded buffer. *)
Lemma encode_header_size data opts creation_time :
  data <> [] ->
  let v2 := opt_flag (victoria_metrics opts) || opt_flag (is_counter opts) in
  field (encode data opts creation_time) 80 16 = (if v2 then 84 else 80)
  /\ exists packed : list Z,
       Z.of_nat (length (encode data opts creation_time))
       = (if v2 then 84 else 80) + Z.of_nat (length packed).
Proof.
  intros Hne v2. unfold nif_gorilla_encode.
  destruct data as [|s0 data']; [congruence|].
  replace (length (s0 :: data') =? 0)%nat with false by reflexivity.
  pose proof (preprocess_v2 opts (map snd (s0 :: data'))) as Hv2.
  destruct (preprocess _ _ _ opts (map snd (s0 :: data')))
    as [[[flags sd] values] v2'].
  cbn [snd] in Hv2. fold v2 in Hv2. subst v2'. cbv zeta.
  match goal with
  | |- context [build_outer_header ?c ?cs ?crc ?ft ?fd ?fv ?tl ?vl ?tb ?cr
                  ?ct ?fl ?sc v2 ++ ?p] =>
      destruct (build_outer_header_spec c cs crc ft fd fv tl vl tb cr ct fl
                  sc v2) as (Hbits & Hlen);
      set (hdr := build_outer_header c cs crc ft fd fv tl vl tb cr ct fl
                    sc v2) in *;
      set (packed := p)
  end.
  split.
  - unfold field. rewrite bytes_bits_app, Hbits. unfold outer_header_bits.
    rewrite <- !app_assoc.
    match goal with
    | |- context [skipn _ (?a ++ ?b ++ ?c)] =>
        replace (a ++ b ++ c) with ((a ++ b) ++ c)
          by (rewrite <- app_assoc; reflexivity);
        rewrite (skipn_app (Z.to_nat 80) (a ++ b));
        rewrite (skipn_all2 (a ++ b))
          by (rewrite length_app, !bits_of_length; cbn; lia);
        replace (Z.to_nat 80 - length (a ++ b))%nat with 0%nat
          by (rewrite length_app, !bits_of_length; cbn; lia)
    end.
    cbn [app skipn].
    rewrite firstn_app, firstn_all2 by (rewrite bits_of_length; cbn; lia).
    rewrite bits_of_length.
    change (Z.to_nat 16 - 16)%nat with 0%nat. cbn [firstn].
    rewrite app_nil_r, bits_val_bits_of. destruct v2; reflexivity.
  - exists packed. rewrite length_app, Hlen. destruct v2; lia.
Qed.

End HeaderSize.

Section ChecksumRoundTrip.

Variables fp_sub fp_add fp_scale_round fp_div_pow10 fp_ratio : Z -> Z -> Z.
Variable decimal_places : Z -> Z.

(** An encoded series still decodes to itself after any change to the
    checksum field of its outer header. *)
Lemma roundtrip_ignores_checksum data creation_time b' :
  Forall valid_sample data ->
  forallb code_fits (timestamp_codes (map fst data)) = true ->
  payload_bits data < 2 ^ 32 ->
  differs_only_in 24 28
    (nif_gorilla_encode fp_sub fp_scale_round fp_ratio decimal_places
       data default_options creation_time) b' = true ->
  nif_gorilla_decode fp_add fp_div_pow10 b' = Ok data.
Proof.
  intros Hv Hf Hs Hd.
  apply differs_only_in_spec in Hd.
  apply (same_outside_widen 24 28 20 76) in Hd; [|lia|lia].
  rewrite (decode_same_outside fp_add fp_div_pow10 _ b' Hd).
  apply roundtrip_default; assumption.
Qed.

End ChecksumRoundTrip.


(* ------------------------------------------------------------------ *)
(** * The claims *)
(* ------------------------------------------------------------------ *)

Section Claims.

Variables fp_sub fp_add fp_scale_round fp_div_pow10 fp_ratio : Z -> Z -> Z.
Variable decimal_places : Z -> Z.

(** C1 (amended). Round trip under default options: for every list of
    valid samples whose first delta and delta-of-deltas each fit the
    payload of their bucket ([code_fits]: signed 32-bit range, none of
    64, 256, 2048) and whose packed block is shorter than 2^32 bits,
    decoding the encoded buffer returns exactly the list: same length,
    same order, same timestamps, same 64-bit value patterns. *)
Theorem roundtrip_when_codes_fit data creation_time :
  Forall valid_sample data ->
  forallb code_fits (timestamp_codes (map fst data)) = true ->
  payload_bits data < 2 ^ 32 ->
  nif_gorilla_decode fp_add fp_div_pow10
    (nif_gorilla_encode fp_sub fp_scale_round fp_ratio decimal_places
       data default_options creation_time)
  = Ok data.
Proof. apply roundtrip_default. Qed.

(** C5. Encoding the empty list gives the empty buffer whatever the
    options, and decoding the empty buffer gives the empty list. *)
Theorem empty_series opts creation_time :
  nif_gorilla_encode fp_sub fp_scale_round fp_ratio decimal_places
    [] opts creation_time = []
  /\ nif_gorilla_decode fp_add fp_div_pow10 [] = Ok [].
Proof. split; reflexivity. Qed.

End Claims.

Section DecodeClaims.

Variables fp_add fp_div_pow10 : Z -> Z -> Z.

(** C3. A buffer that differs from a buffer that decodes only in the
    checksum field of the outer header (bytes 24..27) decodes too, to the
    same samples: the stored CRC-32 is compared and then ignored. *)
Theorem checksum_mismatch_tolerated b b' samples :
  differs_only_in 24 28 b b' = true ->
  nif_gorilla_decode fp_add fp_div_pow10 b = Ok samples ->
  nif_gorilla_decode fp_add fp_div_pow10 b' = Ok samples.
Proof.
  intros Hd Hb. rewrite <- Hb. apply decode_same_outside.
  apply (same_outside_widen 24 28); [lia | lia |].
  apply differs_only_in_spec. exact Hd.
Qed.

(** C4 (amended). For a non-empty buffer, decode stops with one of the
    six structural errors of outer-header validation exactly when: the
    buffer is shorter than 80 bytes, or the magic differs, or the version
    exceeds 1, or the header size is neither 80 nor 84, or the buffer is
    shorter than the header size, or header size plus compressed size
    exceeds the buffer length. *)
Theorem header_validation_failures data :
  data <> [] ->
  let len := Z.of_nat (length data) in
  is_header_error (nif_gorilla_decode fp_add fp_div_pow10 data) = true
  <-> (len < 80
       \/ field data 0 64 <> GORILLA_MAGIC
       \/ GORILLA_VERSION < field data 64 16
       \/ (field data 80 16 <> 80 /\ field data 80 16 <> 84)
       \/ len < field data 80 16
       \/ len < field data 80 16 + field data 128 32).
Proof.
  intros Hne len. rewrite decode_outline_eq. unfold decode_outline.
  destruct data as [|b0 data']; [congruence|].
  replace (length (b0 :: data') =? 0)%nat with false by reflexivity.
  set (data := b0 :: data') in *. cbv zeta. fold len.
  destruct (len <? 80) eqn:E80.
  { apply Z.ltb_lt in E80. cbn [is_header_error]. tauto. }
  apply Z.ltb_ge in E80.
  destruct (field data 0 64 =? GORILLA_MAGIC) eqn:Em; cbn [negb].
  2:{ apply Z.eqb_neq in Em. cbn [is_header_error]. tauto. }
  apply Z.eqb_eq in Em.
  destruct (GORILLA_VERSION <? field data 64 16) eqn:Ev.
  { apply Z.ltb_lt in Ev. cbn [is_header_error]. tauto. }
  apply Z.ltb_ge in Ev.
  destruct (negb (field data 80 16 =? 80) && negb (field data 80 16 =? 84))
    eqn:Ehs.
  { apply andb_true_iff in Ehs. destruct Ehs as (A & B).
    apply negb_true_iff, Z.eqb_neq in A.
    apply negb_true_iff, Z.eqb_neq in B.
    cbn [is_header_error]. tauto. }
  assert (Hhs : field data 80 16 = 80 \/ field data 80 16 = 84).
  { apply andb_false_iff in Ehs.
    destruct Ehs as [E|E]; apply negb_false_iff, Z.eqb_eq in E; auto. }
  destruct (len <? field data 80 16) eqn:El.
  { apply Z.ltb_lt in El. cbn [is_header_error]. tauto. }
  apply Z.ltb_ge in El.
  destruct (len <? field data 80 16 + field data 128 32) eqn:Ec.
  { apply Z.ltb_lt in Ec. cbn [is_header_error]. tauto. }
  apply Z.ltb_ge in Ec.
  rewrite decode_packed_no_header_error.
  split; [discriminate|]. intros H. exfalso. lia.
Qed.

(** C9 (amended). The outer-header copies of first timestamp, first
    delta and first value bits (bytes 28..47) are read and dropped: a
    buffer that differs from another only there decodes to the same
    result, so no disagreement with the inner header is ever noticed. *)
Theorem duplicated_fields_ignored b b' :
  differs_only_in 28 48 b b' = true ->
  nif_gorilla_decode fp_add fp_div_pow10 b'
  = nif_gorilla_decode fp_add fp_div_pow10 b.
Proof.
  intros Hd. apply decode_same_outside.
  apply (same_outside_widen 28 48); [lia | lia |].
  apply differs_only_in_spec. exact Hd.
Qed.

End DecodeClaims.

(** C2. Both variable-length encoders append the code of the
    specification's table: 0 for d = 0; 10 and 7 bits for -63 <= d <= 64;
    110 and 9 bits for -255 <= d <= 256; 1110 and 12 bits for
    -2047 <= d <= 2048; 1111 and 32 bits otherwise.  In particular 64 goes
    to the 7-bit bucket and 65 to the 9-bit bucket. *)
Theorem bucket_thresholds w d :
  writer_ok w ->
  wbits (encode_first_delta w d) = wbits w ++ bucket_code d
  /\ wbits (encode_delta_of_delta w d) = wbits w ++ bucket_code d
  /\ bucket_code 64
     = [true; false] ++ [true; false; false; false; false; false; false]
  /\ bucket_code 65
     = [true; true; false]
       ++ [false; false; true; false; false; false; false; false; true].
Proof.
  intros Hw. change (encode_delta_of_delta w d) with (encode_first_delta w d).
  destruct (encode_first_delta_spec w d Hw) as (A & _).
  repeat split; try exact A; reflexivity.
Qed.

(** C6. For a series whose values all have the same 64-bit pattern the
    value sub-stream is the first value verbatim and then one 0 bit per
    further sample, and decoding its bytes returns the same patterns. *)
Theorem identical_values v n :
  in_u64 v ->
  let values := repeat v (S n) in
  let w := val_writer (encode_values values) in
  let bytes := fst (to_bytes w) in
  wbits w = bits_of 64 v ++ repeat false n
  /\ total_bits w = 64 + Z.of_nat n
  /\ option_map fst
       (decode_values (mkBitReader bytes (Z.of_nat (length bytes) * 8) 0)
          (Z.of_nat (length values)))
     = Some values.
Proof.
  intros Hv values w bytes.
  destruct (encode_values_spec values) as (A & B). fold w in A, B.
  assert (Hbits : wbits w = bits_of 64 v ++ repeat false n).
  { rewrite A. unfold values. cbn [repeat]. rewrite xor_codes_repeat.
    reflexivity. }
  split; [exact Hbits|]. split.
  - rewrite (total_bits_wbits _ B), Hbits, length_app, bits_of_length,
      repeat_length. lia.
  - destruct (to_bytes_padded_bits w B) as (pad & Hpad).
    pose proof (Reads_start bytes _ Hpad) as HR.
    destruct (decode_values_spec values _ _ HR) as (r' & E & _).
    + unfold values. apply Forall_forall. intros x Hx.
      apply repeat_spec in Hx. subst x. exact Hv.
    + rewrite E. reflexivity.
Qed.

(** C8. After any sequence of [write], [write_signed] and [flush] on a
    fresh writer, the total bit count is 8 times the number of committed
    bytes plus the pending count, the pending count lies in 0..7, and the
    total is the number of bits the writes asked for. *)
Theorem bitwriter_invariant (ops : list WriterOp) :
  let w := run_ops ops in
  total_bits w = 8 * Z.of_nat (length (out_ w)) + bits_ w
  /\ 0 <= bits_ w < 8
  /\ total_bits w = ops_bits ops.
Proof.
  intros w.
  destruct (run_ops_invariant ops BitWriter_new writer_ok_new) as (A & B).
  fold (run_ops ops) in A, B. fold w in A, B.
  split; [unfold total_bits; lia|]. split; [exact A|].
  rewrite B. reflexivity.
Qed.

(** C10. At every point of a run of the value encoder (after the values
    [seen], whatever they are) the remembered window is (0, 0); for every
    next value the new-window arm is not taken, and the step appends one 0
    bit for a repeated pattern, else 10 and the full 64-bit XOR. *)
Theorem xor_window_stays_zero first_value seen next :
  let st := fold_left encode_value_step seen (xor_init first_value) in
  xs_prev_leading st = 0 /\ xs_prev_trailing st = 0
  /\ xor_branch st (float_to_bits next) <> NewWindow
  /\ wbits (xs_writer (encode_value_step st next))
     = wbits (xs_writer st) ++ xor_code (xs_prev_bits st) next.
Proof.
  intros st.
  assert (H : writer_ok (xs_writer st)
              /\ xs_prev_leading st = 0 /\ xs_prev_trailing st = 0).
  { unfold st. clear st.
    destruct (xor_init_spec first_value) as (_ & B & _ & D & E).
    revert B D E. generalize (xor_init first_value).
    induction seen as [|v seen IH]; intros st0 B D E; cbn [fold_left].
    - auto.
    - destruct (encode_value_step_spec st0 v B D E) as (_ & B' & _ & D' & E').
      apply IH; assumption. }
  destruct H as (Hw & Hl & Ht).
  split; [exact Hl|]. split; [exact Ht|]. split.
  - rewrite xor_branch_window0 by assumption.
    destruct (_ =? 0); discriminate.
  - apply encode_value_step_spec; assumption.
Qed.


(* ------------------------------------------------------------------ *)
(** * Concrete runs: witnesses and counterexamples *)
(* ------------------------------------------------------------------ *)

(** C1, witness: the four-sample series meets the hypotheses and comes
    back unchanged. *)
Lemma roundtrip_when_codes_fit_witness :
  Forall valid_sample sample_series
  /\ forallb code_fits (timestamp_codes (map fst sample_series)) = true
  /\ payload_bits sample_series < 2 ^ 32
  /\ run_decode (run_encode sample_series default_options 1700000000)
     = Ok sample_series.
Proof.
  assert (H1 : Forall valid_sample sample_series)
    by (repeat constructor; cbn; lia).
  assert (H2 : forallb code_fits (timestamp_codes (map fst sample_series))
               = true) by (vm_compute; reflexivity).
  assert (H3 : payload_bits sample_series < 2 ^ 32)
    by (vm_compute; reflexivity).
  split; [exact H1|]. split; [exact H2|]. split; [exact H3|].
  exact (roundtrip_when_codes_fit
           no_fp2 no_fp2 no_fp2 no_fp2 no_fp2 no_fp1 sample_series 1700000000 H1 H2 H3).
Defined.

(** C1, counterexample: a first delta of 2^32 does not fit the widest
    (32-bit) bucket; the valid two-sample series does not come back. *)
Lemma roundtrip_fails_on_wide_delta :
  Forall valid_sample [(0, 0); (4294967296, 0)]
  /\ run_decode (run_encode [(0, 0); (4294967296, 0)] default_options 0)
     = Ok [(0, 0); (0, 0)]
  /\ run_decode (run_encode [(0, 0); (4294967296, 0)] default_options 0)
     <> Ok [(0, 0); (4294967296, 0)].
Proof.
  split; [repeat constructor; cbn; lia|].
  split; [vm_compute; reflexivity|].
  vm_compute. discriminate.
Qed.

(** The upper bound of a short bucket does not survive either: 64 is sent
    in the 7-bit bucket and read back as -64. *)
Lemma roundtrip_fails_on_delta_64 :
  run_decode (run_encode [(0, 0); (64, 0)] default_options 0)
  = Ok [(0, 0); (-64, 0)].
Proof. vm_compute. reflexivity. Qed.

(** C2, witness: the code of 64 on a fresh writer. *)
Lemma bucket_thresholds_witness :
  writer_ok BitWriter_new
  /\ (wbits (encode_first_delta BitWriter_new 64)
      = wbits BitWriter_new ++ bucket_code 64
      /\ wbits (encode_delta_of_delta BitWriter_new 64)
         = wbits BitWriter_new ++ bucket_code 64
      /\ bucket_code 64
         = [true; false] ++ [true; false; false; false; false; false; false]
      /\ bucket_code 65
         = [true; true; false]
           ++ [false; false; true; false; false; false; false; false; true]).
Proof.
  split; [exact writer_ok_new|].
  exact (bucket_thresholds BitWriter_new 64 writer_ok_new).
Defined.

(** C3, witness: the sample buffer with its checksum field zeroed. *)
Lemma checksum_mismatch_tolerated_witness :
  differs_only_in 24 28 sample_buffer (corrupt_checksum sample_buffer) = true
  /\ run_decode sample_buffer = Ok sample_series
  /\ run_decode (corrupt_checksum sample_buffer) = Ok sample_series.
Proof.
  assert (H1 : differs_only_in 24 28 sample_buffer
                 (corrupt_checksum sample_buffer) = true)
    by (vm_compute; reflexivity).
  assert (H2 : run_decode sample_buffer = Ok sample_series)
    by (vm_compute; reflexivity).
  split; [exact H1|]. split; [exact H2|].
  exact (checksum_mismatch_tolerated no_fp2 no_fp2
           sample_buffer (corrupt_checksum sample_buffer) sample_series
           H1 H2).
Defined.

(** The zeroed field does disagree with the checksum of the payload. *)
Lemma corrupt_checksum_mismatches :
  field (corrupt_checksum sample_buffer) 192 32
  <> crc32 (skipn 80 (corrupt_checksum sample_buffer)).
Proof. vm_compute. discriminate. Qed.

(** C4, counterexample: the empty buffer is shorter than 80 bytes and
    decodes, to the empty list. *)
Lemma empty_buffer_is_short_and_decodes :
  Z.of_nat (length (@nil Z)) < 80 /\ run_decode [] = Ok [].
Proof. split; [cbn; lia | reflexivity]. Qed.

(** C4, witness: the sample buffer with a damaged magic. *)
Lemma header_validation_failures_witness :
  corrupt_magic sample_buffer <> []
  /\ (let data := corrupt_magic sample_buffer in
      let len := Z.of_nat (length data) in
      is_header_error (run_decode data) = true
      <-> (len < 80
           \/ field data 0 64 <> GORILLA_MAGIC
           \/ GORILLA_VERSION < field data 64 16
           \/ (field data 80 16 <> 80 /\ field data 80 16 <> 84)
           \/ len < field data 80 16
           \/ len < field data 80 16 + field data 128 32)).
Proof.
  assert (H : corrupt_magic sample_buffer <> []) by discriminate.
  split; [exact H|].
  exact (header_validation_failures no_fp2 no_fp2
           (corrupt_magic sample_buffer) H).
Defined.

(** Damaged magic, version and header size each stop the decoder. *)
Lemma header_corruptions_fail :
  run_decode (corrupt_magic sample_buffer) = Err InvalidMagic
  /\ run_decode (firstn 8 sample_buffer ++ [0; 2] ++ skipn 10 sample_buffer)
     = Err UnsupportedVersion
  /\ run_decode (firstn 10 sample_buffer ++ [0; 81] ++ skipn 12 sample_buffer)
     = Err InvalidHeaderSize.
Proof. repeat split; vm_compute; reflexivity. Qed.

(** A buffer can pass outer-header validation and still fail: a header
    that declares one sample and an empty packed block. *)
Lemma failure_after_header_validation :
  let data := firstn 16 sample_buffer ++ repeat 0 64 in
  is_header_error (run_decode data) = false
  /\ run_decode data = Err PackedTooSmall.
Proof. split; vm_compute; reflexivity. Qed.

(** C6, witness: four samples of value 1.5. *)
Lemma identical_values_witness :
  in_u64 0x3FF8000000000000
  /\ (let values := repeat 0x3FF8000000000000 4 in
      let w := val_writer (encode_values values) in
      let bytes := fst (to_bytes w) in
      wbits w = bits_of 64 0x3FF8000000000000 ++ repeat false 3
      /\ total_bits w = 64 + Z.of_nat 3
      /\ option_map fst
           (decode_values (mkBitReader bytes (Z.of_nat (length bytes) * 8) 0)
              (Z.of_nat (length values)))
         = Some values).
Proof.
  assert (H : in_u64 0x3FF8000000000000) by (unfold in_u64; lia).
  split; [exact H|].
  exact (identical_values 0x3FF8000000000000 3 H).
Defined.

(** C7, at the failing input: one sample, [is_counter] set,
    [victoria_metrics] and [scale_decimals] absent.  The buffer carries the
    84-byte header: header-size field 84, flags 0, a scale field 0, then
    the 48-byte packed block. *)
Lemma counter_only_header_is_84_bytes :
  let b := run_encode [(0, 0)] counter_only_options 0 in
  field b 80 16 = 84
  /\ length b = (84 + 48)%nat
  /\ field b 608 32 = 0
  /\ run_decode b = Ok [(0, 0)].
Proof. repeat split; vm_compute; reflexivity. Qed.

(** C9, counterexample: the outer header says first timestamp 9, the inner
    header says 1000, and decode accepts the buffer. *)
Lemma disagreeing_first_timestamp_accepted :
  let b := corrupt_first_timestamp sample_buffer in
  field b 224 64 = 9
  /\ field b (640 + 32) 64 = 1000
  /\ run_decode b = Ok sample_series.
Proof. repeat split; vm_compute; reflexivity. Qed.

(** C9, witness: the same buffer against the undamaged one. *)
Lemma duplicated_fields_ignored_witness :
  differs_only_in 28 48 sample_buffer (corrupt_first_timestamp sample_buffer)
  = true
  /\ run_decode (corrupt_first_timestamp sample_buffer)
     = run_decode sample_buffer.
Proof.
  assert (H : differs_only_in 28 48 sample_buffer
                (corrupt_first_timestamp sample_buffer) = true)
    by (vm_compute; reflexivity).
  split; [exact H|].
  exact (duplicated_fields_ignored no_fp2 no_fp2
           sample_buffer (corrupt_first_timestamp sample_buffer) H).
Defined.


(* ------------------------------------------------------------------ *)
(** * Further properties of the code *)
(* ------------------------------------------------------------------ *)

(** ** BitWriter and BitReader *)

(** X1. [write] appends the low [nbits] bits of the value, most
    significant first, to the bits the writer holds, and a count of zero
    or less leaves the writer untouched. *)
Theorem write_appends_bits w v n :
  writer_ok w -> n <= 64 ->
  wbits (write w v n) = wbits w ++ bits_of (Z.to_nat n) v
  /\ writer_ok (write w v n)
  /\ (n <= 0 -> write w v n = w).
Proof.
  intros Hw Hn.
  destruct (Z.le_gt_cases n 0) as [H0|H0].
  - assert (E : write w v n = w).
    { rewrite write_unfold.
      replace (n <=? 0) with true by (symmetry; apply Z.leb_le; exact H0).
      reflexivity. }
    rewrite E. replace (Z.to_nat n) with 0%nat by lia.
    cbn [bits_of]. rewrite app_nil_r. auto.
  - destruct (write_spec w v n Hw) as (A & B); [lia|].
    split; [exact A|]. split; [exact B|]. intros. lia.
Qed.

(** X2. [write_signed] appends the [nbits]-bit two's-complement pattern of
    a signed value: the same bits as writing the value reduced modulo
    2^nbits. *)
Theorem write_signed_appends_bits w d n :
  writer_ok w -> 0 <= n <= 64 ->
  wbits (write_signed w d n) = wbits w ++ bits_of (Z.to_nat n) d
  /\ wbits (write_signed w d n) = wbits (write w (d mod 2 ^ n) n)
  /\ writer_ok (write_signed w d n).
Proof.
  intros Hw Hn.
  destruct (write_signed_spec w d n Hw Hn) as (A & B).
  destruct (write_spec w (d mod 2 ^ n) n Hw Hn) as (C & _).
  split; [exact A|]. split; [|exact B].
  rewrite A, C. f_equal. apply bits_of_ext. intros i Hi.
  symmetry. apply Z.mod_pow2_bits_low. lia.
Qed.

(** X3. [to_bytes] returns the writer's bits followed by fewer than 8 zero
    bits, reports the pending count, and its length is the bit count
    rounded up to whole bytes. *)
Theorem to_bytes_pads_with_zeros w :
  writer_ok w ->
  exists pad,
    bytes_bits (fst (to_bytes w)) = wbits w ++ repeat false pad
    /\ (pad < 8)%nat
    /\ snd (to_bytes w) = bits_ w
    /\ Z.of_nat (length (fst (to_bytes w))) = (total_bits w + 7) / 8.
Proof.
  intros Hw. pose proof Hw as Hw'. unfold writer_ok in Hw'.
  destruct (to_bytes_padded_bits w Hw) as (pad & Hpad).
  assert (Hlen : (8 * length (to_bytes_padded w)
                  = length (wbits w) + pad)%nat).
  { rewrite <- bytes_bits_length, Hpad, length_app, repeat_length.
    reflexivity. }
  assert (Hl : Z.of_nat (length (to_bytes_padded w))
               = Z.of_nat (length (out_ w)) + (if 0 <? bits_ w then 1 else 0)).
  { unfold to_bytes_padded. destruct (0 <? bits_ w).
    - rewrite length_app. cbn [length]. lia.
    - lia. }
  pose proof (total_bits_wbits w Hw) as Ht.
  assert (Htb : total_bits w = Z.of_nat (length (out_ w)) * 8 + bits_ w)
    by reflexivity.
  exists pad. unfold to_bytes. cbn [fst snd].
  split; [exact Hpad|].
  destruct (0 <? bits_ w) eqn:E.
  - apply Z.ltb_lt in E. split; [lia|]. split; [reflexivity|].
    rewrite Hl.
    apply Z.div_unique with (r := bits_ w - 1); lia.
  - apply Z.ltb_ge in E. split; [lia|]. split; [reflexivity|].
    rewrite Hl.
    apply Z.div_unique with (r := 7); lia.
Qed.

(** After a writer, a reader placed at a known offset of its byte vector
    sees the rest of the writer's bits, then the padding. *)
Lemma Reads_after_writer w l1 l2 :
  writer_ok w -> wbits w = l1 ++ l2 ->
  exists pad,
    Reads (reader_at (fst (to_bytes w)) (Z.of_nat (length l1)))
      (l2 ++ repeat false pad).
Proof.
  intros Hw Hb. destruct (to_bytes_padded_bits w Hw) as (pad & Hpad).
  exists pad. unfold to_bytes. cbn [fst]. unfold reader_at. split.
  - unfold reader_ok; cbn [data_ total_bits_ pos_].
    split; [lia|]. split; [lia|].
    assert (H : (length l1 <= 8 * length (to_bytes_padded w))%nat).
    { rewrite <- bytes_bits_length, Hpad, Hb, !length_app. lia. }
    lia.
  - unfold rbits; cbn [data_ pos_]. rewrite Nat2Z.id, Hpad, Hb.
    rewrite <- app_assoc, skipn_app, skipn_all, Nat.sub_diag.
    reflexivity.
Qed.

(** X4. What [write] appends is what [read] returns: reading [nbits] bits
    at the offset where the write began gives the value modulo 2^nbits and
    moves the reader by [nbits]. *)
Theorem write_then_read w v n :
  writer_ok w -> 0 <= n <= 64 ->
  let bytes := fst (to_bytes (write w v n)) in
  read (reader_at bytes (total_bits w)) n
  = Some (v mod 2 ^ n, reader_at bytes (total_bits w + n)).
Proof.
  intros Hw Hn bytes.
  destruct (write_spec w v n Hw Hn) as (A & B).
  destruct (Reads_after_writer (write w v n) _ _ B A) as (pad & HR).
  fold bytes in HR. rewrite <- (total_bits_wbits w Hw) in HR.
  destruct HR as (Hok & Hb).
  destruct (read_spec _ n _ _ Hok Hb) as (E & _).
  - rewrite bits_of_length. lia.
  - lia.
  - rewrite E, bits_val_bits_of, Z2Nat.id by lia. reflexivity.
Qed.

Lemma sign_wrap_small n d :
  1 <= n -> - 2 ^ (n - 1) <= d < 2 ^ (n - 1) -> sign_wrap n d = d.
Proof.
  intros Hn Hd. unfold sign_wrap.
  assert (Hp : 2 ^ n = 2 * 2 ^ (n - 1)).
  { rewrite <- Z.pow_succ_r by lia. f_equal. lia. }
  rewrite Z.mod_small; lia.
Qed.

Lemma sign_wrap_range n d :
  1 <= n -> - 2 ^ (n - 1) <= sign_wrap n d < 2 ^ (n - 1).
Proof.
  intros Hn. unfold sign_wrap.
  assert (Hp : 2 ^ n = 2 * 2 ^ (n - 1)).
  { rewrite <- Z.pow_succ_r by lia. f_equal. lia. }
  assert (0 < 2 ^ (n - 1)) by (apply Z.pow_pos_nonneg; lia).
  pose proof (Z.mod_pos_bound (d + 2 ^ (n - 1)) (2 ^ n)). lia.
Qed.

Lemma sign_wrap_mod n d : 1 <= n -> sign_wrap n (d mod 2 ^ n) = sign_wrap n d.
Proof.
  intros Hn. unfold sign_wrap. f_equal.
  rewrite Zplus_mod_idemp_l. reflexivity.
Qed.

(** The sign extension of [read_signed], on the raw field. *)
Lemma sign_extend_raw n raw :
  1 <= n < 64 -> 0 <= raw < 2 ^ n ->
  i64 (if Z.land raw (u64 (Z.shiftl 1 (n - 1))) =? 0 then raw
       else Z.lor raw (u64 (Z.lnot (u64 (Z.shiftl 1 n) - 1))))
  = sign_wrap n raw.
Proof.
  intros Hn Hr.
  rewrite sign_bit_mask, sign_extend_mask by lia.
  rewrite land_pow2_zero by lia.
  assert (Hp : 2 ^ n = 2 * 2 ^ (n - 1)).
  { rewrite <- Z.pow_succ_r by lia. f_equal. lia. }
  assert (Hp0 : 0 < 2 ^ (n - 1)) by (apply Z.pow_pos_nonneg; lia).
  assert (Hp63 : 2 ^ n <= 2 ^ 63) by (apply Z.pow_le_mono_r; lia).
  destruct (Z.lt_ge_cases raw (2 ^ (n - 1))) as [Hlo|Hhi].
  - rewrite (testbit_high_false raw (n - 1)) by lia. cbn [negb].
    rewrite sign_wrap_small by lia.
    apply i64_small. unfold in_i64. lia.
  - assert (Hb : Z.testbit raw (n - 1) = true).
    { apply Z.testbit_true; [lia|].
      replace (raw / 2 ^ (n - 1)) with 1; [reflexivity|].
      apply Z.div_unique with (r := raw - 2 ^ (n - 1)); lia. }
    rewrite Hb. cbn [negb].
    assert (Hs : sign_wrap n raw = raw - 2 ^ n).
    { unfold sign_wrap.
      replace (raw + 2 ^ (n - 1))
        with (raw - 2 ^ (n - 1) + 1 * 2 ^ n) by lia.
      rewrite Z_mod_plus_full, Z.mod_small by lia. lia. }
    rewrite Hs, lor_disjoint_add.
    + replace (raw + (2 ^ 64 - 2 ^ n)) with (raw - 2 ^ n + 2 ^ 64) by lia.
      rewrite i64_add_2_64. apply i64_small. unfold in_i64. lia.
    + apply Z.bits_inj'. intros i Hi.
      rewrite Z.land_spec, Z.testbit_0_l.
      destruct (Z.lt_ge_cases i n) as [Hlt|Hge].
      * replace (2 ^ 64 - 2 ^ n) with (Z.shiftl (Z.ones (64 - n)) n).
        -- rewrite Z.shiftl_spec_low by lia. apply andb_false_r.
        -- rewrite Z.shiftl_mul_pow2, Z.ones_equiv by lia.
           replace (2 ^ 64) with (2 ^ (64 - n) * 2 ^ n)
             by (rewrite <- Z.pow_add_r by lia; f_equal; lia).
           lia.
      * rewrite (testbit_high_false raw n) by lia. reflexivity.
Qed.

(** X5. [read_signed] returns the field's two's-complement value: the
    unsigned field wrapped into -2^(nbits-1) .. 2^(nbits-1)-1, for every
    width from 1 to 64, and moves the reader by [nbits]. *)
Theorem read_signed_sign_extends data p n :
  0 <= p -> 1 <= n <= 64 -> p + n <= Z.of_nat (length data) * 8 ->
  read_signed (reader_at data p) n
  = Some (sign_wrap n (field data p n), reader_at data (p + n))
  /\ - 2 ^ (n - 1) <= sign_wrap n (field data p n) < 2 ^ (n - 1).
Proof.
  intros Hp Hn Hle. split; [|apply sign_wrap_range; lia].
  unfold read_signed, reader_at.
  rewrite (read_at data _ p n (p + n)) by lia.
  destruct (64 <=? n) eqn:E.
  - apply Z.leb_le in E. assert (n = 64) by lia. subst n.
    reflexivity.
  - apply Z.leb_gt in E. f_equal. f_equal.
    apply sign_extend_raw; [lia|]. apply field_range. lia.
Qed.

(** X6. A signed value that fits [nbits] bits survives [write_signed]
    followed by [read_signed] at the offset where the write began. *)
Theorem write_signed_then_read_signed w d n :
  writer_ok w -> 1 <= n <= 64 -> - 2 ^ (n - 1) <= d < 2 ^ (n - 1) ->
  let bytes := fst (to_bytes (write_signed w d n)) in
  read_signed (reader_at bytes (total_bits w)) n
  = Some (d, reader_at bytes (total_bits w + n)).
Proof.
  intros Hw Hn Hd bytes.
  destruct (write_signed_spec w d n Hw) as (A & B); [lia|].
  destruct (Reads_after_writer (write_signed w d n) _ _ B A) as (pad & HR).
  fold bytes in HR. rewrite <- (total_bits_wbits w Hw) in HR.
  destruct HR as (Hok & Hb).
  destruct (read_spec _ n _ _ Hok Hb) as (E & _).
  - rewrite bits_of_length. lia.
  - lia.
  - unfold read_signed. rewrite E, bits_val_bits_of, Z2Nat.id by lia.
    assert (Hr : 0 <= d mod 2 ^ n < 2 ^ n)
      by (apply Z.mod_pos_bound, Z.pow_pos_nonneg; lia).
    destruct (64 <=? n) eqn:E64.
    + apply Z.leb_le in E64. assert (n = 64) by lia. subst n.
      f_equal. f_equal. change (d mod 2 ^ 64) with (u64 d).
      rewrite i64_u64. apply i64_small. unfold in_i64.
      change (64 - 1) with 63 in Hd. exact Hd.
    + apply Z.leb_gt in E64. f_equal. f_equal.
      rewrite sign_extend_raw; [|lia|exact Hr].
      rewrite sign_wrap_mod by lia. apply sign_wrap_small; lia.
Qed.

Lemma read_loop_exhausted n : forall r acc,
  (0 < n)%nat -> total_bits_ r - pos_ r < Z.of_nat n ->
  read_loop n r acc = None.
Proof.
  induction n as [|n IH]; intros r acc Hn H; [lia|].
  cbn [read_loop]. unfold read_bit.
  destruct (total_bits_ r <=? pos_ r) eqn:E; [reflexivity|].
  apply Z.leb_gt in E. apply IH; cbn [total_bits_ pos_]; lia.
Qed.

(** X7. [read] fails (the "read past end" exception) exactly when fewer
    than [nbits] bits are left before the declared total; otherwise it
    returns the field at the reader's position and advances by [nbits]. *)
Theorem read_fails_iff_exhausted data p n :
  0 <= p -> 0 <= n <= 64 ->
  let r := reader_at data p in
  (remaining r < n -> read r n = None)
  /\ (n <= remaining r ->
      read r n = Some (field data p n, reader_at data (p + n))
      /\ remaining (reader_at data (p + n)) = remaining r - n
      /\ position (reader_at data (p + n)) = position r + n).
Proof.
  intros Hp Hn r. unfold remaining, position, r, reader_at.
  cbn [pos_ total_bits_].
  destruct (p <? Z.of_nat (length data) * 8) eqn:E.
  - apply Z.ltb_lt in E. split.
    + intros H. unfold read. apply read_loop_exhausted;
        cbn [pos_ total_bits_]; lia.
    + intros H. split; [apply read_at; lia|].
      destruct (p + n <? Z.of_nat (length data) * 8) eqn:E2;
        [apply Z.ltb_lt in E2|apply Z.ltb_ge in E2]; lia.
  - apply Z.ltb_ge in E. split.
    + intros H. unfold read. apply read_loop_exhausted;
        cbn [pos_ total_bits_]; lia.
    + intros H. assert (n = 0) by lia. subst n.
      rewrite Z.add_0_r.
      replace (p <? Z.of_nat (length data) * 8) with false
        by (symmetry; apply Z.ltb_ge; lia).
      split; [|lia]. unfold read. cbn [Z.to_nat read_loop].
      unfold field. cbn [Z.to_nat firstn]. reflexivity.
Qed.


(** ** Timestamp codec *)

Lemma read_signed_Reads_any r n d rest :
  Reads r (bits_of (Z.to_nat n) d ++ rest) -> 1 <= n <= 64 ->
  exists r', read_signed r n = Some (sign_wrap n d, r') /\ Reads r' rest.
Proof.
  intros HR Hn.
  destruct (read_Reads r n d rest HR) as (r' & E & HR'); [lia|].
  exists r'. split; [|exact HR'].
  unfold read_signed. rewrite E.
  assert (Hr : 0 <= d mod 2 ^ n < 2 ^ n)
    by (apply Z.mod_pos_bound, Z.pow_pos_nonneg; lia).
  destruct (64 <=? n) eqn:E64.
  - apply Z.leb_le in E64. assert (n = 64) by lia. subst n.
    f_equal. f_equal. change (d mod 2 ^ 64) with (u64 d).
    rewrite i64_u64. reflexivity.
  - apply Z.leb_gt in E64. f_equal. f_equal.
    rewrite sign_extend_raw; [|lia|exact Hr].
    apply sign_wrap_mod. lia.
Qed.

(** The variable-length decoder on the code of any [d]. *)
Lemma decode_first_delta_any r d rest :
  Reads r (bucket_code d ++ rest) ->
  exists r',
    decode_first_delta r = Some (decoded_code d, r') /\ Reads r' rest.
Proof.
  intros HR. unfold bucket_code in HR.
  unfold decode_first_delta, decoded_code.
  destruct (d =? 0).
  { cbn [app] in HR. read_one HR.
    eexists; split; [reflexivity|exact HR]. }
  destruct ((-63 <=? d) && (d <=? 64)).
  { cbn [app] in HR. read_one HR. read_one HR.
    apply (read_signed_Reads_any _ 7 d rest HR); lia. }
  destruct ((-255 <=? d) && (d <=? 256)).
  { cbn [app] in HR. read_one HR. read_one HR. read_one HR.
    apply (read_signed_Reads_any _ 9 d rest HR); lia. }
  destruct ((-2047 <=? d) && (d <=? 2048)).
  { cbn [app] in HR. read_one HR. read_one HR. read_one HR. read_one HR.
    apply (read_signed_Reads_any _ 12 d rest HR); lia. }
  cbn [app] in HR. read_one HR. read_one HR. read_one HR. read_one HR.
  apply (read_signed_Reads_any _ 32 d rest HR); lia.
Qed.

Lemma decoded_code_fits d :
  (decoded_code d = d <-> code_fits d = true)
  /\ (d = 64 \/ d = 256 \/ d = 2048 -> decoded_code d = - d).
Proof.
  split.
  2:{ intros [H|[H|H]]; subst d; reflexivity. }
  unfold decoded_code, code_fits.
  rewrite !andb_true_iff, !negb_true_iff, !Z.eqb_neq, Z.leb_le, Z.ltb_lt.
  destruct (d =? 0) eqn:E0.
  { apply Z.eqb_eq in E0. subst d. cbn. intuition lia. }
  apply Z.eqb_neq in E0.
  destruct ((-63 <=? d) && (d <=? 64)) eqn:E1.
  { apply andb_true_iff in E1. destruct E1 as (L & U).
    apply Z.leb_le in L. apply Z.leb_le in U.
    destruct (Z.eq_dec d 64) as [->|Hne].
    - cbn. intuition lia.
    - rewrite sign_wrap_small by (cbn; lia). intuition lia. }
  apply andb_false_iff in E1.
  destruct ((-255 <=? d) && (d <=? 256)) eqn:E2.
  { apply andb_true_iff in E2. destruct E2 as (L & U).
    apply Z.leb_le in L. apply Z.leb_le in U.
    destruct (Z.eq_dec d 256) as [->|Hne].
    - cbn. intuition lia.
    - rewrite sign_wrap_small by (cbn; lia). intuition lia. }
  apply andb_false_iff in E2.
  destruct ((-2047 <=? d) && (d <=? 2048)) eqn:E3.
  { apply andb_true_iff in E3. destruct E3 as (L & U).
    apply Z.leb_le in L. apply Z.leb_le in U.
    destruct (Z.eq_dec d 2048) as [->|Hne].
    - cbn. intuition lia.
    - rewrite sign_wrap_small by (cbn; lia). intuition lia. }
  apply andb_false_iff in E3.
  pose proof (sign_wrap_range 32 d ltac:(lia)) as Hr.
  change (32 - 1) with 31 in Hr.
  destruct (Z.le_gt_cases (- 2 ^ 31) d) as [Hlo|Hlo];
    [destruct (Z.lt_ge_cases d (2 ^ 31)) as [Hhi|Hhi]|].
  - rewrite sign_wrap_small by (cbn; lia). intuition lia.
  - split; [intros E; rewrite E in Hr; lia | intuition lia].
  - split; [intros E; rewrite E in Hr; lia | intuition lia].
Qed.

(** X8. The variable-length code of [d], written by [encode_first_delta]
    (and by [encode_delta_of_delta], the same code) and read back by
    [decode_first_delta] at the offset where it starts, gives back [d]
    exactly when [d] lies in the signed 32-bit range and is none of 64,
    256, 2048; each of these three bounds comes back negated. *)
Theorem varlen_code_roundtrip_iff w d :
  writer_ok w ->
  let bytes := fst (to_bytes (encode_first_delta w d)) in
  exists v r',
    decode_first_delta (reader_at bytes (total_bits w)) = Some (v, r')
    /\ decode_delta_of_delta (reader_at bytes (total_bits w)) = Some (v, r')
    /\ (v = d <-> code_fits d = true)
    /\ (d = 64 \/ d = 256 \/ d = 2048 -> v = - d).
Proof.
  intros Hw bytes.
  destruct (encode_first_delta_spec w d Hw) as (A & B).
  destruct (Reads_after_writer _ _ _ B A) as (pad & HR).
  fold bytes in HR. rewrite <- (total_bits_wbits w Hw) in HR.
  destruct (decode_first_delta_any _ d _ HR) as (r' & E & _).
  exists (decoded_code d), r'.
  split; [exact E|]. split; [exact E|]. apply decoded_code_fits.
Qed.

(** X9. Size of the timestamp sub-stream: nothing for an empty series,
    else the 64-bit first timestamp and between 1 and 36 bits for each
    further timestamp. *)
Theorem timestamp_stream_size ts :
  let w := ts_writer (encode_timestamps ts) in
  match ts with
  | [] => total_bits w = 0
  | _ :: rest =>
      64 + Z.of_nat (length rest) <= total_bits w
      <= 64 + 36 * Z.of_nat (length rest)
  end.
Proof.
  intros w. destruct (encode_timestamps_spec ts) as (A & B).
  fold w in A, B. rewrite (total_bits_wbits w B), A.
  destruct ts as [|t0 rest]; [reflexivity|].
  rewrite length_app, bits_of_length.
  pose proof (flat_map_length_ge bucket_code (timestamp_codes (t0 :: rest))
                bucket_code_length_ge) as Hge.
  pose proof (flat_map_length_le bucket_code 36 (timestamp_codes (t0 :: rest))
                bucket_code_length_le) as Hle.
  assert (Hc : length (timestamp_codes (t0 :: rest)) = length rest).
  { destruct rest as [|t1 rest']; cbn [timestamp_codes length];
      [reflexivity|]. rewrite dod_codes_length. reflexivity. }
  rewrite Hc in Hge, Hle. lia.
Qed.

Lemma dod_codes_progression t0 step n : forall a,
  dod_codes (t0 + step * Z.of_nat a) (i64 step)
    (map (fun k => t0 + step * Z.of_nat k) (seq (S a) n))
  = repeat 0 n.
Proof.
  induction n as [|n IH]; intros a; cbn [seq map dod_codes repeat];
    [reflexivity|].
  replace (t0 + step * Z.of_nat (S a) - (t0 + step * Z.of_nat a))
    with step by lia.
  rewrite Z.sub_diag. rewrite IH. reflexivity.
Qed.

(** X10. A series with a constant timestamp step costs the first
    timestamp, the code of the step, and one 0 bit for every timestamp
    from the third on. *)
Theorem constant_step_series t0 step n :
  let ts := progression t0 step (S (S n)) in
  wbits (ts_writer (encode_timestamps ts))
  = bits_of 64 t0 ++ bucket_code (i64 step) ++ repeat false n
  /\ timestamp_codes ts = i64 step :: repeat 0 n.
Proof.
  intros ts.
  assert (Hc : timestamp_codes ts = i64 step :: repeat 0 n).
  { unfold ts, progression. cbn [seq map timestamp_codes].
    replace (t0 + step * Z.of_nat 1 - (t0 + step * Z.of_nat 0))
      with step by lia.
    rewrite dod_codes_progression. reflexivity. }
  split; [|exact Hc].
  rewrite (proj1 (encode_timestamps_spec ts)), Hc.
  unfold ts, progression. cbn [seq map flat_map].
  replace (t0 + step * Z.of_nat 0) with t0 by lia.
  f_equal. f_equal. clear. induction n as [|n IH]; cbn [repeat flat_map];
    [reflexivity|]. rewrite IH. reflexivity.
Qed.

(** X11. [decode_timestamps] undoes [encode_timestamps]: run over the
    bytes of the sub-stream with the series' length as count, it returns
    the series, provided every code fits its bucket. *)
Theorem timestamps_roundtrip ts :
  Forall in_i64 ts ->
  forallb code_fits (timestamp_codes ts) = true ->
  let bytes := fst (to_bytes (ts_writer (encode_timestamps ts))) in
  option_map fst
    (decode_timestamps (reader_at bytes 0) (Z.of_nat (length ts)))
  = Some ts.
Proof.
  intros Hts Hf bytes.
  destruct (encode_timestamps_spec ts) as (_ & B).
  destruct (Reads_after_writer _ [] _ B eq_refl) as (pad & HR).
  fold bytes in HR. cbn [length Z.of_nat] in HR.
  destruct (decode_timestamps_spec ts _ _ HR Hts Hf) as (r' & E & _).
  rewrite E. reflexivity.
Qed.

(** ** Value codec *)

(** X12. [decode_values] undoes [encode_values] for every series of
    64-bit patterns: run over the bytes of the sub-stream with the series'
    length as count, it returns the same patterns. *)
Theorem values_roundtrip vs :
  Forall in_u64 vs ->
  let bytes := fst (to_bytes (val_writer (encode_values vs))) in
  option_map fst (decode_values (reader_at bytes 0) (Z.of_nat (length vs)))
  = Some vs.
Proof.
  intros Hvs bytes.
  destruct (encode_values_spec vs) as (_ & B).
  destruct (Reads_after_writer _ [] _ B eq_refl) as (pad & HR).
  fold bytes in HR. cbn [length Z.of_nat] in HR.
  destruct (decode_values_spec vs _ _ HR Hvs) as (r' & E & _).
  rewrite E. reflexivity.
Qed.

Lemma xor_codes_length vs : forall prev,
  Z.of_nat (length (xor_codes prev vs))
  = Z.of_nat (length vs) + 65 * changes prev vs.
Proof.
  induction vs as [|v vs IH]; intros prev; cbn [xor_codes length changes];
    [reflexivity|].
  rewrite length_app, Nat2Z.inj_add, IH. unfold xor_code.
  destruct (Z.lxor v prev =? 0); cbn [length app];
    rewrite ?bits_of_length; lia.
Qed.

(** X13. Size of the value sub-stream: the 64-bit first value, then one
    bit for each value equal to its predecessor and 66 bits for each value
    that differs. *)
Theorem value_stream_size vs :
  let w := val_writer (encode_values vs) in
  match vs with
  | [] => total_bits w = 0
  | v0 :: rest =>
      total_bits w = 64 + Z.of_nat (length rest) + 65 * changes v0 rest
  end.
Proof.
  intros w. destruct (encode_values_spec vs) as (A & B).
  fold w in A, B. rewrite (total_bits_wbits w B), A.
  destruct vs as [|v0 rest]; [reflexivity|].
  rewrite length_app, bits_of_length, Nat2Z.inj_add, xor_codes_length. lia.
Qed.


(** ** Bit counting *)

Lemma shl_small x k :
  0 <= x -> 0 <= k -> x * 2 ^ k < 2 ^ 64 -> u64 (Z.shiftl x k) = x * 2 ^ k.
Proof.
  intros Hx Hk Hlt. unfold u64. rewrite Z.shiftl_mul_pow2 by lia.
  apply Z.mod_small. split; [|exact Hlt].
  apply Z.mul_nonneg_nonneg; [lia|]. apply Z.pow_nonneg. lia.
Qed.

(** Evaluates the powers of two with a literal exponent. *)
Ltac eval_pows :=
  repeat match goal with
         | |- context [2 ^ Z.pos ?p] =>
             let x := eval vm_compute in (2 ^ Z.pos p) in
             progress change (2 ^ Z.pos p) with x
         end.

(** Evaluates a closed sum or difference under a power of two. *)
Ltac eval_exponents :=
  repeat match goal with
         | |- context [2 ^ (?a - ?b)] =>
             let x := eval vm_compute in (2 ^ (a - b)) in
             progress change (2 ^ (a - b)) with x
         end.

Ltac clz_step :=
  match goal with
  | |- context [if ?a <=? ?b then _ else _] =>
      destruct (Z.leb_spec a b); cbv beta iota;
      rewrite ?shl_small by (eval_pows; lia); eval_pows
  end.

Lemma count_leading_zeros_64_bounds v :
  0 < v < 2 ^ 64 ->
  exists n,
    count_leading_zeros_64 v = n
    /\ 0 <= n <= 63 /\ 2 ^ (63 - n) <= v < 2 ^ (64 - n).
Proof.
  intros Hv. unfold count_leading_zeros_64.
  replace (v =? 0) with false by (symmetry; apply Z.eqb_neq; lia).
  change (2 ^ 64) with 18446744073709551616 in Hv.
  do 6 clz_step;
    (eexists; split; [reflexivity|]; eval_exponents; lia).
Qed.

(** X14. [count_leading_zeros_64] counts the zero bits above the highest
    set bit of a non-zero 64-bit word, and returns 64 for zero. *)
Theorem count_leading_zeros_64_correct v :
  0 < v < 2 ^ 64 ->
  count_leading_zeros_64 v = 63 - Z.log2 v
  /\ count_leading_zeros_64 0 = 64.
Proof.
  intros Hv. split; [|reflexivity].
  destruct (count_leading_zeros_64_bounds v Hv) as (n & En & Hn & Hb).
  rewrite En.
  assert (E : Z.log2 v = 63 - n).
  { apply Z.log2_unique; [lia|].
    replace (Z.succ (63 - n)) with (64 - n) by lia. exact Hb. }
  lia.
Qed.

(** Evaluates every power of two of a goal whose exponents are closed. *)
Ltac eval_closed_pows :=
  repeat match goal with
         | |- context [2 ^ ?e] =>
             let x := eval vm_compute in (2 ^ e) in
             progress change (2 ^ e) with x
         end.

Ltac mask_to_mod H :=
  first
    [ progress change 4294967295 with (Z.ones 32) in H
    | progress change 65535 with (Z.ones 16) in H
    | progress change 255 with (Z.ones 8) in H
    | progress change 15 with (Z.ones 4) in H
    | progress change 3 with (Z.ones 2) in H
    | progress change 1 with (Z.ones 1) in H ];
  rewrite Z.land_ones in H by lia.

Ltac ctz_step :=
  match goal with
  | |- context [if Z.land ?a ?m =? 0 then _ else _] =>
      let H := fresh "H" in
      destruct (Z.eqb_spec (Z.land a m) 0) as [H|H]; cbv beta iota;
      mask_to_mod H;
      rewrite ?Z.shiftr_div_pow2 by lia
  end.

Lemma count_trailing_zeros_64_bounds v :
  0 < v < 2 ^ 64 ->
  exists n,
    count_trailing_zeros_64 v = n
    /\ 0 <= n <= 63 /\ v mod 2 ^ n = 0 /\ (v / 2 ^ n) mod 2 = 1.
Proof.
  intros Hv. unfold count_trailing_zeros_64.
  replace (v =? 0) with false by (symmetry; apply Z.eqb_neq; lia).
  change (2 ^ 64) with 18446744073709551616 in Hv.
  do 6 ctz_step;
    (eexists; split; [reflexivity|]; eval_closed_pows;
     repeat match goal with
            | H : context [2 ^ ?e] |- _ =>
                let x := eval vm_compute in (2 ^ e) in
                progress change (2 ^ e) with x in H
            end;
     Z.div_mod_to_equations; lia).
Qed.

(** X15. [count_trailing_zeros_64] returns the position of the lowest set
    bit of a non-zero 64-bit word: the word is an odd multiple of 2 to
    that power; for zero it returns 64. *)
Theorem count_trailing_zeros_64_correct v :
  0 < v < 2 ^ 64 ->
  let n := count_trailing_zeros_64 v in
  0 <= n <= 63
  /\ Z.testbit v n = true
  /\ (forall i, 0 <= i < n -> Z.testbit v i = false)
  /\ count_trailing_zeros_64 0 = 64.
Proof.
  intros Hv n.
  destruct (count_trailing_zeros_64_bounds v Hv) as (k & Ek & Hk & Hm & Ho).
  unfold n. rewrite Ek. split; [exact Hk|]. split; [|split; [|reflexivity]].
  - apply Z.testbit_true; [lia|exact Ho].
  - intros i Hi.
    assert (E : Z.testbit (v mod 2 ^ k) i = false)
      by (rewrite Hm; apply Z.testbit_0_l).
    rewrite Z.mod_pow2_bits_low in E by lia. exact E.
Qed.


(* ------------------------------------------------------------------ *)
(** ** The checksum *)
(* ------------------------------------------------------------------ *)

Lemma lxor_range n a b :
  0 <= n -> 0 <= a < 2 ^ n -> 0 <= b < 2 ^ n -> 0 <= Z.lxor a b < 2 ^ n.
Proof.
  intros Hn Ha Hb.
  assert (H0 : 0 <= Z.lxor a b) by (apply Z.lxor_nonneg; lia).
  split; [exact H0|].
  destruct (Z.eq_dec (Z.lxor a b) 0) as [E|E].
  - rewrite E. apply Z.pow_pos_nonneg; lia.
  - apply Z.log2_lt_pow2; [lia|].
    assert (H := Z.log2_lxor a b (proj1 Ha) (proj1 Hb)).
    assert (Hn' : 0 < n).
    { destruct (Z.eq_dec n 0) as [->|]; [|lia].
      change (2 ^ 0) with 1 in Ha, Hb.
      assert (a = 0) by lia. assert (b = 0) by lia. subst a b.
      contradiction E. reflexivity. }
    assert (Z.log2 a < n).
    { destruct (Z.eq_dec a 0) as [->|]; [cbn; lia|].
      apply Z.log2_lt_pow2; lia. }
    assert (Z.log2 b < n).
    { destruct (Z.eq_dec b 0) as [->|]; [cbn; lia|].
      apply Z.log2_lt_pow2; lia. }
    lia.
Qed.

Lemma crc32_table_range i : 0 <= nth i crc32_table 0 < 2 ^ 32.
Proof.
  assert (H : forallb (fun x => (0 <=? x) && (x <? 2 ^ 32)) crc32_table = true)
    by (vm_compute; reflexivity).
  rewrite forallb_forall in H.
  destruct (Nat.lt_ge_cases i (length crc32_table)) as [Hi|Hi].
  - specialize (H _ (nth_In _ 0 Hi)).
    apply andb_true_iff in H. destruct H as (A & B).
    apply Z.leb_le in A. apply Z.ltb_lt in B. lia.
  - rewrite nth_overflow by exact Hi. lia.
Qed.

Lemma crc32_table_entry k :
  0 <= k < 256 -> nth (Z.to_nat k) crc32_table 0 = crc32_entry_loop 8 k.
Proof.
  intros Hk.
  assert (H : forallb
                (fun i => nth i crc32_table 0
                          =? crc32_entry_loop 8 (Z.of_nat i))
                (seq 0 256) = true) by (vm_compute; reflexivity).
  rewrite forallb_forall in H.
  specialize (H (Z.to_nat k)).
  rewrite Z2Nat.id in H by lia.
  apply Z.eqb_eq, H, in_seq. lia.
Qed.

(** One step of the shift register of [do_init_crc32_table]. *)
Lemma crc32_step_lxor c :
  (if Z.land c 1 =? 0 then Z.shiftr c 1
   else Z.lxor 0xEDB88320 (Z.shiftr c 1))
  = Z.lxor (if Z.odd c then 0xEDB88320 else 0) (Z.shiftr c 1).
Proof.
  change 1 with (Z.ones 1) at 1. rewrite Z.land_ones by lia.
  change (2 ^ 1) with 2. rewrite Zmod_odd.
  destruct (Z.odd c); reflexivity.
Qed.

Lemma crc32_entry_loop_lxor j : forall a b,
  crc32_entry_loop j (Z.lxor a b)
  = Z.lxor (crc32_entry_loop j a) (crc32_entry_loop j b).
Proof.
  induction j as [|j IH]; intros a b; cbn [crc32_entry_loop]; [reflexivity|].
  rewrite !crc32_step_lxor, <- IH. f_equal.
  rewrite Z.shiftr_lxor.
  assert (Ho : Z.odd (Z.lxor a b) = xorb (Z.odd a) (Z.odd b))
    by (rewrite <- !Z.bit0_odd; apply Z.lxor_spec).
  rewrite Ho.
  set (x := Z.shiftr a 1). set (y := Z.shiftr b 1).
  destruct (Z.odd a), (Z.odd b); cbn [xorb];
    apply Z.bits_inj'; intros i Hi;
    rewrite ?Z.lxor_spec, ?Z.testbit_0_l;
    repeat match goal with
           | |- context [Z.testbit ?u i] => destruct (Z.testbit u i)
           end; reflexivity.
Qed.

Lemma crc32_entry_loop_shifted j : forall h,
  crc32_entry_loop j (Z.shiftl h (Z.of_nat j)) = h.
Proof.
  induction j as [|j IH]; intros h; cbn [crc32_entry_loop].
  - apply Z.shiftl_0_r.
  - rewrite crc32_step_lxor.
    rewrite Nat2Z.inj_succ.
    assert (E : Z.odd (Z.shiftl h (Z.succ (Z.of_nat j))) = false).
    { rewrite <- Z.bit0_odd. apply Z.shiftl_spec_low. lia. }
    rewrite E, Z.lxor_0_l.
    rewrite Z.shiftr_shiftl_l by lia.
    replace (Z.succ (Z.of_nat j) - 1) with (Z.of_nat j) by lia.
    apply IH.
Qed.

Lemma split_low_byte x :
  x = Z.lxor (Z.land x 0xFF) (Z.shiftl (Z.shiftr x 8) 8).
Proof.
  apply Z.bits_inj'. intros i Hi.
  rewrite Z.lxor_spec, Z.land_spec.
  change 0xFF with (Z.ones 8).
  destruct (Z.lt_ge_cases i 8) as [Hlt|Hge].
  - rewrite Z.ones_spec_low, Z.shiftl_spec_low by lia.
    rewrite andb_true_r, xorb_false_r. reflexivity.
  - rewrite Z.ones_spec_high, Z.shiftl_spec, Z.shiftr_spec by lia.
    rewrite andb_false_r, xorb_false_l. f_equal. lia.
Qed.

(** The table lookup of [crc32] advances the bitwise register by one
    byte. *)
Lemma crc32_lookup_is_bitwise c b :
  0 <= b < 256 ->
  Z.lxor (nth (Z.to_nat (Z.land (Z.lxor c b) 0xFF)) crc32_table 0)
         (Z.shiftr c 8)
  = crc32_entry_loop 8 (Z.lxor c b).
Proof.
  intros Hb.
  set (x := Z.lxor c b).
  assert (Hlow : 0 <= Z.land x 0xFF < 256).
  { change 0xFF with (Z.ones 8). rewrite Z.land_ones by lia.
    apply Z.mod_pos_bound. lia. }
  rewrite crc32_table_entry by exact Hlow.
  rewrite (split_low_byte x) at 2.
  rewrite crc32_entry_loop_lxor.
  pose proof (crc32_entry_loop_shifted 8 (Z.shiftr x 8)) as Hs.
  change (Z.of_nat 8) with 8 in Hs. rewrite Hs. f_equal.
  unfold x. rewrite Z.shiftr_lxor.
  assert (E : Z.shiftr b 8 = 0).
  { rewrite Z.shiftr_div_pow2 by lia. apply Z.div_small. cbn. lia. }
  rewrite E, Z.lxor_0_r. reflexivity.
Qed.

Lemma crc32_range (data : list Z) : 0 <= crc32 data < 2 ^ 32.
Proof.
  unfold crc32. apply lxor_range; [lia| |cbn; lia].
  assert (G : forall c, 0 <= c < 2 ^ 32 ->
            0 <= fold_left
                   (fun c b =>
                      Z.lxor
                        (nth (Z.to_nat (Z.land (Z.lxor c b) 0xFF))
                           crc32_table 0)
                        (Z.shiftr c 8)) data c < 2 ^ 32).
  { induction data as [|b data IH]; intros c Hc; cbn [fold_left].
    - exact Hc.
    - apply IH. apply lxor_range; [lia|apply crc32_table_range|].
      rewrite Z.shiftr_div_pow2 by lia. split.
      + apply Z.div_pos; lia.
      + apply Z.div_lt_upper_bound; lia. }
  apply G. cbn. lia.
Qed.

(** X16. The checksum always fits the 32-bit header field, whatever the
    bytes are, and the 32-bit read of the decoder gives it back
    unchanged. *)
Theorem crc32_fits_32_bits (data : list Z) :
  0 <= crc32 data < 2 ^ 32
  /\ u32 (crc32 data) = crc32 data
  /\ bits_val (bits_of 32 (crc32 data)) = crc32 data.
Proof.
  pose proof (crc32_range data) as H.
  split; [exact H|]. split.
  - unfold u32. apply Z.mod_small. exact H.
  - rewrite bits_val_bits_of. apply Z.mod_small. exact H.
Qed.

(** X17. On bytes, the table-driven [crc32] computes what the shift
    register of [do_init_crc32_table] computes when it is run eight steps
    for each byte on the whole register. *)
Theorem crc32_table_driven_is_bitwise (data : list Z) :
  Forall (fun b => 0 <= b < 256) data ->
  crc32 data
  = Z.lxor
      (fold_left (fun c b => crc32_entry_loop 8 (Z.lxor c b)) data 0xFFFFFFFF)
      0xFFFFFFFF.
Proof.
  intros H. unfold crc32. f_equal.
  generalize 0xFFFFFFFF.
  induction H as [|b data Hb _ IH]; intros c; cbn [fold_left];
    [reflexivity|].
  rewrite crc32_lookup_is_bitwise by exact Hb. apply IH.
Qed.


(* ------------------------------------------------------------------ *)
(** ** The preprocessing helpers *)
(* ------------------------------------------------------------------ *)

Lemma pow10i_loop_exact n : forall r,
  0 <= r -> r * 10 ^ Z.of_nat n < 2 ^ 63 ->
  pow10i_loop n r = r * 10 ^ Z.of_nat n.
Proof.
  induction n as [|n IH]; intros r Hr Hb; cbn [pow10i_loop].
  - rewrite Z.pow_0_r. lia.
  - rewrite Nat2Z.inj_succ, Z.pow_succ_r in * by lia.
    assert (Hp : 0 < 10 ^ Z.of_nat n) by (apply Z.pow_pos_nonneg; lia).
    rewrite i64_small by (unfold in_i64; nia).
    rewrite IH by nia. ring.
Qed.

(** X18. [pow10i] is the exact power of ten for every exponent up to 18,
    the largest one whose power fits [int64_t], and 1 for an exponent
    below 1. *)
Theorem pow10i_exact (n : Z) :
  n <= 18 -> pow10i n = 10 ^ Z.max n 0 /\ 1 <= pow10i n < 2 ^ 63.
Proof.
  intros Hn. unfold pow10i.
  assert (E : pow10i_loop (Z.to_nat n) 1 = 10 ^ Z.max n 0).
  { rewrite pow10i_loop_exact; try lia.
    - rewrite Z.mul_1_l. f_equal. lia.
    - rewrite Z.mul_1_l.
      apply Z.le_lt_trans with (10 ^ 18); [|cbn; lia].
      apply Z.pow_le_mono_r; lia. }
  rewrite E. split; [reflexivity|]. split.
  - assert (0 < 10 ^ Z.max n 0) by (apply Z.pow_pos_nonneg; lia). lia.
  - apply Z.le_lt_trans with (10 ^ 18); [|cbn; lia].
    apply Z.pow_le_mono_r; lia.
Qed.

Lemma i32_small z : - 2 ^ 31 <= z < 2 ^ 31 -> i32 z = z.
Proof. intros H. unfold i32. rewrite Z.mod_small; lia. Qed.

Section Helpers.

Variables fp_sub fp_add fp_scale_round : Z -> Z -> Z.
Variable decimal_places : Z -> Z.

Lemma detect_scale_fold values : forall m,
  let M :=
    fold_left
      (fun max_decimals v =>
         let len := decimal_places v in
         if max_decimals <? len then len else max_decimals)
      values m in
  m <= M
  /\ (forall v, In v values -> decimal_places v <= M)
  /\ (M = m \/ exists v, In v values /\ M = decimal_places v).
Proof.
  induction values as [|v values IH]; intros m; cbn [fold_left].
  - cbv zeta. split; [lia|]. split; [intros v []|left; reflexivity].
  - cbv zeta.
    specialize (IH (if m <? decimal_places v then decimal_places v else m)).
    cbv zeta in IH. destruct IH as (A & B & C).
    destruct (Z.ltb_spec m (decimal_places v)) as [Hlt|Hge].
    + split; [lia|]. split.
      * intros x [<-|Hx]; [exact A|apply B, Hx].
      * right. destruct C as [C|(x & Hx & C)].
        -- exists v. split; [left; reflexivity|exact C].
        -- exists x. split; [right; exact Hx|exact C].
    + split; [lia|]. split.
      * intros x [<-|Hx]; [lia|apply B, Hx].
      * destruct C as [C|(x & Hx & C)]; [left; exact C|].
        right. exists x. split; [right; exact Hx|exact C].
Qed.

Lemma detect_scale_range values :
  0 <= detect_scale decimal_places values <= 6.
Proof.
  unfold detect_scale.
  destruct (detect_scale_fold values 0) as (A & _). cbv zeta in A. lia.
Qed.


Lemma delta_encode_counter_loop_length rest : forall prev,
  length (delta_encode_counter_loop fp_sub prev rest) = length rest.
Proof.
  induction rest as [|v rest IH]; intros prev;
    cbn [delta_encode_counter_loop length]; [reflexivity|].
  rewrite IH. reflexivity.
Qed.

Lemma delta_decode_counter_loop_length rest : forall back,
  length (delta_decode_counter_loop fp_add back rest) = length rest.
Proof.
  induction rest as [|v rest IH]; intros back;
    cbn [delta_decode_counter_loop length]; [reflexivity|].
  cbv zeta. cbn [length]. rewrite IH. reflexivity.
Qed.

Lemma delta_encode_counter_length values :
  length (delta_encode_counter fp_sub values) = length values.
Proof.
  destruct values as [|v0 rest]; cbn [delta_encode_counter length];
    [reflexivity|].
  rewrite delta_encode_counter_loop_length. reflexivity.
Qed.

Lemma delta_decode_counter_length values :
  length (delta_decode_counter fp_add values) = length values.
Proof.
  destruct values as [|v0 rest]; cbn [delta_decode_counter length];
    [reflexivity|].
  rewrite delta_decode_counter_loop_length. reflexivity.
Qed.

Lemma counter_loop_roundtrip rest : forall prev,
  delta_decode_counter_loop fp_add prev
    (delta_encode_counter_loop fp_sub prev rest) = rest
  <-> deltas_exact_from fp_sub fp_add prev rest = true.
Proof.
  induction rest as [|v rest IH]; intros prev;
    cbn [delta_encode_counter_loop delta_decode_counter_loop
         deltas_exact_from].
  - split; reflexivity.
  - cbv zeta. rewrite andb_true_iff, Z.eqb_eq. split.
    + intros H. injection H as H1 H2. rewrite H1 in H2.
      split; [exact H1|apply IH, H2].
    + intros (H1 & H2). rewrite H1. f_equal. apply IH, H2.
Qed.

(** X20. [delta_decode_counter] undoes [delta_encode_counter] exactly
    when every difference, added back to the value before it, gives the
    value again; both keep the length and the first value. *)
Theorem counter_delta_roundtrip_iff (values : list Z) :
  (delta_decode_counter fp_add (delta_encode_counter fp_sub values) = values
   <-> deltas_exact fp_sub fp_add values = true)
  /\ length (delta_encode_counter fp_sub values) = length values
  /\ length (delta_decode_counter fp_add values) = length values
  /\ hd_error (delta_encode_counter fp_sub values) = hd_error values
  /\ hd_error (delta_decode_counter fp_add values) = hd_error values.
Proof.
  split; [|split; [apply delta_encode_counter_length|
                   split; [apply delta_decode_counter_length|
                           split; destruct values; reflexivity]]].
  destruct values as [|v0 rest];
    cbn [delta_encode_counter delta_decode_counter deltas_exact].
  - split; reflexivity.
  - rewrite <- counter_loop_roundtrip. split.
    + intros H. injection H as H. exact H.
    + intros H. rewrite H. reflexivity.
Qed.

Lemma scale_values_length values n :
  length (scale_values fp_scale_round values n) = length values.
Proof.
  unfold scale_values. destruct (n =? 0); [reflexivity|].
  cbv zeta. apply length_map.
Qed.

Lemma preprocess_cases (opts : Options) (values : list Z) :
  let p := preprocess fp_sub fp_scale_round decimal_places opts values in
  let vm := opt_flag (victoria_metrics opts) in
  let counter := opt_flag (is_counter opts) in
  pre_flags p = (if vm then if counter then 3 else 1 else 0)
  /\ length (pre_values p) = length values
  /\ 0 <= pre_scale p < 2 ^ 32
  /\ (vm = false -> pre_values p = values /\ pre_scale p = 0)
  /\ (vm = true ->
      match scale_decimals opts with
      | Some (ScaleInt n) =>
          0 <= n < 2 ^ 31 ->
          pre_scale p = n
          /\ pre_values p
             = scale_values fp_scale_round
                 (if counter then delta_encode_counter fp_sub values
                  else values) n
      | _ => pre_scale p <= 6
      end).
Proof.
  unfold preprocess, opt_flag, pre_flags, pre_scale, pre_values.
  destruct (victoria_metrics opts) as [[|]|]; cbv beta iota zeta.
  2,3: (cbn [fst snd]; repeat split; try lia; try reflexivity;
        intros; discriminate).
  assert (Hu : forall z, 0 <= u32 z < 2 ^ 32)
    by (intros z; unfold u32; apply Z.mod_pos_bound; lia).
  destruct (is_counter opts) as [[|]|]; cbv beta iota zeta; cbn [fst snd];
    (split; [reflexivity|]);
    (split; [rewrite scale_values_length, ?delta_encode_counter_length;
             reflexivity|]);
    (split; [apply Hu|]);
    (split; [intros; discriminate|]); intros _;
    destruct (scale_decimals opts) as [[n|]|];
    try (change (-1 <? 0) with true; cbv beta iota;
         match goal with
         | |- u32 (detect_scale _ ?vs) <= 6 =>
             pose proof (detect_scale_range vs) as H;
             rewrite u32_small by lia; lia
         end);
    intros Hn;
    (rewrite i32_small by lia);
    (replace (n <? 0) with false by (symmetry; apply Z.ltb_ge; lia));
    (split; [apply u32_small; lia|reflexivity]).
Qed.

(** X21. What the option parsing and the preprocessing of
    [nif_gorilla_encode] hand to the codec: the flags are 0, 1 or 3
    (never the counter bit alone), the number of values is unchanged, the
    scale is at most 6 when it is detected, and without
    [victoria_metrics] the values are untouched and the other two options
    change neither flags nor scale. *)
Theorem preprocess_summary (opts : Options) (values : list Z) :
  let p := preprocess fp_sub fp_scale_round decimal_places opts values in
  let vm := opt_flag (victoria_metrics opts) in
  let counter := opt_flag (is_counter opts) in
  pre_flags p = (if vm then if counter then 3 else 1 else 0)
  /\ length (pre_values p) = length values
  /\ 0 <= pre_scale p < 2 ^ 32
  /\ (vm = false -> pre_values p = values /\ pre_scale p = 0)
  /\ (vm = true ->
      match scale_decimals opts with
      | Some (ScaleInt n) =>
          0 <= n < 2 ^ 31 ->
          pre_scale p = n
          /\ pre_values p
             = scale_values fp_scale_round
                 (if counter then delta_encode_counter fp_sub values
                  else values) n
      | _ => pre_scale p <= 6
      end).
Proof. exact (preprocess_cases opts values). Qed.

End Helpers.


(* ------------------------------------------------------------------ *)
(** ** Round trips under any options *)
(* ------------------------------------------------------------------ *)

Lemma combine_fst_snd {A B} (l : list (A * B)) :
  combine (map fst l) (map snd l) = l.
Proof.
  induction l as [|[a b] l IH]; cbn [map combine fst snd];
    [reflexivity|]. rewrite IH. reflexivity.
Qed.

Section RoundTripOptions.

Variables fp_sub fp_add fp_scale_round fp_div_pow10 fp_ratio : Z -> Z -> Z.
Variable decimal_places : Z -> Z.

Local Abbreviation encode :=
  (nif_gorilla_encode fp_sub fp_scale_round fp_ratio decimal_places).
Local Abbreviation decode := (nif_gorilla_decode fp_add fp_div_pow10).
Local Abbreviation decode_body := (decode_packed fp_add fp_div_pow10).
Local Abbreviation pre := (preprocess fp_sub fp_scale_round decimal_places).
Local Abbreviation post := (postprocess fp_add fp_div_pow10).

Lemma preprocess_facts opts values :
  let p := pre opts values in
  (pre_flags p = 0 \/ pre_flags p = 1 \/ pre_flags p = 3)
  /\ 0 <= pre_scale p < 2 ^ 32
  /\ length (pre_values p) = length values
  /\ (pre_v2 p = false -> pre_flags p = 0)
  /\ (opt_flag (victoria_metrics opts) = false ->
      pre_flags p = 0 /\ pre_values p = values).
Proof.
  destruct (preprocess_cases fp_sub fp_scale_round decimal_places opts values)
    as (A & B & C & D & _).
  cbv zeta. unfold pre_v2. rewrite preprocess_v2.
  rewrite A. split; [|split; [exact C|split; [exact B|split]]].
  - destruct (opt_flag (victoria_metrics opts));
      [destruct (opt_flag (is_counter opts))|]; auto.
  - destruct (opt_flag (victoria_metrics opts)); [discriminate|reflexivity].
  - intros Hvm. rewrite Hvm in *. split; [reflexivity|apply D; reflexivity].
Qed.

(** The packed block of a series decodes to the series with the
    postprocessing the flags ask for. *)
Lemma decode_packed_general ts vs c ft fv fd vl flags scale :
  let ts_w := ts_writer (encode_timestamps ts) in
  let val_w := val_writer (encode_values vs) in
  let inner :=
    build_inner_header c ft fv fd (u32 (total_bits ts_w)) vl in
  let packed := fst (to_bytes (pack_payload inner ts_w val_w)) in
  ts <> [] -> length ts = length vs ->
  Forall in_i64 ts -> Forall in_u64 vs ->
  forallb code_fits (timestamp_codes ts) = true ->
  total_bits ts_w < 2 ^ 32 ->
  decode_body packed (Z.of_nat (length packed)) (Z.of_nat (length ts))
    flags scale
  = Ok (combine ts (post flags scale vs))
  /\ Z.of_nat (length packed) * 8
     = 256 + total_bits ts_w + total_bits val_w
       + (8 - (total_bits ts_w + total_bits val_w) mod 8) mod 8.
Proof.
  intros ts_w val_w inner packed Hne Hlen Hts Hvs Hfit Hsz.
  destruct (decode_packed_spec fp_add fp_div_pow10 ts vs c ft fv fd vl
              Hne Hlen Hts Hvs Hfit Hsz) as (_ & Hsize).
  fold ts_w val_w inner packed in Hsize. split; [|exact Hsize].
  destruct (encode_timestamps_spec ts) as (_ & Hts_ok).
  destruct (encode_values_spec vs) as (_ & Hval_ok).
  fold ts_w in Hts_ok. fold val_w in Hval_ok.
  destruct (build_inner_header_spec c ft fv fd (u32 (total_bits ts_w)) vl)
    as (Hinner & Hinner_len). fold inner in Hinner, Hinner_len.
  destruct (pack_payload_spec inner ts_w val_w Hts_ok Hval_ok)
    as (pad & Hbits & Hpad & Hok & Hmod).
  destruct (to_bytes_aligned _ Hok Hmod) as (_ & Hpacked & Hplen).
  fold packed in Hpacked, Hplen.
  rewrite Hbits, Hinner in Hpacked.
  assert (Hts0 : 0 <= total_bits ts_w)
    by (rewrite (total_bits_wbits _ Hts_ok); lia).
  assert (Hval0 : 0 <= total_bits val_w)
    by (rewrite (total_bits_wbits _ Hval_ok); lia).
  pose proof (Z.mod_pos_bound (8 - (total_bits ts_w + total_bits val_w) mod 8)
                8 ltac:(lia)) as Hpadb.
  unfold decode_packed.
  assert (Hcount : 0 < Z.of_nat (length ts))
    by (destruct ts; [congruence|cbn [length]; lia]).
  replace (Z.of_nat (length ts) =? 0) with false
    by (symmetry; apply Z.eqb_neq; lia).
  replace (Z.of_nat (length packed) <? 32) with false
    by (symmetry; apply Z.ltb_ge; lia).
  pose proof (Reads_start packed _ Hpacked) as HR0.
  set (r0 := mkBitReader packed (Z.of_nat (length packed) * 8) 0) in *.
  pose proof HR0 as HR. unfold inner_header_bits in HR.
  rewrite <- !app_assoc in HR.
  read_field HR. read_field HR. read_field HR. read_field HR.
  read_field HR. read_field HR.
  rewrite u32_mod
    by (unfold u32; apply Z.mod_pos_bound; lia).
  rewrite (u32_small (total_bits ts_w)) by lia.
  destruct (skip_bits_Reads 256 r0 _ _ HR0 (inner_header_bits_length _ _ _ _ _ _))
    as (rt & Et & HRt).
  change (Z.to_nat 256) with 256%nat. rewrite Et.
  destruct (decode_timestamps_spec ts rt _ HRt Hts Hfit) as (rt' & Et' & HRt').
  rewrite Et'.
  pose proof HR0 as HRv. rewrite app_assoc in HRv.
  destruct (skip_bits_Reads (Z.to_nat (256 + total_bits ts_w)) r0 _ _ HRv)
    as (rv & Ev & HRv').
  { rewrite length_app, inner_header_bits_length.
    rewrite (total_bits_wbits _ Hts_ok). lia. }
  rewrite Ev.
  rewrite Hlen.
  destruct (decode_values_spec vs rv _ HRv' Hvs) as (rv' & Ev' & _).
  rewrite Ev'. reflexivity.
Qed.

Lemma post_without_flags scale vs : post 0 scale vs = vs.
Proof. reflexivity. Qed.

(** Decoding an encoded series gives the timestamps back, and the values
    that postprocessing makes of the preprocessed ones. *)
Lemma decode_encode_general data opts creation_time :
  let p := pre opts (map snd data) in
  let ts := map fst data in
  Forall in_i64 ts -> Forall in_u64 (pre_values p) ->
  forallb code_fits (timestamp_codes ts) = true ->
  256 + total_bits (ts_writer (encode_timestamps ts))
  + total_bits (val_writer (encode_values (pre_values p))) < 2 ^ 32 ->
  decode (encode data opts creation_time)
  = Ok (combine ts (post (pre_flags p) (pre_scale p) (pre_values p))).
Proof.
  intros p ts Hts Hvs Hfit Hsz.
  destruct data as [|s0 data']; [reflexivity|].
  set (data := s0 :: data') in *.
  unfold nif_gorilla_encode.
  replace (length data =? 0)%nat with false by reflexivity.
  destruct (preprocess_facts opts (map snd data))
    as (Hfl & Hsc & Hlenp & Hv2 & _).
  fold p in Hfl, Hsc, Hlenp, Hv2.
  unfold pre_flags, pre_scale, pre_values, pre_v2 in *.
  fold p. destruct p as [[[flags sd] values] v2].
  cbn [fst snd] in *.
  cbv beta iota zeta. unfold float_to_bits.
  fold ts.
  set (ts_w := ts_writer (encode_timestamps ts)) in *.
  set (val_w := val_writer (encode_values values)) in *.
  assert (Hne : ts <> []) by (unfold ts, data; cbn [map]; congruence).
  assert (Hlen : length ts = length values)
    by (rewrite Hlenp; unfold ts; rewrite !length_map; reflexivity).
  pose proof (encode_timestamps_count ts) as Hcnt. fold ts_w in Hcnt.
  destruct (encode_values_spec values) as (_ & Hval_ok).
  fold val_w in Hval_ok.
  assert (Hval0 : 0 <= total_bits val_w)
    by (rewrite (total_bits_wbits _ Hval_ok); lia).
  match goal with
  | |- context [pack_payload (build_inner_header ?c ?ft ?fv ?fd ?tl ?vl)] =>
      destruct (decode_packed_general ts values c ft fv fd vl flags
                  (if v2 then sd else 0) Hne Hlen Hts Hvs Hfit)
        as (Hdec & Hplen); [fold ts_w; lia|]
  end.
  fold ts_w val_w in Hdec, Hplen.
  set (packed := fst (to_bytes (pack_payload _ ts_w val_w))) in *.
  pose proof (Z.mod_pos_bound (8 - (total_bits ts_w + total_bits val_w) mod 8)
                8 ltac:(lia)) as Hpad.
  assert (Hpk : Z.of_nat (length packed) < 2 ^ 32) by lia.
  rewrite (u32_small (Z.of_nat (length packed))) by lia.
  rewrite decode_built_header.
  - rewrite u32_small by lia. rewrite Hdec. do 2 f_equal.
    destruct v2; [reflexivity|].
    rewrite (Hv2 eq_refl). reflexivity.
  - unfold u32. apply Z.mod_pos_bound. lia.
  - exact Hpk.
  - lia.
  - lia.
Qed.

Lemma post_length flags scale vs : length (post flags scale vs) = length vs.
Proof.
  unfold postprocess.
  destruct (negb (Z.land flags 1 =? 0)); [|reflexivity].
  destruct (negb (Z.land flags 2 =? 0));
    [rewrite delta_decode_counter_length|];
    destruct (0 <? scale); rewrite ?length_map; reflexivity.
Qed.

(** X22. For any options, decoding an encoded series gives every
    timestamp back, and for the values what the decoder's postprocessing
    makes of the values the encoder preprocessed: the codec between the
    two passes is lossless.  The preconditions are those of the codec, on
    the preprocessed values. *)
Theorem roundtrip_through_preprocessing data opts creation_time :
  let p := preprocess fp_sub fp_scale_round decimal_places opts (map snd data) in
  let ts := map fst data in
  Forall in_i64 ts -> Forall in_u64 (pre_values p) ->
  forallb code_fits (timestamp_codes ts) = true ->
  256 + total_bits (ts_writer (encode_timestamps ts))
  + total_bits (val_writer (encode_values (pre_values p))) < 2 ^ 32 ->
  exists values,
    nif_gorilla_decode fp_add fp_div_pow10
      (nif_gorilla_encode fp_sub fp_scale_round fp_ratio decimal_places
         data opts creation_time)
    = Ok (combine ts values)
    /\ values
       = postprocess fp_add fp_div_pow10 (pre_flags p) (pre_scale p)
           (pre_values p)
    /\ length values = length data.
Proof.
  intros p ts Hts Hvs Hfit Hsz.
  eexists. split; [apply decode_encode_general; assumption|].
  split; [reflexivity|].
  rewrite post_length.
  destruct (preprocess_facts opts (map snd data)) as (_ & _ & Hl & _).
  unfold p. rewrite Hl. apply length_map.
Qed.

(** X23. Without [victoria_metrics] the round trip is exact whatever
    the other options are: [is_counter] and [scale_decimals] alone change
    no value. *)
Theorem roundtrip_without_victoria_metrics data opts creation_time :
  opt_flag (victoria_metrics opts) = false ->
  Forall valid_sample data ->
  forallb code_fits (timestamp_codes (map fst data)) = true ->
  payload_bits data < 2 ^ 32 ->
  nif_gorilla_decode fp_add fp_div_pow10
    (nif_gorilla_encode fp_sub fp_scale_round fp_ratio decimal_places
       data opts creation_time)
  = Ok data.
Proof.
  intros Hvm Hvalid Hfit Hsz.
  destruct (preprocess_facts opts (map snd data)) as (_ & _ & _ & _ & H).
  destruct (H Hvm) as (Hfl & Hvals). clear H.
  rewrite decode_encode_general.
  - rewrite Hfl, Hvals, post_without_flags, combine_fst_snd. reflexivity.
  - apply Forall_map. revert Hvalid. apply Forall_impl.
    intros s (A & _). exact A.
  - rewrite Hvals. apply Forall_map. revert Hvalid. apply Forall_impl.
    intros s (_ & B). exact B.
  - exact Hfit.
  - rewrite Hvals. exact Hsz.
Qed.

End RoundTripOptions.


(* ------------------------------------------------------------------ *)
(** ** What a successful decode guarantees *)
(* ------------------------------------------------------------------ *)

Lemma decode_timestamps_loop_length n : forall r acc pd l r',
  decode_timestamps_loop n r acc pd = Some (l, r') ->
  length l = (length acc + n)%nat.
Proof.
  induction n as [|n IH]; intros r acc pd l r' H;
    cbn [decode_timestamps_loop] in H.
  - injection H as <- _. lia.
  - destruct (decode_delta_of_delta r) as [[dod r1]|]; [|discriminate].
    cbv zeta in H. apply IH in H. rewrite H, length_app. cbn [length]. lia.
Qed.

Lemma decode_timestamps_length r count l r' :
  0 <= count ->
  decode_timestamps r count = Some (l, r') -> Z.of_nat (length l) = count.
Proof.
  intros Hc H. unfold decode_timestamps in H.
  destruct (Z.eqb_spec count 0) as [E0|E0].
  - injection H as <- _. cbn [length]. lia.
  - destruct (read r 64) as [[raw r1]|]; [|discriminate].
    cbv zeta in H.
    destruct (Z.eqb_spec count 1) as [E1|E1].
    + injection H as <- _. cbn [length]. lia.
    + destruct (decode_first_delta r1) as [[fd r2]|]; [|discriminate].
      cbv zeta in H. apply decode_timestamps_loop_length in H.
      rewrite H. cbn [length]. lia.
Qed.

Lemma decode_values_loop_length n : forall r acc pb pl pt l r',
  decode_values_loop n r acc pb pl pt = Some (l, r') ->
  length l = (length acc + n)%nat.
Proof.
  induction n as [|n IH]; intros r acc pb pl pt l r' H;
    cbn [decode_values_loop] in H.
  - injection H as <- _. lia.
  - destruct (read_bit r) as [[b1 r1]|]; [|discriminate].
    destruct (b1 =? 0).
    { apply IH in H. rewrite H, length_app. cbn [length]. lia. }
    destruct (read_bit r1) as [[b2 r2]|]; [|discriminate].
    destruct (b2 =? 0).
    + cbv zeta in H.
      destruct (read r2 (64 - pl - pt)) as [[mv r3]|]; [|discriminate].
      apply IH in H. rewrite H, length_app. cbn [length]. lia.
    + destruct (read r2 5) as [[ld r3]|]; [|discriminate].
      destruct (read r3 6) as [[l1 r4]|]; [|discriminate].
      cbv zeta in H.
      destruct (read r4 (l1 + 1)) as [[mv r5]|]; [|discriminate].
      apply IH in H. rewrite H, length_app. cbn [length]. lia.
Qed.

Lemma decode_values_length r count l r' :
  0 <= count ->
  decode_values r count = Some (l, r') -> Z.of_nat (length l) = count.
Proof.
  intros Hc H. unfold decode_values in H.
  destruct (Z.eqb_spec count 0) as [E0|E0].
  - injection H as <- _. cbn [length]. lia.
  - destruct (read r 64) as [[raw r1]|]; [|discriminate].
    destruct (Z.eqb_spec count 1) as [E1|E1].
    + injection H as <- _. cbn [length]. lia.
    + apply decode_values_loop_length in H. rewrite H. cbn [length]. lia.
Qed.

Section DecodeSound.

Variables fp_add fp_div_pow10 : Z -> Z -> Z.

Lemma decode_packed_length packed cs count flags sc l :
  0 <= count ->
  decode_packed fp_add fp_div_pow10 packed cs count flags sc = Ok l ->
  Z.of_nat (length l) = count /\ (count <> 0 -> 32 <= cs).
Proof.
  intros Hc H. unfold decode_packed in H.
  destruct (Z.eqb_spec count 0) as [E0|E0].
  { injection H as <-. cbn [length]. split; [lia|congruence]. }
  destruct (Z.ltb_spec cs 32) as [E32|E32]; [discriminate|].
  split; [|intros _; exact E32].
  destruct (read _ 32) as [[x1 r1]|]; [|discriminate].
  destruct (read r1 64) as [[x2 r2]|]; [|discriminate].
  destruct (read r2 64) as [[x3 r3]|]; [|discriminate].
  destruct (read_signed r3 32) as [[x4 r4]|]; [|discriminate].
  destruct (read r4 32) as [[x5 r5]|]; [|discriminate].
  cbv zeta in H.
  destruct (read r5 32) as [[x6 r6]|]; [|discriminate].
  destruct (skip_bits _ _) as [rt|]; [|discriminate].
  destruct (decode_timestamps rt count) as [[ts rt']|] eqn:Ets;
    [|discriminate].
  destruct (skip_bits _ _) as [rv|]; [|discriminate].
  destruct (decode_values rv count) as [[vs rv']|] eqn:Evs;
    [|discriminate].
  apply decode_timestamps_length in Ets; [|exact Hc].
  apply decode_values_length in Evs; [|exact Hc].
  cbv beta iota zeta delta [lift_reader] in H.
  injection H as <-.
  match goal with
  | |- context [combine ts ?v] =>
      change v with (postprocess fp_add fp_div_pow10 flags sc vs)
  end.
  rewrite length_combine, post_length. lia.
Qed.

(** X24. A buffer that decodes is either empty, or starts with a valid
    outer header: the magic, a version of at most 1, a header size of 80
    or 84, a compressed size that fits the buffer; the list returned has
    exactly as many samples as the count field says, and a non-zero count
    needs a packed block of 32 bytes or more. *)
Theorem decode_success_means (data : list Z) (samples : list (Z * Z)) :
  nif_gorilla_decode fp_add fp_div_pow10 data = Ok samples ->
  (data = [] /\ samples = [])
  \/ (80 <= Z.of_nat (length data)
      /\ field data 0 64 = GORILLA_MAGIC
      /\ field data 64 16 <= GORILLA_VERSION
      /\ (field data 80 16 = 80 \/ field data 80 16 = 84)
      /\ field data 80 16 + field data 128 32 <= Z.of_nat (length data)
      /\ Z.of_nat (length samples) = field data 96 32
      /\ (field data 96 32 <> 0 -> 32 <= field data 128 32)).
Proof.
  rewrite decode_outline_eq. unfold decode_outline.
  destruct data as [|b0 data'].
  { intros H. left. injection H as <-. split; reflexivity. }
  set (data := b0 :: data').
  replace (length data =? 0)%nat with false by reflexivity.
  cbv zeta. intros H. right.
  destruct (Z.ltb_spec (Z.of_nat (length data)) 80) as [E80|E80];
    [discriminate|].
  destruct (Z.eqb_spec (field data 0 64) GORILLA_MAGIC) as [Em|Em];
    [|discriminate].
  cbn [negb] in H.
  destruct (Z.ltb_spec GORILLA_VERSION (field data 64 16)) as [Ev|Ev];
    [discriminate|].
  destruct (negb (field data 80 16 =? 80) && negb (field data 80 16 =? 84))
    eqn:Ehs; [discriminate|].
  destruct (Z.ltb_spec (Z.of_nat (length data)) (field data 80 16))
    as [El|El]; [discriminate|].
  destruct (Z.ltb_spec (Z.of_nat (length data))
              (field data 80 16 + field data 128 32)) as [Ec|Ec];
    [discriminate|].
  apply decode_packed_length in H; [|apply field_range; lia].
  destruct H as (Hn & Hcs).
  repeat split; try assumption.
  apply andb_false_iff in Ehs.
  destruct Ehs as [E|E]; apply negb_false_iff, Z.eqb_eq in E; auto.
Qed.

End DecodeSound.


(* ------------------------------------------------------------------ *)
(** ** The layout of an encoded buffer *)
(* ------------------------------------------------------------------ *)

Lemma field_bits data l p n :
  bytes_bits data = l ->
  field data p n = bits_val (firstn (Z.to_nat n) (skipn (Z.to_nat p) l)).
Proof. intros <-. reflexivity. Qed.

Lemma skipn_bits_of_app k n v l k' :
  (k = n + k')%nat -> skipn k (bits_of n v ++ l) = skipn k' l.
Proof.
  intros ->. rewrite skipn_app, bits_of_length.
  rewrite skipn_all2 by (rewrite bits_of_length; lia).
  replace (n + k' - n)%nat with k' by lia. reflexivity.
Qed.

Lemma firstn_bits_of_app n v l : firstn n (bits_of n v ++ l) = bits_of n v.
Proof.
  rewrite firstn_app, bits_of_length, Nat.sub_diag.
  rewrite firstn_all2 by (rewrite bits_of_length; lia).
  cbn [firstn]. apply app_nil_r.
Qed.

(** Evaluates a field of a buffer whose bits [Hb] spells out. *)
Ltac field_eval Hb :=
  rewrite (field_bits _ _ _ _ Hb);
  repeat match goal with
         | |- context [Z.to_nat ?n] =>
             let k := eval vm_compute in (Z.to_nat n) in
             progress change (Z.to_nat n) with k
         end;
  repeat match goal with
         | |- context [skipn ?k (bits_of ?n ?v ++ ?l)] =>
             let k' := eval vm_compute in (k - n)%nat in
             rewrite (skipn_bits_of_app k n v l k')
               by (vm_compute; reflexivity)
         end;
  change (skipn 0) with (fun l : list bool => l); cbv beta;
  rewrite firstn_bits_of_app, bits_val_bits_of.

Section Layout.

Variables fp_sub fp_scale_round fp_ratio : Z -> Z -> Z.
Variable decimal_places : Z -> Z.

Local Abbreviation encode :=
  (nif_gorilla_encode fp_sub fp_scale_round fp_ratio decimal_places).
Local Abbreviation pre := (preprocess fp_sub fp_scale_round decimal_places).

(** The bits of an encoded buffer: outer header, inner header, the two
    sub-streams, padding. *)
Lemma encode_bits data opts creation_time :
  data <> [] ->
  let p := pre opts (map snd data) in
  let out := encode data opts creation_time in
  let ts_result := encode_timestamps (map fst data) in
  let val_result := encode_values (pre_values p) in
  let count := u32 (Z.of_nat (length data)) in
  let ft := ts_first_timestamp ts_result in
  let fd := i32 (ts_first_delta ts_result) in
  let fv := val_first_value val_result in
  let tl := u32 (total_bits (ts_writer ts_result)) in
  let vl := u32 (total_bits (val_writer val_result)) in
  let hs := if pre_v2 p then 84 else 80 in
  exists packed tb cr pad,
    bytes_bits out
    = outer_header_bits count (u32 (Z.of_nat (length packed)))
        (crc32 packed) ft fd fv tl vl tb cr creation_time
        (pre_flags p) (pre_scale p) (pre_v2 p)
      ++ inner_header_bits count ft fv fd tl vl
      ++ wbits (ts_writer ts_result) ++ wbits (val_writer val_result)
      ++ repeat false pad
    /\ (pad < 8)%nat
    /\ Z.of_nat (length out) = hs + Z.of_nat (length packed)
    /\ skipn (Z.to_nat hs) out = packed
    /\ Z.of_nat (length packed) * 8
       = 256 + total_bits (ts_writer ts_result)
         + total_bits (val_writer val_result) + Z.of_nat pad.
Proof.
  intros Hne p out ts_result val_result count ft fd fv tl vl hs.
  unfold out, nif_gorilla_encode.
  destruct data as [|s0 data']; [congruence|].
  set (data := s0 :: data') in *.
  replace (length data =? 0)%nat with false by reflexivity.
  unfold hs, pre_flags, pre_scale, pre_v2, pre_values in *.
  subst val_result. subst vl. subst fv. fold p.
  destruct p as [[[flags sd] values] v2]. cbn [fst snd] in *.
  cbv beta iota zeta. unfold float_to_bits.
  rewrite !length_map. fold count ts_result ft fd tl.
  set (val_result := encode_values values).
  set (ts_w := ts_writer ts_result). set (val_w := val_writer val_result).
  destruct (encode_timestamps_spec (map fst data)) as (_ & Hts_ok).
  destruct (encode_values_spec values) as (_ & Hval_ok).
  fold ts_result ts_w in Hts_ok. fold val_result val_w in Hval_ok.
  set (inner := build_inner_header count ft (val_first_value val_result) fd tl
                  (u32 (total_bits val_w))).
  destruct (build_inner_header_spec count ft (val_first_value val_result) fd
              tl (u32 (total_bits val_w))) as (Hinner & Hinner_len).
  fold inner in Hinner, Hinner_len.
  destruct (pack_payload_spec inner ts_w val_w Hts_ok Hval_ok)
    as (pad & Hbits & Hpad & Hok & Hmod).
  destruct (to_bytes_aligned _ Hok Hmod) as (_ & Hpacked & Hplen).
  set (packed := fst (to_bytes (pack_payload inner ts_w val_w))) in *.
  rewrite Hbits, Hinner in Hpacked.
  match goal with
  | |- context [build_outer_header ?c ?cs ?crc ?a ?b ?d ?e ?f ?tb ?cr ?ct ?fl
                  ?sc v2 ++ packed] =>
      destruct (build_outer_header_spec c cs crc a b d e f tb cr ct fl sc v2)
        as (Hhb & Hhl);
      set (hdr := build_outer_header c cs crc a b d e f tb cr ct fl sc v2)
        in *;
      exists packed, tb, cr, pad
  end.
  split; [rewrite bytes_bits_app, Hhb, Hpacked; reflexivity|].
  split; [exact Hpad|].
  split; [rewrite length_app, Hhl; destruct v2; lia|].
  split.
  - replace (Z.to_nat (if v2 then 84 else 80)) with (length hdr)
      by (rewrite Hhl; destruct v2; reflexivity).
    rewrite skipn_app, skipn_all, Nat.sub_diag. reflexivity.
  - rewrite Hplen, (total_bits_wbits _ Hok), Hbits, Hinner.
    rewrite !length_app, inner_header_bits_length, repeat_length.
    rewrite (total_bits_wbits _ Hts_ok), (total_bits_wbits _ Hval_ok). lia.
Qed.

Lemma encode_fields data opts creation_time :
  data <> [] ->
  let p := preprocess fp_sub fp_scale_round decimal_places opts (map snd data) in
  let out :=
    nif_gorilla_encode fp_sub fp_scale_round fp_ratio decimal_places
      data opts creation_time in
  let hs := if pre_v2 p then 84 else 80 in
  field out 0 64 = GORILLA_MAGIC
  /\ field out 64 16 = GORILLA_VERSION
  /\ field out 80 16 = hs
  /\ field out 96 32 = u32 (Z.of_nat (length data))
  /\ field out 128 32 = u32 (Z.of_nat (length out) - hs)
  /\ field out 160 32 = u32 (u32 (Z.of_nat (length data)) * 16)
  /\ field out 192 32 = crc32 (skipn (Z.to_nat hs) out)
  /\ field out 608 32 = pre_flags p
  /\ (pre_v2 p = true -> field out 640 32 = pre_scale p).
Proof.
  intros Hne p out hs.
  destruct (encode_bits data opts creation_time Hne)
    as (packed & tb & cr & pad & Hb & _ & Hlen & Hskip & _).
  fold p out hs in Hb, Hlen, Hskip.
  destruct (preprocess_facts fp_sub fp_scale_round decimal_places opts
              (map snd data)) as (Hfl & Hsc & _).
  fold p in Hfl, Hsc.
  unfold outer_header_bits in Hb. rewrite <- !app_assoc in Hb.
  replace (Z.of_nat (length out) - hs) with (Z.of_nat (length packed)) by lia.
  rewrite Hskip.
  repeat split.
  - field_eval Hb. reflexivity.
  - field_eval Hb. reflexivity.
  - field_eval Hb. unfold hs. destruct (pre_v2 p); reflexivity.
  - field_eval Hb. unfold u32. apply Z.mod_mod. lia.
  - field_eval Hb. unfold u32. apply Z.mod_mod. lia.
  - field_eval Hb. unfold u32. apply Z.mod_mod. lia.
  - field_eval Hb. apply Z.mod_small, crc32_range.
  - field_eval Hb. apply Z.mod_small.
    change (Z.of_nat 32) with 32. lia.
  - intros Hv2. rewrite Hv2 in Hb. field_eval Hb.
    apply Z.mod_small. exact Hsc.
Qed.

(** X25. The outer header the encoder writes, for any options: magic,
    version, a header size of 80 or 84, the sample count, the size of
    the packed block (the rest of the buffer), the raw size of 16 bytes a
    sample, the CRC-32 of the packed block, the flags and, in an 84-byte
    header, the scale; count and sizes are stored modulo 2^32. *)
Theorem encoded_header_fields data opts creation_time :
  data <> [] ->
  let p := preprocess fp_sub fp_scale_round decimal_places opts (map snd data) in
  let out :=
    nif_gorilla_encode fp_sub fp_scale_round fp_ratio decimal_places
      data opts creation_time in
  let hs := if pre_v2 p then 84 else 80 in
  field out 0 64 = GORILLA_MAGIC
  /\ field out 64 16 = GORILLA_VERSION
  /\ field out 80 16 = hs
  /\ field out 96 32 = u32 (Z.of_nat (length data))
  /\ field out 128 32 = u32 (Z.of_nat (length out) - hs)
  /\ field out 160 32 = u32 (u32 (Z.of_nat (length data)) * 16)
  /\ field out 192 32 = crc32 (skipn (Z.to_nat hs) out)
  /\ field out 608 32 = pre_flags p
  /\ (pre_v2 p = true -> field out 640 32 = pre_scale p).
Proof. exact (encode_fields data opts creation_time). Qed.


(** X26. The inner header of an encoded buffer repeats six fields of the
    outer header, and the encoder writes the same numbers in both places:
    count, first timestamp, first value bits, first delta and the two
    bit lengths. *)
Theorem inner_header_repeats_outer data opts creation_time :
  data <> [] ->
  let p := preprocess fp_sub fp_scale_round decimal_places opts (map snd data) in
  let out :=
    nif_gorilla_encode fp_sub fp_scale_round fp_ratio decimal_places
      data opts creation_time in
  let hs := if pre_v2 p then 84 else 80 in
  field out (8 * hs) 32 = field out 96 32
  /\ field out (8 * hs + 32) 64 = field out 224 64
  /\ field out (8 * hs + 96) 64 = field out 320 64
  /\ field out (8 * hs + 160) 32 = field out 288 32
  /\ field out (8 * hs + 192) 32 = field out 384 32
  /\ field out (8 * hs + 224) 32 = field out 416 32
  /\ field out 224 64 = u64 (fst (hd (0, 0) data))
  /\ field out 320 64 = u64 (hd 0 (pre_values p)).
Proof.
  intros Hne p out hs.
  destruct (encode_bits data opts creation_time Hne)
    as (packed & tb & cr & pad & Hb & _).
  fold p out hs in Hb.
  unfold outer_header_bits, inner_header_bits in Hb.
  rewrite <- !app_assoc in Hb.
  assert (Hft : ts_first_timestamp (encode_timestamps (map fst data))
                = fst (hd (0, 0) data)).
  { destruct data as [|s0 [|s1 data']]; [congruence|reflexivity|reflexivity]. }
  assert (Hfv : val_first_value (encode_values (pre_values p))
                = hd 0 (pre_values p)).
  { destruct (pre_values p); reflexivity. }
  rewrite Hft, Hfv in Hb.
  unfold hs. destruct (pre_v2 p); cbv iota in Hb; cbn [app] in Hb;
    (repeat split; repeat field_eval Hb; reflexivity).
Qed.

Lemma changes_range vs : forall prev,
  0 <= changes prev vs <= Z.of_nat (length vs).
Proof.
  induction vs as [|v vs IH]; intros prev; cbn [changes length]; [lia|].
  specialize (IH v). destruct (Z.lxor v prev =? 0); lia.
Qed.

Lemma ts_bits_bounds t0 rest :
  64 + Z.of_nat (length rest)
  <= total_bits (ts_writer (encode_timestamps (t0 :: rest)))
  <= 64 + 36 * Z.of_nat (length rest).
Proof.
  destruct (encode_timestamps_spec (t0 :: rest)) as (A & B).
  rewrite (total_bits_wbits _ B), A.
  rewrite length_app, bits_of_length.
  pose proof (flat_map_length_ge bucket_code (timestamp_codes (t0 :: rest))
                bucket_code_length_ge) as Hge.
  pose proof (flat_map_length_le bucket_code 36 (timestamp_codes (t0 :: rest))
                bucket_code_length_le) as Hle.
  assert (Hc : length (timestamp_codes (t0 :: rest)) = length rest).
  { destruct rest as [|t1 rest']; cbn [timestamp_codes length];
      [reflexivity|]. rewrite dod_codes_length. reflexivity. }
  rewrite Hc in Hge, Hle. lia.
Qed.

Lemma val_bits_bounds v0 rest :
  64 + Z.of_nat (length rest)
  <= total_bits (val_writer (encode_values (v0 :: rest)))
  <= 64 + 66 * Z.of_nat (length rest).
Proof.
  destruct (encode_values_spec (v0 :: rest)) as (A & B).
  rewrite (total_bits_wbits _ B), A.
  rewrite length_app, bits_of_length, Nat2Z.inj_add, xor_codes_length.
  pose proof (changes_range rest v0). lia.
Qed.

(** X27. Size of an encoded buffer of [n] samples, for any options and
    any values: the headers (80 or 84 bytes, then 32), the two 64-bit
    first entries, and between 2 and 102 bits for every further sample,
    rounded up to a byte. *)
Theorem encoded_size_bounds data opts creation_time :
  data <> [] ->
  let out :=
    nif_gorilla_encode fp_sub fp_scale_round fp_ratio decimal_places
      data opts creation_time in
  let n := Z.of_nat (length data) in
  8 * 128 + 2 * (n - 1) <= 8 * Z.of_nat (length out)
  /\ 8 * Z.of_nat (length out) <= 8 * 132 + 102 * (n - 1) + 7.
Proof.
  intros Hne out n.
  destruct (encode_bits data opts creation_time Hne)
    as (packed & tb & cr & pad & _ & Hpad & Hlen & _ & Hbits).
  fold out in Hlen.
  destruct (preprocess_facts fp_sub fp_scale_round decimal_places opts
              (map snd data)) as (_ & _ & Hl & _).
  rewrite length_map in Hl.
  destruct data as [|s0 data']; [congruence|].
  cbn [map] in Hbits.
  destruct (pre_values _) as [|v0 vs]; [discriminate|].
  pose proof (ts_bits_bounds (fst s0) (map fst data')) as Ht.
  pose proof (val_bits_bounds v0 vs) as Hv.
  rewrite length_map in Ht. cbn [length] in Hl.
  assert (Hvs : length vs = length data') by lia. rewrite Hvs in Hv.
  unfold n. cbn [length]. rewrite Nat2Z.inj_succ.
  destruct (pre_v2 _); split; lia.
Qed.

End Layout.


(* ------------------------------------------------------------------ *)
(** ** Truncated buffers *)
(* ------------------------------------------------------------------ *)

Lemma bytes_bits_firstn k : forall data,
  bytes_bits (firstn k data) = firstn (8 * k) (bytes_bits data).
Proof.
  induction k as [|k IH]; intros data.
  - reflexivity.
  - destruct data as [|b data]; [reflexivity|].
    cbn [firstn]. rewrite !bytes_bits_cons, IH.
    replace (8 * S k)%nat with (length (bits_of 8 b) + 8 * k)%nat
      by (rewrite bits_of_length; lia).
    rewrite firstn_app_2. reflexivity.
Qed.

Lemma field_firstn data k p n :
  0 <= p -> 0 <= n -> p + n <= 8 * Z.of_nat k ->
  field (firstn k data) p n = field data p n.
Proof.
  intros Hp Hn Hk. unfold field. rewrite bytes_bits_firstn.
  rewrite skipn_firstn_comm, firstn_firstn. f_equal. f_equal. lia.
Qed.

Section Truncation.

Variables fp_sub fp_add fp_scale_round fp_div_pow10 fp_ratio : Z -> Z -> Z.
Variable decimal_places : Z -> Z.

(** X28. No proper prefix of an encoded buffer decodes to samples: the
    empty prefix gives the empty list, every other one fails the outer
    header validation (too small for a header, smaller than its header, or
    a compressed size beyond the input). *)
Theorem truncated_buffer_rejected data opts creation_time k :
  let out :=
    nif_gorilla_encode fp_sub fp_scale_round fp_ratio decimal_places
      data opts creation_time in
  Z.of_nat (length out) < 2 ^ 32 ->
  (k < length out)%nat ->
  let r := nif_gorilla_decode fp_add fp_div_pow10 (firstn k out) in
  if (k =? 0)%nat then r = Ok [] else is_header_error r = true.
Proof.
  intros out Hsz Hk r.
  destruct (Nat.eqb_spec k 0) as [->|Hk0]; [reflexivity|].
  assert (Hne : data <> []).
  { intros ->. unfold out in Hk. cbn in Hk. lia. }
  destruct (encode_fields fp_sub fp_scale_round fp_ratio decimal_places
              data opts creation_time Hne)
    as (Fm & Fv & Fh & _ & Fc & _).
  destruct (encode_bits fp_sub fp_scale_round fp_ratio decimal_places
              data opts creation_time Hne)
    as (packed & _ & _ & _ & _ & _ & Hlen & _).
  fold out in Fm, Fv, Fh, Fc, Hlen.
  set (hs := if pre_v2 _ then 84 else 80) in *.
  assert (Hhs : hs = 80 \/ hs = 84) by (unfold hs; destruct (pre_v2 _); auto).
  rewrite u32_small in Fc by lia.
  unfold r. rewrite decode_outline_eq. unfold decode_outline.
  rewrite length_firstn, Nat.min_l by lia.
  replace (k =? 0)%nat with false by (symmetry; apply Nat.eqb_neq; exact Hk0).
  cbv zeta.
  destruct (Z.ltb_spec (Z.of_nat k) 80) as [E80|E80]; [reflexivity|].
  rewrite !field_firstn by lia.
  rewrite Fm, Fv, Fh, Fc, Z.eqb_refl. cbn [negb].
  change (GORILLA_VERSION <? GORILLA_VERSION) with false. cbv iota.
  replace (negb (hs =? 80) && negb (hs =? 84)) with false
    by (destruct Hhs as [-> | ->]; reflexivity).
  destruct (Z.ltb_spec (Z.of_nat k) hs) as [Eh|Eh]; [reflexivity|].
  replace (Z.of_nat k <? hs + (Z.of_nat (length out) - hs)) with true
    by (symmetry; apply Z.ltb_lt; lia).
  reflexivity.
Qed.

End Truncation.


(* ------------------------------------------------------------------ *)
(** ** Bytes after the packed block *)
(* ------------------------------------------------------------------ *)

Lemma read_bit_extend e r :
  within r -> ext_rel e (read_bit (extend e r)) (read_bit r).
Proof.
  intros (Hp & Ht). unfold read_bit, extend. cbn [data_ total_bits_ pos_].
  destruct (Z.leb_spec (total_bits_ r) (pos_ r)) as [E|E]; cbn [ext_rel].
  - reflexivity.
  - split.
    + unfold extend. cbn [data_ total_bits_ pos_].
      rewrite app_nth1; [reflexivity|].
      assert (pos_ r / 8 < Z.of_nat (length (data_ r)))
        by (apply Z.div_lt_upper_bound; lia).
      assert (0 <= pos_ r / 8) by (apply Z.div_pos; lia).
      lia.
    + unfold within. cbn [data_ total_bits_ pos_]. lia.
Qed.

(** Runs the callee [o] on both readers. *)
Ltac ext_call L :=
  let H := fresh "H" in
  pose proof L as H;
  match type of H with
  | ext_rel _ _ ?o =>
      destruct o as [[? ?]|]; cbn [ext_rel] in H;
      [ let W := fresh "W" in destruct H as (H & W); rewrite H; clear H
      | rewrite H; cbn [ext_rel]; reflexivity ]
  end.

Lemma read_loop_extend e n : forall r acc,
  within r -> ext_rel e (read_loop n (extend e r) acc) (read_loop n r acc).
Proof.
  induction n as [|n IH]; intros r acc Hw; cbn [read_loop].
  - cbn [ext_rel]. split; [reflexivity|exact Hw].
  - ext_call (read_bit_extend e r Hw). apply IH. exact W.
Qed.

Lemma read_extend e r n :
  within r -> ext_rel e (read (extend e r) n) (read r n).
Proof. intros Hw. unfold read. apply read_loop_extend. exact Hw. Qed.

Lemma read_signed_extend e r n :
  within r -> ext_rel e (read_signed (extend e r) n) (read_signed r n).
Proof.
  intros Hw. unfold read_signed.
  ext_call (read_extend e r n Hw).
  destruct (64 <=? n); cbn [ext_rel]; (split; [reflexivity|exact W]).
Qed.

Lemma skip_bits_extend e n : forall r,
  within r ->
  match skip_bits n r with
  | Some r1 => skip_bits n (extend e r) = Some (extend e r1) /\ within r1
  | None => skip_bits n (extend e r) = None
  end.
Proof.
  induction n as [|n IH]; intros r Hw; cbn [skip_bits].
  - split; [reflexivity|exact Hw].
  - pose proof (read_bit_extend e r Hw) as H.
    destruct (read_bit r) as [[b r1]|]; cbn [ext_rel] in H.
    + destruct H as (H & W). rewrite H. apply IH. exact W.
    + rewrite H. reflexivity.
Qed.

(** Runs the next read on both readers. *)
Ltac ext_next :=
  match goal with
  | W : within ?r |- context [read_bit (extend ?e ?r)] =>
      ext_call (read_bit_extend e r W)
  | W : within ?r |- context [read_signed (extend ?e ?r) ?n] =>
      ext_call (read_signed_extend e r n W)
  | W : within ?r |- context [read (extend ?e ?r) ?n] =>
      ext_call (read_extend e r n W)
  end.

Ltac ext_done :=
  cbn [ext_rel]; split; [reflexivity|assumption].

Lemma decode_first_delta_extend e r :
  within r ->
  ext_rel e (decode_first_delta (extend e r)) (decode_first_delta r).
Proof.
  intros Hw. unfold decode_first_delta.
  ext_next. destruct (_ =? 0); [ext_done|].
  ext_next. destruct (_ =? 0); [apply read_signed_extend; assumption|].
  ext_next. destruct (_ =? 0); [apply read_signed_extend; assumption|].
  ext_next. destruct (_ =? 0); apply read_signed_extend; assumption.
Qed.

Lemma decode_delta_of_delta_extend e r :
  within r ->
  ext_rel e (decode_delta_of_delta (extend e r)) (decode_delta_of_delta r).
Proof. exact (decode_first_delta_extend e r). Qed.

Lemma decode_timestamps_loop_extend e n : forall r acc pd,
  within r ->
  ext_rel e (decode_timestamps_loop n (extend e r) acc pd)
    (decode_timestamps_loop n r acc pd).
Proof.
  induction n as [|n IH]; intros r acc pd Hw; cbn [decode_timestamps_loop].
  - ext_done.
  - ext_call (decode_delta_of_delta_extend e r Hw).
    cbv zeta. apply IH. assumption.
Qed.

Lemma decode_timestamps_extend e r count :
  within r ->
  ext_rel e (decode_timestamps (extend e r) count) (decode_timestamps r count).
Proof.
  intros Hw. unfold decode_timestamps.
  destruct (count =? 0); [ext_done|].
  ext_next. cbv zeta.
  destruct (count =? 1); [ext_done|].
  match goal with
  | W : within ?r1 |- context [decode_first_delta (extend e ?r1)] =>
      ext_call (decode_first_delta_extend e r1 W)
  end.
  cbv zeta. apply decode_timestamps_loop_extend. assumption.
Qed.

Lemma decode_values_loop_extend e n : forall r acc pb pl pt,
  within r ->
  ext_rel e (decode_values_loop n (extend e r) acc pb pl pt)
    (decode_values_loop n r acc pb pl pt).
Proof.
  induction n as [|n IH]; intros r acc pb pl pt Hw;
    cbn [decode_values_loop].
  - ext_done.
  - ext_next. destruct (_ =? 0); [apply IH; assumption|].
    ext_next. destruct (_ =? 0).
    + cbv zeta. ext_next. apply IH. assumption.
    + ext_next. ext_next. cbv zeta. ext_next. apply IH. assumption.
Qed.

Lemma decode_values_extend e r count :
  within r ->
  ext_rel e (decode_values (extend e r) count) (decode_values r count).
Proof.
  intros Hw. unfold decode_values.
  destruct (count =? 0); [ext_done|].
  ext_next.
  destruct (count =? 1); [ext_done|].
  apply decode_values_loop_extend. assumption.
Qed.

Lemma field_app data extra p n :
  0 <= p -> 0 <= n -> p + n <= 8 * Z.of_nat (length data) ->
  field (data ++ extra) p n = field data p n.
Proof.
  intros Hp Hn Hle. unfold field. rewrite bytes_bits_app.
  rewrite skipn_app, firstn_app.
  replace (Z.to_nat n - length (skipn (Z.to_nat p) (bytes_bits data)))%nat
    with 0%nat
    by (rewrite length_skipn, bytes_bits_length; lia).
  cbn [firstn]. rewrite app_nil_r. reflexivity.
Qed.

Section Trailing.

Variables fp_add fp_div_pow10 : Z -> Z -> Z.

Lemma decode_packed_extend packed extra cs count flags sc :
  0 <= cs <= Z.of_nat (length packed) ->
  decode_packed fp_add fp_div_pow10 (packed ++ extra) cs count flags sc
  = decode_packed fp_add fp_div_pow10 packed cs count flags sc.
Proof.
  intros Hcs. unfold decode_packed.
  destruct (count =? 0); [reflexivity|].
  destruct (cs <? 32); [reflexivity|].
  set (r0 := mkBitReader packed (cs * 8) 0).
  assert (W0 : within r0)
    by (unfold within, r0; cbn [data_ total_bits_ pos_]; lia).
  change (mkBitReader (packed ++ extra) (cs * 8) 0) with (extend extra r0).
  f_equal.
  do 5 ext_next. cbv zeta. ext_next.
  clear - W0.
  pose proof (skip_bits_extend extra (Z.to_nat 256) r0 W0) as Hs.
  destruct (skip_bits (Z.to_nat 256) r0) as [rt|];
    [destruct Hs as (Hs & Wt)|]; rewrite Hs; [|reflexivity].
  ext_call (decode_timestamps_extend extra rt count Wt).
  match goal with
  | |- context [skip_bits ?k (extend extra r0)] =>
      pose proof (skip_bits_extend extra k r0 W0) as Hv;
      destruct (skip_bits k r0) as [rv|];
      [destruct Hv as (Hv & Wv)|]; rewrite Hv; [|reflexivity]
  end.
  ext_call (decode_values_extend extra rv count Wv).
  reflexivity.
Qed.

(** X29. Bytes after the packed block do not matter: appending anything
    to a non-empty buffer that passes the outer header validation leaves
    the result of decoding, success or failure, unchanged. *)
Theorem trailing_bytes_ignored (data extra : list Z) :
  data <> [] ->
  is_header_error (nif_gorilla_decode fp_add fp_div_pow10 data) = false ->
  nif_gorilla_decode fp_add fp_div_pow10 (data ++ extra)
  = nif_gorilla_decode fp_add fp_div_pow10 data.
Proof.
  intros Hne. rewrite !decode_outline_eq. unfold decode_outline.
  destruct data as [|b0 data']; [congruence|].
  set (data := b0 :: data') in *.
  replace (length data =? 0)%nat with false by reflexivity.
  replace (length (data ++ extra) =? 0)%nat with false by reflexivity.
  cbv zeta. rewrite length_app, Nat2Z.inj_add.
  set (len := Z.of_nat (length data)).
  assert (Hx : 0 <= Z.of_nat (length extra)) by lia.
  destruct (Z.ltb_spec len 80) as [E80|E80]; [discriminate|].
  replace (len + Z.of_nat (length extra) <? 80) with false
    by (symmetry; apply Z.ltb_ge; lia).
  rewrite !(field_app data extra 0 64), !(field_app data extra 64 16),
    !(field_app data extra 80 16), !(field_app data extra 96 32),
    !(field_app data extra 128 32), !(field_app data extra 608 32)
    by (fold len; lia).
  destruct (negb (field data 0 64 =? GORILLA_MAGIC)); [discriminate|].
  destruct (GORILLA_VERSION <? field data 64 16); [discriminate|].
  destruct (negb (field data 80 16 =? 80) && negb (field data 80 16 =? 84))
    eqn:Ehs; [discriminate|].
  destruct (Z.ltb_spec len (field data 80 16)) as [El|El]; [discriminate|].
  replace (len + Z.of_nat (length extra) <? field data 80 16) with false
    by (symmetry; apply Z.ltb_ge; lia).
  destruct (Z.ltb_spec len (field data 80 16 + field data 128 32))
    as [Ec|Ec]; [discriminate|].
  replace (len + Z.of_nat (length extra)
           <? field data 80 16 + field data 128 32) with false
    by (symmetry; apply Z.ltb_ge; lia).
  intros _.
  assert (Hh : field data 80 16 = 80 \/ field data 80 16 = 84).
  { apply andb_false_iff in Ehs.
    destruct Ehs as [E|E]; apply negb_false_iff, Z.eqb_eq in E; auto. }
  assert (Hsc : (if field data 80 16 =? 84
                 then field (data ++ extra) 640 32 else 0)
                = (if field data 80 16 =? 84 then field data 640 32 else 0)).
  { destruct (Z.eqb_spec (field data 80 16) 84) as [E|E]; [|reflexivity].
    apply field_app; fold len; lia. }
  rewrite Hsc.
  rewrite skipn_app.
  replace (Z.to_nat (field data 80 16) - length data)%nat with 0%nat
    by (unfold len in El; lia).
  cbn [skipn].
  apply decode_packed_extend.
  pose proof (field_range data 128 32 ltac:(lia)) as Hr.
  rewrite length_skipn. unfold len in *. lia.
Qed.

End Trailing.


(* ------------------------------------------------------------------ *)
(** ** Byte order *)
(* ------------------------------------------------------------------ *)

Lemma byte_mask_testbit m i :
  0 <= m -> 0 <= i ->
  Z.testbit (Z.shiftl (Z.ones 8) m) i = (m <=? i) && (i <? m + 8).
Proof.
  intros Hm Hi.
  destruct (Z.leb_spec m i) as [E|E].
  - rewrite Z.shiftl_spec by lia.
    destruct (Z.ltb_spec i (m + 8)) as [F|F].
    + apply Z.ones_spec_low. lia.
    + apply Z.ones_spec_high. lia.
  - apply Z.shiftl_spec_low. lia.
Qed.

Lemma swap_left_testbit v m s n :
  0 <= m -> 0 <= s -> 0 <= n ->
  Z.testbit (u64 (Z.shiftl (Z.land v (Z.shiftl (Z.ones 8) m)) s)) n
  = if (n <? 64) && (s <=? n) && (m <=? n - s) && (n - s <? m + 8)
    then Z.testbit v (n - s) else false.
Proof.
  intros Hm Hs Hn. unfold u64.
  destruct (Z.ltb_spec n 64) as [E|E]; cbn [andb].
  - rewrite Z.mod_pow2_bits_low by lia.
    destruct (Z.leb_spec s n) as [F|F]; cbn [andb].
    + rewrite Z.shiftl_spec, Z.land_spec, byte_mask_testbit by lia.
      destruct ((m <=? n - s) && (n - s <? m + 8)).
      * apply andb_true_r.
      * apply andb_false_r.
    + apply Z.shiftl_spec_low. lia.
  - apply Z.mod_pow2_bits_high. lia.
Qed.

Lemma swap_right_testbit v m s n :
  0 <= m -> 0 <= s -> 0 <= n ->
  Z.testbit (Z.shiftr (Z.land v (Z.shiftl (Z.ones 8) m)) s) n
  = if (m <=? n + s) && (n + s <? m + 8)
    then Z.testbit v (n + s) else false.
Proof.
  intros Hm Hs Hn.
  rewrite Z.shiftr_spec, Z.land_spec, byte_mask_testbit by lia.
  destruct ((m <=? n + s) && (n + s <? m + 8)).
  - apply andb_true_r.
  - apply andb_false_r.
Qed.

Lemma byte_swap_64_masks v :
  byte_swap_64 v
  = Z.lor (u64 (Z.shiftl (Z.land v (Z.shiftl (Z.ones 8) 0)) 56))
    (Z.lor (u64 (Z.shiftl (Z.land v (Z.shiftl (Z.ones 8) 8)) 40))
    (Z.lor (u64 (Z.shiftl (Z.land v (Z.shiftl (Z.ones 8) 16)) 24))
    (Z.lor (u64 (Z.shiftl (Z.land v (Z.shiftl (Z.ones 8) 24)) 8))
    (Z.lor (Z.shiftr (Z.land v (Z.shiftl (Z.ones 8) 32)) 8)
    (Z.lor (Z.shiftr (Z.land v (Z.shiftl (Z.ones 8) 40)) 24)
    (Z.lor (Z.shiftr (Z.land v (Z.shiftl (Z.ones 8) 48)) 40)
           (Z.shiftr (Z.land v (Z.shiftl (Z.ones 8) 56)) 56))))))).
Proof. reflexivity. Qed.

(** The bit of [byte_swap_64 v] at [n], as a selection among the bits of
    [v]. *)
Lemma byte_swap_64_testbit_raw v n :
  0 <= n ->
  Z.testbit (byte_swap_64 v) n
  = (if (n <? 64) && (56 <=? n) && (0 <=? n - 56) && (n - 56 <? 0 + 8)
     then Z.testbit v (n - 56) else false)
    || ((if (n <? 64) && (40 <=? n) && (8 <=? n - 40) && (n - 40 <? 8 + 8)
         then Z.testbit v (n - 40) else false)
    || ((if (n <? 64) && (24 <=? n) && (16 <=? n - 24) && (n - 24 <? 16 + 8)
         then Z.testbit v (n - 24) else false)
    || ((if (n <? 64) && (8 <=? n) && (24 <=? n - 8) && (n - 8 <? 24 + 8)
         then Z.testbit v (n - 8) else false)
    || ((if (32 <=? n + 8) && (n + 8 <? 32 + 8)
         then Z.testbit v (n + 8) else false)
    || ((if (40 <=? n + 24) && (n + 24 <? 40 + 8)
         then Z.testbit v (n + 24) else false)
    || ((if (48 <=? n + 40) && (n + 40 <? 48 + 8)
         then Z.testbit v (n + 40) else false)
    || (if (56 <=? n + 56) && (n + 56 <? 56 + 8)
        then Z.testbit v (n + 56) else false))))))).
Proof.
  intros Hn. rewrite byte_swap_64_masks.
  rewrite !Z.lor_spec.
  rewrite !swap_left_testbit, !swap_right_testbit by lia.
  reflexivity.
Qed.

(** Evaluates the comparisons and the offsets of a selection at a
    concrete bit. *)
Ltac eval_selection :=
  repeat match goal with
         | |- context [?a <=? ?b] =>
             let x := eval vm_compute in (a <=? b) in
             change (a <=? b) with x
         | |- context [?a <? ?b] =>
             let x := eval vm_compute in (a <? b) in
             change (a <? b) with x
         end;
  cbn [andb]; cbv iota; cbn [orb];
  rewrite ?orb_false_r.

Lemma byte_swap_64_testbit v n :
  0 <= n < 64 ->
  Z.testbit (byte_swap_64 v) n = Z.testbit v (8 * (7 - n / 8) + n mod 8).
Proof.
  intros Hn. rewrite byte_swap_64_testbit_raw by lia.
  assert (Hk : exists k, n = Z.of_nat k /\ (k < 64)%nat)
    by (exists (Z.to_nat n); lia).
  destruct Hk as (k & -> & Hk). clear Hn.
  do 64 (destruct k as [|k];
         [eval_selection; f_equal; vm_compute; reflexivity|]).
  lia.
Qed.

Lemma byte_swap_64_high v n :
  64 <= n -> Z.testbit (byte_swap_64 v) n = false.
Proof.
  intros Hn. rewrite byte_swap_64_testbit_raw by lia.
  repeat match goal with
         | |- context [if ?c then _ else _] =>
             replace c with false
               by (symmetry;
                   repeat (apply andb_false_iff;
                           first [right; apply Z.ltb_ge; lia
                                 |left; apply Z.ltb_ge; lia
                                 |left]));
             cbv iota
         end.
  reflexivity.
Qed.

Lemma byte_swap_64_range v : 0 <= byte_swap_64 v < 2 ^ 64.
Proof.
  apply u64_fixpoint; [|intros i Hi; apply byte_swap_64_high; exact Hi].
  rewrite byte_swap_64_masks.
  assert (Hm : forall m, 0 <= Z.land v (Z.shiftl (Z.ones 8) m)).
  { intros m. apply Z.land_nonneg. right. apply Z.shiftl_nonneg. cbn. lia. }
  assert (Hu : forall z, 0 <= u64 z)
    by (intros z; unfold u64; apply Z.mod_pos_bound; lia).
  repeat (apply Z.lor_nonneg; split);
    try apply Hu; apply Z.shiftr_nonneg, Hm.
Qed.

(** X30. [byte_swap_64] reverses the eight bytes of a 64-bit word and is
    its own inverse, so on a big-endian host [bits_to_float] undoes
    [float_to_bits] as it does on a little-endian one. *)
Theorem byte_swap_64_involution (v : Z) :
  0 <= v < 2 ^ 64 ->
  byte_swap_64 (byte_swap_64 v) = v
  /\ 0 <= byte_swap_64 v < 2 ^ 64
  /\ (forall i, 0 <= i < 8 ->
      (byte_swap_64 v / 2 ^ (8 * i)) mod 2 ^ 8
      = (v / 2 ^ (8 * (7 - i))) mod 2 ^ 8)
  /\ bits_to_float_be (float_to_bits_be v) = v.
Proof.
  intros Hv.
  assert (Hinv : byte_swap_64 (byte_swap_64 v) = v).
  { apply Z.bits_inj'. intros n Hn.
    destruct (Z.lt_ge_cases n 64) as [Hlt|Hge].
    - rewrite !byte_swap_64_testbit.
      + f_equal. Z.div_mod_to_equations; lia.
      + Z.div_mod_to_equations; lia.
      + Z.div_mod_to_equations; lia.
    - rewrite byte_swap_64_high, (testbit_high_false v 64) by lia.
      reflexivity. }
  split; [exact Hinv|]. split; [apply byte_swap_64_range|].
  split; [|exact Hinv].
  intros i Hi. apply Z.bits_inj'. intros j Hj.
  destruct (Z.lt_ge_cases j 8) as [Hlt|Hge].
  - rewrite !Z.mod_pow2_bits_low, !Z.div_pow2_bits by lia.
    rewrite byte_swap_64_testbit by lia.
    f_equal. Z.div_mod_to_equations; lia.
  - rewrite !Z.mod_pow2_bits_high by lia. reflexivity.
Qed.


(* ------------------------------------------------------------------ *)
(** * Concrete runs of the further properties *)
(* ------------------------------------------------------------------ *)

(** Decides a closed comparison, or a conjunction of two. *)
Ltac by_eval :=
  vm_compute;
  repeat match goal with |- _ /\ _ => split end;
  first [reflexivity | discriminate].

(** The same for every element of a closed list. *)
Ltac all_by_eval :=
  match goal with
  | |- Forall ?P ?l =>
      let l' := eval vm_compute in l in
      change (Forall P l')
  end;
  repeat (apply Forall_cons; [by_eval|]); apply Forall_nil.

(** X1, witness: twelve bits on a fresh writer. *)
Lemma write_appends_bits_witness :
  writer_ok BitWriter_new /\ 12 <= 64
  /\ (wbits (write BitWriter_new 0xABC 12)
      = wbits BitWriter_new ++ bits_of (Z.to_nat 12) 0xABC
      /\ writer_ok (write BitWriter_new 0xABC 12)
      /\ (12 <= 0 -> write BitWriter_new 0xABC 12 = BitWriter_new)).
Proof.
  assert (H1 : writer_ok BitWriter_new) by exact writer_ok_new.
  assert (H2 : 12 <= 64) by by_eval.
  split; [exact H1|]. split; [exact H2|].
  exact (write_appends_bits BitWriter_new 0xABC 12 H1 H2).
Defined.

(** X2, witness: -3 in seven bits. *)
Lemma write_signed_appends_bits_witness :
  writer_ok BitWriter_new /\ 0 <= 7 <= 64
  /\ (wbits (write_signed BitWriter_new (-3) 7)
      = wbits BitWriter_new ++ bits_of (Z.to_nat 7) (-3)
      /\ wbits (write_signed BitWriter_new (-3) 7)
         = wbits (write BitWriter_new (-3 mod 2 ^ 7) 7)
      /\ writer_ok (write_signed BitWriter_new (-3) 7)).
Proof.
  assert (H1 : writer_ok BitWriter_new) by exact writer_ok_new.
  assert (H2 : 0 <= 7 <= 64) by by_eval.
  split; [exact H1|]. split; [exact H2|].
  exact (write_signed_appends_bits BitWriter_new (-3) 7 H1 H2).
Defined.

(** X3, witness: a writer holding three bits. *)
Lemma to_bytes_pads_with_zeros_witness :
  writer_ok (write BitWriter_new 5 3)
  /\ exists pad,
       bytes_bits (fst (to_bytes (write BitWriter_new 5 3)))
       = wbits (write BitWriter_new 5 3) ++ repeat false pad
       /\ (pad < 8)%nat
       /\ snd (to_bytes (write BitWriter_new 5 3))
          = bits_ (write BitWriter_new 5 3)
       /\ Z.of_nat (length (fst (to_bytes (write BitWriter_new 5 3))))
          = (total_bits (write BitWriter_new 5 3) + 7) / 8.
Proof.
  assert (H1 : writer_ok (write BitWriter_new 5 3)) by by_eval.
  split; [exact H1|].
  exact (to_bytes_pads_with_zeros (write BitWriter_new 5 3) H1).
Defined.

(** X4, witness: five bits of 300 on a fresh writer. *)
Lemma write_then_read_witness :
  writer_ok BitWriter_new /\ 0 <= 5 <= 64
  /\ (let bytes := fst (to_bytes (write BitWriter_new 300 5)) in
      read (reader_at bytes (total_bits BitWriter_new)) 5
      = Some (300 mod 2 ^ 5, reader_at bytes (total_bits BitWriter_new + 5))).
Proof.
  assert (H1 : writer_ok BitWriter_new) by exact writer_ok_new.
  assert (H2 : 0 <= 5 <= 64) by by_eval.
  split; [exact H1|]. split; [exact H2|].
  exact (write_then_read BitWriter_new 300 5 H1 H2).
Defined.

(** X5, witness: four bits at offset 2 of a two-byte buffer. *)
Lemma read_signed_sign_extends_witness :
  0 <= 2 /\ 1 <= 4 <= 64 /\ 2 + 4 <= Z.of_nat (length [240; 15]) * 8
  /\ (read_signed (reader_at [240; 15] 2) 4
      = Some (sign_wrap 4 (field [240; 15] 2 4), reader_at [240; 15] (2 + 4))
      /\ - 2 ^ (4 - 1) <= sign_wrap 4 (field [240; 15] 2 4) < 2 ^ (4 - 1)).
Proof.
  assert (H1 : 0 <= 2) by by_eval.
  assert (H2 : 1 <= 4 <= 64) by by_eval.
  assert (H3 : 2 + 4 <= Z.of_nat (length [240; 15]) * 8) by by_eval.
  split; [exact H1|]. split; [exact H2|]. split; [exact H3|].
  exact (read_signed_sign_extends [240; 15] 2 4 H1 H2 H3).
Defined.

(** X6, witness: -5 in seven bits. *)
Lemma write_signed_then_read_signed_witness :
  writer_ok BitWriter_new /\ 1 <= 7 <= 64
  /\ - 2 ^ (7 - 1) <= -5 < 2 ^ (7 - 1)
  /\ (let bytes := fst (to_bytes (write_signed BitWriter_new (-5) 7)) in
      read_signed (reader_at bytes (total_bits BitWriter_new)) 7
      = Some (-5, reader_at bytes (total_bits BitWriter_new + 7))).
Proof.
  assert (H1 : writer_ok BitWriter_new) by exact writer_ok_new.
  assert (H2 : 1 <= 7 <= 64) by by_eval.
  assert (H3 : - 2 ^ (7 - 1) <= -5 < 2 ^ (7 - 1)) by by_eval.
  split; [exact H1|]. split; [exact H2|]. split; [exact H3|].
  exact (write_signed_then_read_signed BitWriter_new (-5) 7 H1 H2 H3).
Defined.

(** X7, witness: five bits at offset 3 of a two-byte buffer. *)
Lemma read_fails_iff_exhausted_witness :
  0 <= 3 /\ 0 <= 5 <= 64
  /\ (let r := reader_at [1; 2] 3 in
      (remaining r < 5 -> read r 5 = None)
      /\ (5 <= remaining r ->
          read r 5 = Some (field [1; 2] 3 5, reader_at [1; 2] (3 + 5))
          /\ remaining (reader_at [1; 2] (3 + 5)) = remaining r - 5
          /\ position (reader_at [1; 2] (3 + 5)) = position r + 5)).
Proof.
  assert (H1 : 0 <= 3) by by_eval.
  assert (H2 : 0 <= 5 <= 64) by by_eval.
  split; [exact H1|]. split; [exact H2|].
  exact (read_fails_iff_exhausted [1; 2] 3 5 H1 H2).
Defined.

(** X8, witness: the code of 64. *)
Lemma varlen_code_roundtrip_iff_witness :
  writer_ok BitWriter_new
  /\ (let bytes := fst (to_bytes (encode_first_delta BitWriter_new 64)) in
      exists v r',
        decode_first_delta (reader_at bytes (total_bits BitWriter_new))
        = Some (v, r')
        /\ decode_delta_of_delta (reader_at bytes (total_bits BitWriter_new))
           = Some (v, r')
        /\ (v = 64 <-> code_fits 64 = true)
        /\ (64 = 64 \/ 64 = 256 \/ 64 = 2048 -> v = - 64)).
Proof.
  assert (H1 : writer_ok BitWriter_new) by exact writer_ok_new.
  split; [exact H1|].
  exact (varlen_code_roundtrip_iff BitWriter_new 64 H1).
Defined.

(** X11, witness: four timestamps a second apart. *)
Lemma timestamps_roundtrip_witness :
  Forall in_i64 [1000; 2000; 3000; 4000]
  /\ forallb code_fits (timestamp_codes [1000; 2000; 3000; 4000]) = true
  /\ (let bytes :=
        fst (to_bytes (ts_writer (encode_timestamps [1000; 2000; 3000; 4000])))
      in
      option_map fst
        (decode_timestamps (reader_at bytes 0)
           (Z.of_nat (length [1000; 2000; 3000; 4000])))
      = Some [1000; 2000; 3000; 4000]).
Proof.
  assert (H1 : Forall in_i64 [1000; 2000; 3000; 4000]) by all_by_eval.
  assert (H2 : forallb code_fits (timestamp_codes [1000; 2000; 3000; 4000])
               = true) by by_eval.
  split; [exact H1|]. split; [exact H2|].
  exact (timestamps_roundtrip [1000; 2000; 3000; 4000] H1 H2).
Defined.

(** X12, witness: the values 1.0, 1.5, 1.5. *)
Lemma values_roundtrip_witness :
  Forall in_u64 [0x3FF0000000000000; 0x3FF8000000000000; 0x3FF8000000000000]
  /\ (let bytes :=
        fst (to_bytes
               (val_writer
                  (encode_values
                     [0x3FF0000000000000; 0x3FF8000000000000;
                      0x3FF8000000000000]))) in
      option_map fst
        (decode_values (reader_at bytes 0)
           (Z.of_nat
              (length
                 [0x3FF0000000000000; 0x3FF8000000000000;
                  0x3FF8000000000000])))
      = Some [0x3FF0000000000000; 0x3FF8000000000000; 0x3FF8000000000000]).
Proof.
  assert (H1 : Forall in_u64
                 [0x3FF0000000000000; 0x3FF8000000000000;
                  0x3FF8000000000000]) by all_by_eval.
  split; [exact H1|].
  exact (values_roundtrip
           [0x3FF0000000000000; 0x3FF8000000000000; 0x3FF8000000000000] H1).
Defined.

(** X14, witness: 1000 has 54 leading zeros. *)
Lemma count_leading_zeros_64_correct_witness :
  0 < 1000 < 2 ^ 64
  /\ (count_leading_zeros_64 1000 = 63 - Z.log2 1000
      /\ count_leading_zeros_64 0 = 64).
Proof.
  assert (H1 : 0 < 1000 < 2 ^ 64) by by_eval.
  split; [exact H1|].
  exact (count_leading_zeros_64_correct 1000 H1).
Defined.

(** X15, witness: 40 has 3 trailing zeros. *)
Lemma count_trailing_zeros_64_correct_witness :
  0 < 40 < 2 ^ 64
  /\ (let n := count_trailing_zeros_64 40 in
      0 <= n <= 63
      /\ Z.testbit 40 n = true
      /\ (forall i, 0 <= i < n -> Z.testbit 40 i = false)
      /\ count_trailing_zeros_64 0 = 64).
Proof.
  assert (H1 : 0 < 40 < 2 ^ 64) by by_eval.
  split; [exact H1|].
  exact (count_trailing_zeros_64_correct 40 H1).
Defined.

(** X17, witness: three bytes. *)
Lemma crc32_table_driven_is_bitwise_witness :
  Forall (fun b => 0 <= b < 256) [49; 50; 51]
  /\ crc32 [49; 50; 51]
     = Z.lxor
         (fold_left (fun c b => crc32_entry_loop 8 (Z.lxor c b)) [49; 50; 51]
            0xFFFFFFFF)
         0xFFFFFFFF.
Proof.
  assert (H1 : Forall (fun b => 0 <= b < 256) [49; 50; 51])
    by all_by_eval.
  split; [exact H1|].
  exact (crc32_table_driven_is_bitwise [49; 50; 51] H1).
Defined.

(** X18, witness: the scale of six decimals. *)
Lemma pow10i_exact_witness :
  6 <= 18 /\ (pow10i 6 = 10 ^ Z.max 6 0 /\ 1 <= pow10i 6 < 2 ^ 63).
Proof.
  assert (H1 : 6 <= 18) by by_eval.
  split; [exact H1|].
  exact (pow10i_exact 6 H1).
Defined.

(** X22, witness: the sample series under [victoria_metrics], counter
    deltas and a scale of 2. *)
Lemma roundtrip_through_preprocessing_witness :
  Forall in_i64 (map fst sample_series)
  /\ Forall in_u64
       (pre_values
          (preprocess no_fp2 no_fp2 no_fp1 vm_counter_options
             (map snd sample_series)))
  /\ forallb code_fits (timestamp_codes (map fst sample_series)) = true
  /\ 256 + total_bits (ts_writer (encode_timestamps (map fst sample_series)))
     + total_bits
         (val_writer
            (encode_values
               (pre_values
                  (preprocess no_fp2 no_fp2 no_fp1 vm_counter_options
                     (map snd sample_series))))) < 2 ^ 32
  /\ (let p :=
        preprocess no_fp2 no_fp2 no_fp1 vm_counter_options
          (map snd sample_series) in
      let ts := map fst sample_series in
      exists values,
        run_decode (run_encode sample_series vm_counter_options 1700000000)
        = Ok (combine ts values)
        /\ values
           = postprocess no_fp2 no_fp2 (pre_flags p) (pre_scale p)
               (pre_values p)
        /\ length values = length sample_series).
Proof.
  assert (H1 : Forall in_i64 (map fst sample_series)) by all_by_eval.
  assert (H2 : Forall in_u64
                 (pre_values
                    (preprocess no_fp2 no_fp2 no_fp1 vm_counter_options
                       (map snd sample_series)))) by all_by_eval.
  assert (H3 : forallb code_fits (timestamp_codes (map fst sample_series))
               = true) by by_eval.
  assert (H4 : 256
               + total_bits
                   (ts_writer (encode_timestamps (map fst sample_series)))
               + total_bits
                   (val_writer
                      (encode_values
                         (pre_values
                            (preprocess no_fp2 no_fp2 no_fp1
                               vm_counter_options
                               (map snd sample_series))))) < 2 ^ 32)
    by by_eval.
  split; [exact H1|]. split; [exact H2|]. split; [exact H3|].
  split; [exact H4|].
  exact (roundtrip_through_preprocessing
           no_fp2 no_fp2 no_fp2 no_fp2 no_fp2 no_fp1
           sample_series vm_counter_options 1700000000 H1 H2 H3 H4).
Defined.

(** X23, witness: the sample series with only [is_counter] set. *)
Lemma roundtrip_without_victoria_metrics_witness :
  opt_flag (victoria_metrics counter_only_options) = false
  /\ Forall valid_sample sample_series
  /\ forallb code_fits (timestamp_codes (map fst sample_series)) = true
  /\ payload_bits sample_series < 2 ^ 32
  /\ run_decode (run_encode sample_series counter_only_options 1700000000)
     = Ok sample_series.
Proof.
  assert (H0 : opt_flag (victoria_metrics counter_only_options) = false)
    by reflexivity.
  assert (H1 : Forall valid_sample sample_series) by all_by_eval.
  assert (H2 : forallb code_fits (timestamp_codes (map fst sample_series))
               = true) by by_eval.
  assert (H3 : payload_bits sample_series < 2 ^ 32) by by_eval.
  split; [exact H0|]. split; [exact H1|]. split; [exact H2|].
  split; [exact H3|].
  exact (roundtrip_without_victoria_metrics
           no_fp2 no_fp2 no_fp2 no_fp2 no_fp2 no_fp1
           sample_series counter_only_options 1700000000 H0 H1 H2 H3).
Defined.

(** X24, witness: the sample buffer, which decodes. *)
Lemma decode_success_means_witness :
  run_decode sample_buffer = Ok sample_series
  /\ ((sample_buffer = [] /\ sample_series = [])
      \/ (80 <= Z.of_nat (length sample_buffer)
          /\ field sample_buffer 0 64 = GORILLA_MAGIC
          /\ field sample_buffer 64 16 <= GORILLA_VERSION
          /\ (field sample_buffer 80 16 = 80 \/ field sample_buffer 80 16 = 84)
          /\ field sample_buffer 80 16 + field sample_buffer 128 32
             <= Z.of_nat (length sample_buffer)
          /\ Z.of_nat (length sample_series) = field sample_buffer 96 32
          /\ (field sample_buffer 96 32 <> 0
              -> 32 <= field sample_buffer 128 32))).
Proof.
  assert (H1 : run_decode sample_buffer = Ok sample_series) by by_eval.
  split; [exact H1|].
  exact (decode_success_means no_fp2 no_fp2 sample_buffer sample_series H1).
Defined.

(** X25, witness: the sample series under the three options. *)
Lemma encoded_header_fields_witness :
  sample_series <> []
  /\ (let p :=
        preprocess no_fp2 no_fp2 no_fp1 vm_counter_options
          (map snd sample_series) in
      let out := run_encode sample_series vm_counter_options 1700000000 in
      let hs := if pre_v2 p then 84 else 80 in
      field out 0 64 = GORILLA_MAGIC
      /\ field out 64 16 = GORILLA_VERSION
      /\ field out 80 16 = hs
      /\ field out 96 32 = u32 (Z.of_nat (length sample_series))
      /\ field out 128 32 = u32 (Z.of_nat (length out) - hs)
      /\ field out 160 32 = u32 (u32 (Z.of_nat (length sample_series)) * 16)
      /\ field out 192 32 = crc32 (skipn (Z.to_nat hs) out)
      /\ field out 608 32 = pre_flags p
      /\ (pre_v2 p = true -> field out 640 32 = pre_scale p)).
Proof.
  assert (H1 : sample_series <> []) by discriminate.
  split; [exact H1|].
  exact (encoded_header_fields no_fp2 no_fp2 no_fp2 no_fp1
           sample_series vm_counter_options 1700000000 H1).
Defined.

(** X26, witness: the sample series under default options. *)
Lemma inner_header_repeats_outer_witness :
  sample_series <> []
  /\ (let p :=
        preprocess no_fp2 no_fp2 no_fp1 default_options
          (map snd sample_series) in
      let out := run_encode sample_series default_options 1700000000 in
      let hs := if pre_v2 p then 84 else 80 in
      field out (8 * hs) 32 = field out 96 32
      /\ field out (8 * hs + 32) 64 = field out 224 64
      /\ field out (8 * hs + 96) 64 = field out 320 64
      /\ field out (8 * hs + 160) 32 = field out 288 32
      /\ field out (8 * hs + 192) 32 = field out 384 32
      /\ field out (8 * hs + 224) 32 = field out 416 32
      /\ field out 224 64 = u64 (fst (hd (0, 0) sample_series))
      /\ field out 320 64 = u64 (hd 0 (pre_values p))).
Proof.
  assert (H1 : sample_series <> []) by discriminate.
  split; [exact H1|].
  exact (inner_header_repeats_outer no_fp2 no_fp2 no_fp2 no_fp1
           sample_series default_options 1700000000 H1).
Defined.

(** X27, witness: the sample series under default options. *)
Lemma encoded_size_bounds_witness :
  sample_series <> []
  /\ (let out := run_encode sample_series default_options 1700000000 in
      let n := Z.of_nat (length sample_series) in
      8 * 128 + 2 * (n - 1) <= 8 * Z.of_nat (length out)
      /\ 8 * Z.of_nat (length out) <= 8 * 132 + 102 * (n - 1) + 7).
Proof.
  assert (H1 : sample_series <> []) by discriminate.
  split; [exact H1|].
  exact (encoded_size_bounds no_fp2 no_fp2 no_fp2 no_fp1
           sample_series default_options 1700000000 H1).
Defined.

(** X28, witness: the first 90 bytes of the encoded sample series. *)
Lemma truncated_buffer_rejected_witness :
  Z.of_nat (length (run_encode sample_series default_options 1700000000))
  < 2 ^ 32
  /\ (90 < length (run_encode sample_series default_options 1700000000))%nat
  /\ (let out := run_encode sample_series default_options 1700000000 in
      let r := run_decode (firstn 90 out) in
      if (90 =? 0)%nat then r = Ok [] else is_header_error r = true).
Proof.
  assert (H1 : Z.of_nat
                 (length (run_encode sample_series default_options 1700000000))
               < 2 ^ 32) by by_eval.
  assert (H2 : (90 < length (run_encode sample_series default_options
                               1700000000))%nat)
    by (apply Nat.ltb_lt; vm_compute; reflexivity).
  split; [exact H1|]. split; [exact H2|].
  exact (truncated_buffer_rejected
           no_fp2 no_fp2 no_fp2 no_fp2 no_fp2 no_fp1
           sample_series default_options 1700000000 90 H1 H2).
Defined.

(** X29, witness: three bytes after the sample buffer. *)
Lemma trailing_bytes_ignored_witness :
  sample_buffer <> []
  /\ is_header_error (run_decode sample_buffer) = false
  /\ run_decode (sample_buffer ++ [1; 2; 3]) = run_decode sample_buffer.
Proof.
  assert (H1 : sample_buffer <> []) by (vm_compute; discriminate).
  assert (H2 : is_header_error (run_decode sample_buffer) = false)
    by by_eval.
  split; [exact H1|]. split; [exact H2|].
  exact (trailing_bytes_ignored no_fp2 no_fp2 sample_buffer [1; 2; 3] H1 H2).
Defined.

(** X30, witness: the word 0x0102030405060708. *)
Lemma byte_swap_64_involution_witness :
  0 <= 0x0102030405060708 < 2 ^ 64
  /\ (byte_swap_64 (byte_swap_64 0x0102030405060708) = 0x0102030405060708
      /\ 0 <= byte_swap_64 0x0102030405060708 < 2 ^ 64
      /\ (forall i, 0 <= i < 8 ->
          (byte_swap_64 0x0102030405060708 / 2 ^ (8 * i)) mod 2 ^ 8
          = (0x0102030405060708 / 2 ^ (8 * (7 - i))) mod 2 ^ 8)
      /\ bits_to_float_be (float_to_bits_be 0x0102030405060708)
         = 0x0102030405060708).
Proof.
  assert (H1 : 0 <= 0x0102030405060708 < 2 ^ 64) by by_eval.
  split; [exact H1|].
  exact (byte_swap_64_involution 0x0102030405060708 H1).
Defined.
